(** * Swept-sphere collision and motion integration (share/solid_phys.c)

    A shallow embedding of the physics core of Neverball.  Every C function
    of [solid_phys.c] that the verified properties depend on is a Rocq
    function of the same name.

    Conventions of the embedding.
    - [float] is an abstract scalar type with the operations the C code
      applies to it (class [Scalar]); comparisons are boolean functions, so
      a model in which they fail on a NaN is an instance like any other.
      Ordering laws are a separate class ([ScalarOrder]) and are assumed only
      by the theorems that say so.  Exact rational arithmetic is the
      instance used to run the code on concrete levels.
    - [int] is [Z]; no index of this file is ever incremented past a
      list length, so no wrap-around arises.  The counter behind the
      parameter m of [sol_step] is incremented as a number; the theorem on
      it assumes that the counter is below INT_MAX.
    - Each (count, pointer) pair of [struct s_file] is one list; the count
      is its length.  Reading an array outside its bounds is undefined in C
      and is [None] here; so is running out of [fuel], which bounds the
      depth of the recursion over the node tree and the number of turns of
      the cycle traverser.
    - A [float T[3]] out-parameter is passed in and returned. *)

From Stdlib Require Import ZArith QArith Qabs Bool Lia.
From stdpp Require Import base option list.

Local Open Scope Z_scope.

(** ** Scalars *)

Class Scalar := {
  F : Type;
  lit : Q -> F;                 (* a decimal literal such as [1.0e+5f] *)
  fadd : F -> F -> F;
  fsub : F -> F -> F;
  fmul : F -> F -> F;
  fdiv : F -> F -> F;
  fneg : F -> F;
  fabsf : F -> F;
  fsqrtf : F -> F;
  fsinf : F -> F;
  fcosf : F -> F;
  flt : F -> F -> bool;         (* a <  b *)
  fle : F -> F -> bool;         (* a <= b *)
  feq : F -> F -> bool          (* a == b *)
}.

Declare Scope fl_scope.
Delimit Scope fl_scope with fl.
Bind Scope fl_scope with F.
Notation "a + b" := (fadd a b) : fl_scope.
Notation "a - b" := (fsub a b) : fl_scope.
Notation "a * b" := (fmul a b) : fl_scope.
Notation "a / b" := (fdiv a b) : fl_scope.
Notation "- a" := (fneg a) : fl_scope.
Notation "a <? b" := (flt a b) : fl_scope.
Notation "a <=? b" := (fle a b) : fl_scope.
Notation "a >? b" := (flt b a) : fl_scope.
Notation "a >=? b" := (fle b a) : fl_scope.
Notation "a =? b" := (feq a b) : fl_scope.

(** Laws of the comparisons of IEEE 754 floats, NaN included.  A
    comparison with a NaN is false, so [x <=? x] says that x is not a NaN.
    [lit] rounds a decimal literal, monotonically. *)
Class ScalarOrder `{Scalar} := {
  fle_flt_trans : forall a b c : F,
    (a <=? b)%fl = true -> (b <? c)%fl = true -> (a <=? c)%fl = true;
  fle_self_r : forall a b : F, (a <=? b)%fl = true -> (b <=? b)%fl = true;
  flt_self_r : forall a b : F, (a <? b)%fl = true -> (b <=? b)%fl = true;
  flt_total : forall a b : F,
    (a <=? a)%fl = true -> (b <=? b)%fl = true ->
    (a <? b)%fl = negb (b <=? a)%fl;
  fadd_nonneg : forall a b : F,
    (lit 0 <=? a)%fl = true -> (lit 0 <=? b)%fl = true ->
    (lit 0 <=? a + b)%fl = true;
  flt_lit : forall a b : Q, (lit a <? lit b)%fl = true -> (a < b)%Q;
  fle_lit : forall a b : Q, (a <= b)%Q -> (lit a <=? lit b)%fl = true
}.

(** Two more laws of the IEEE 754 comparison [<], NaN included: it is
    transitive, and no value is below itself. *)
Class ScalarStrict `{Scalar} := {
  flt_trans : forall a b c : F,
    (a <? b)%fl = true -> (b <? c)%fl = true -> (a <? c)%fl = true;
  flt_irrefl : forall a : F, (a <? a)%fl = false
}.

Section Solid.

Context `{Scalar}.

Definition LARGE : F := lit 100000.          (* 1.0e+5f *)
Definition SMALL : F := lit (1 # 1000).      (* 1.0e-3f *)

(** ** Vectors *)

Record vec := V3 { vx : F; vy : F; vz : F }.

Definition v_zero : vec := V3 (lit 0) (lit 0) (lit 0).

(** Modelled from the spec: [vec3.h] is not under [src/]; the "closed-form
    3-D vector ops" of the geometry primitives are the usual componentwise
    ones. *)
Definition v_dot (u v : vec) : F :=
  (vx u * vx v + vy u * vy v + vz u * vz v)%fl.

Definition v_len (u : vec) : F := fsqrtf (v_dot u u).

Definition v_add (v w : vec) : vec :=
  V3 (vx v + vx w)%fl (vy v + vy w)%fl (vz v + vz w)%fl.

Definition v_sub (v w : vec) : vec :=
  V3 (vx v - vx w)%fl (vy v - vy w)%fl (vz v - vz w)%fl.

Definition v_scl (v : vec) (k : F) : vec :=
  V3 (vx v * k)%fl (vy v * k)%fl (vz v * k)%fl.

(* v_mad(u, p, v, t):  u = p + v * t *)
Definition v_mad (p v : vec) (t : F) : vec :=
  V3 (vx p + vx v * t)%fl (vy p + vy v * t)%fl (vz p + vz v * t)%fl.

Definition v_crs (v w : vec) : vec :=
  V3 (vy v * vz w - vz v * vy w)%fl
     (vz v * vx w - vx v * vz w)%fl
     (vx v * vy w - vy v * vx w)%fl.

Definition v_nrm (v : vec) : vec :=
  let d := v_len v in V3 (vx v / d)%fl (vy v / d)%fl (vz v / d)%fl.

(** Modelled from the spec: [m_rot] and [m_vxfm] of [vec3.h] are not under
    [src/]; "an axis-angle rotation matrix built from the normalized
    angular-velocity axis and magnitude x dt", applied to a vector.  The
    matrix is kept as its three rows. *)
Record mat := M3 { m0 : vec; m1 : vec; m2 : vec }.

Definition m_rot (v : vec) (a : F) : mat :=
  let s := fsinf a in
  let c := fcosf a in
  let u := v_nrm v in
  let one := lit 1 in
  let U i j := (i * j)%fl in
  let diag x := (U x x + c * (one - U x x))%fl in
  let off x y k := (U x y - c * U x y + s * k)%fl in
  M3 (V3 (diag (vx u))
         (off (vx u) (vy u) (- vz u)%fl)
         (off (vx u) (vz u) (vy u)))
     (V3 (off (vy u) (vx u) (vz u))
         (diag (vy u))
         (off (vy u) (vz u) (- vx u)%fl))
     (V3 (off (vz u) (vx u) (- vy u)%fl)
         (off (vz u) (vy u) (vx u))
         (diag (vz u))).

Definition m_vxfm (M : mat) (w : vec) : vec :=
  V3 (v_dot (m0 M) w) (v_dot (m1 M) w) (v_dot (m2 M) w).

(** ** The level (the fields of [solid.h] that [solid_phys.c] reads) *)

Record s_vert := { vert_p : vec }.
Record s_edge := { edge_vi : Z; edge_vj : Z }.
Record s_side := { side_n : vec; side_d : F }.
Record s_lump := { lump_fl : Z;
                   lump_v0 : Z; lump_vc : Z;
                   lump_e0 : Z; lump_ec : Z;
                   lump_s0 : Z; lump_sc : Z }.
Record s_node := { node_si : Z; node_ni : Z; node_nj : Z;
                   node_l0 : Z; node_lc : Z }.
Record s_path := { path_p : vec; path_t : F; path_pi : Z;
                   path_f : Z; path_s : Z }.
Record s_body := { body_t : F; body_ni : Z; body_pi : Z }.
Record s_item := { item_p : vec; item_t : Z }.
Record s_swch := { swch_p : vec; swch_r : F; swch_pi : Z;
                   swch_t0 : F; swch_t : F;
                   swch_f0 : Z; swch_f : Z; swch_i : Z; swch_e : Z }.
Record s_ball := { ball_e : mat; ball_p : vec; ball_v : vec; ball_w : vec;
                   ball_E : mat; ball_W : vec; ball_r : F }.

Record s_file := {
  vv : list s_vert;  ev : list s_edge;  sv : list s_side;
  lv : list s_lump;  nv : list s_node;  pv : list s_path;
  bv : list s_body;  hv : list s_item;  xv : list s_swch;
  uv : list s_ball;  iv : list Z }.

(** Constants of [solid.h] and [geom.h], which are not under [src/]. *)
Class Header := {
  L_DETAIL : Z;
  ITEM_NONE : Z;
  SWCH_HEIGHT : F }.

Context `{Header}.

(* a[i], undefined outside the array *)
Definition at_ {A} (a : list A) (i : Z) : option A :=
  if i <? 0 then None else a !! Z.to_nat i.

(** ** Body motion *)

Definition erp (t : F) : F := (lit 3 * t * t - lit 2 * t * t * t)%fl.

Definition derp (t : F) : F := (lit 6 * t - lit 6 * t * t)%fl.

Definition sol_body_v (fp : s_file) (bp : s_body) : option vec :=
  if 0 <=? body_pi bp then
    pp ← at_ (pv fp) (body_pi bp);
    if negb (path_f pp =? 0) then
      pq ← at_ (pv fp) (path_pi pp);
      let v := v_sub (path_p pq) (path_p pp) in
      let v := v_scl v (lit 1 / path_t pp)%fl in
      Some (if negb (path_s pp =? 0)
            then v_scl v (derp (body_t bp / path_t pp)%fl)
            else v)
    else Some v_zero
  else Some v_zero.

Definition sol_body_p (fp : s_file) (bp : s_body) : option vec :=
  if 0 <=? body_pi bp then
    pp ← at_ (pv fp) (body_pi bp);
    pq ← at_ (pv fp) (path_pi pp);
    let v := v_sub (path_p pq) (path_p pp) in
    Some (if negb (path_s pp =? 0)
          then v_mad (path_p pp) v (erp (body_t bp / path_t pp)%fl)
          else v_mad (path_p pp) v (body_t bp / path_t pp)%fl)
  else Some v_zero.

(** ** Moving-surface intersection tests *)

Definition v_sol (p v : vec) (r : F) : F :=
  let a := v_dot v v in
  let b := (v_dot v p * lit 2)%fl in
  let c := (v_dot p p - r * r)%fl in
  let d := (b * b - lit 4 * a * c)%fl in
  if (d <? lit 0)%fl then LARGE
  else if (d >? lit 0)%fl then
    let t0 := (lit (1 # 2) * (- b - fsqrtf d) / a)%fl in
    let t1 := (lit (1 # 2) * (- b + fsqrtf d) / a)%fl in
    let t := if (t0 <? t1)%fl then t0 else t1 in
    if (t <? lit 0)%fl then LARGE else t
  else (- b * lit (1 # 2) / a)%fl.

Definition v_vert (Q o q w p v : vec) (r : F) : F * vec :=
  let O := v_add o q in
  let P := v_sub p O in
  let V := v_sub v w in
  if (v_dot P V <? lit 0)%fl then
    let t := v_sol P V r in
    if (t <? LARGE)%fl then (t, v_mad O w t) else (t, Q)
  else (LARGE, Q).

Definition v_edge (Q o q u w p v : vec) (r : F) : F * vec :=
  let d := v_sub p o in
  let d := v_sub d q in
  let e := v_sub v w in
  let du := v_dot d u in
  let eu := v_dot e u in
  let uu := v_dot u u in
  let P := v_mad d u (- du / uu)%fl in
  let V := v_mad e u (- eu / uu)%fl in
  let t := v_sol P V r in
  let s := ((du + eu * t) / uu)%fl in
  if (lit 0 <=? t)%fl && (t <? LARGE)%fl && (lit 0 <? s)%fl && (s <? lit 1)%fl
  then
    let d := v_mad o w t in
    let e := v_mad q u s in
    (t, v_add e d)
  else (LARGE, Q).

Definition v_side (Q o w n : vec) (d : F) (p v : vec) (r : F) : F * vec :=
  let vn := v_dot v n in
  let wn := v_dot w n in
  if (vn - wn <=? lit 0)%fl then
    let on := v_dot o n in
    let pn := v_dot p n in
    let u := ((r + d + on - pn) / (vn - wn))%fl in
    let a := ((d + on - pn) / (vn - wn))%fl in
    if (lit 0 <=? u)%fl then
      let t := u in
      (t, v_mad (v_mad p v t) n (- r)%fl)
    else if (lit 0 <=? a)%fl then
      let t := lit 0 in
      (t, v_mad (v_mad p v t) n (- r)%fl)
    else (LARGE, Q)
  else (LARGE, Q).

(** ** Rotation, bounce and pendulum *)

Definition sol_rotate (e : mat) (w : vec) (dt : F) : mat :=
  if (v_len w >? lit 0)%fl then
    let a := v_nrm w in
    let M := m_rot a (v_len w * dt)%fl in
    let f0 := m_vxfm M (m0 e) in
    let f1 := m_vxfm M (m1 e) in
    let f2 := m_vxfm M (m2 e) in
    let e2 := v_crs f0 f1 in
    let e1 := v_crs f2 f0 in
    let e0 := v_crs f1 f2 in
    M3 (v_nrm e0) (v_nrm e1) (v_nrm e2)
  else e.

Definition ball_set_v (up : s_ball) (v : vec) : s_ball :=
  {| ball_e := ball_e up; ball_p := ball_p up; ball_v := v;
     ball_w := ball_w up; ball_E := ball_E up; ball_W := ball_W up;
     ball_r := ball_r up |}.

Definition ball_set_w (up : s_ball) (w : vec) : s_ball :=
  {| ball_e := ball_e up; ball_p := ball_p up; ball_v := ball_v up;
     ball_w := w; ball_E := ball_E up; ball_W := ball_W up;
     ball_r := ball_r up |}.

Definition ball_set_p (up : s_ball) (p : vec) : s_ball :=
  {| ball_e := ball_e up; ball_p := p; ball_v := ball_v up;
     ball_w := ball_w up; ball_E := ball_E up; ball_W := ball_W up;
     ball_r := ball_r up |}.

Definition ball_set_e (up : s_ball) (e : mat) : s_ball :=
  {| ball_e := e; ball_p := ball_p up; ball_v := ball_v up;
     ball_w := ball_w up; ball_E := ball_E up; ball_W := ball_W up;
     ball_r := ball_r up |}.

Definition ball_set_E (up : s_ball) (E : mat) : s_ball :=
  {| ball_e := ball_e up; ball_p := ball_p up; ball_v := ball_v up;
     ball_w := ball_w up; ball_E := E; ball_W := ball_W up;
     ball_r := ball_r up |}.

Definition ball_set_W (up : s_ball) (W : vec) : s_ball :=
  {| ball_e := ball_e up; ball_p := ball_p up; ball_v := ball_v up;
     ball_w := ball_w up; ball_E := ball_E up; ball_W := W;
     ball_r := ball_r up |}.

(* The ball after the bounce, and the "energy" of the impact. *)
Definition sol_bounce (up : s_ball) (q w : vec) (dt : F) : F * s_ball :=
  let p := ball_p up in
  let v := ball_v up in
  let r := v_sub p q in
  let d := v_sub v w in
  let n := v_nrm r in
  let up := ball_set_w up (v_crs d r) in
  let up := ball_set_w up
              (v_scl (ball_w up) (- lit 1 / (ball_r up * ball_r up))%fl) in
  let vn := v_dot v n in
  let wn := v_dot w n in
  let up := ball_set_v up (v_mad v n (lit (17 # 10) * (wn - vn))%fl) in
  let up := ball_set_p up (v_mad q n (ball_r up)) in
  (fabsf (v_dot n d), up).

Definition sol_pendulum (up : s_ball) (a g : vec) (dt : F) : s_ball :=
  let m := lit 5 in
  let ka := lit (1 # 2) in
  let kd := lit (995 # 1000) in
  let A := v_scl a ka in
  let A := v_mad A g (- dt)%fl in
  let Fo := v_scl A (m / dt)%fl in
  let r := v_scl (m1 (ball_E up)) (- ball_r up)%fl in
  let T := if (fabsf (v_dot r Fo) >? lit 0)%fl then v_crs Fo r else v_zero in
  let up := ball_set_W up (v_mad (ball_W up) T dt) in
  let up := ball_set_W up (v_scl (ball_W up) kd) in
  let up := ball_set_E up (sol_rotate (ball_E up) (ball_W up) dt) in
  let v := v_mad (ball_v up) (m1 (ball_E up))
                 (v_dot (ball_v up) (m1 (ball_E up))) in
  let Y := v_crs v (m2 (ball_E up)) in
  let Y := v_scl (m1 (ball_E up)) (lit 2 * v_dot Y (m1 (ball_E up)))%fl in
  ball_set_E up (sol_rotate (ball_E up) Y dt).

(** ** Switches and the path cycle *)

Definition path_set_f (pp : s_path) (f : Z) : s_path :=
  {| path_p := path_p pp; path_t := path_t pp; path_pi := path_pi pp;
     path_f := f; path_s := path_s pp |}.

(* fp->pv[pi].f = f *)
Definition pv_set_f (pv : list s_path) (pi f : Z) : option (list s_path) :=
  pp ← at_ pv pi; Some (<[Z.to_nat pi := path_set_f pp f]> pv).

(* The do-while loop "Tortoise and hare cycle traverser", written twice in
   the source (sol_swch_step, sol_swch_test).  Each unit of [fuel] pays
   for one turn of the loop. *)
Fixpoint cycle_traverser (fuel : nat) (pv : list s_path) (f pi pj : Z)
  : option (list s_path) :=
  match fuel with
  | O => None
  | S fuel =>
      pv ← pv_set_f pv pi f;
      pv ← pv_set_f pv pj f;
      pp ← at_ pv pi; let pi := path_pi pp in
      pq ← at_ pv pj; let pj := path_pi pq in
      pq ← at_ pv pj; let pj := path_pi pq in
      if negb (pi =? pj) then cycle_traverser fuel pv f pi pj else Some pv
  end.

Definition swch_set_t (xp : s_swch) (t : F) : s_swch :=
  {| swch_p := swch_p xp; swch_r := swch_r xp; swch_pi := swch_pi xp;
     swch_t0 := swch_t0 xp; swch_t := t; swch_f0 := swch_f0 xp;
     swch_f := swch_f xp; swch_i := swch_i xp; swch_e := swch_e xp |}.

Definition swch_set_f (xp : s_swch) (f : Z) : s_swch :=
  {| swch_p := swch_p xp; swch_r := swch_r xp; swch_pi := swch_pi xp;
     swch_t0 := swch_t0 xp; swch_t := swch_t xp; swch_f0 := swch_f0 xp;
     swch_f := f; swch_i := swch_i xp; swch_e := swch_e xp |}.

Definition swch_set_e (xp : s_swch) (e : Z) : s_swch :=
  {| swch_p := swch_p xp; swch_r := swch_r xp; swch_pi := swch_pi xp;
     swch_t0 := swch_t0 xp; swch_t := swch_t xp; swch_f0 := swch_f0 xp;
     swch_f := swch_f xp; swch_i := swch_i xp; swch_e := e |}.

(* The body of the loop of sol_swch_step, for the switch xp. *)
Definition swch_step1 (fuel : nat) (dt : F) (xp : s_swch) (pv : list s_path)
  : option (s_swch * list s_path) :=
  if (swch_t xp >? lit 0)%fl then
    let xp := swch_set_t xp (swch_t xp - dt)%fl in
    if (swch_t xp <=? lit 0)%fl then
      pv ← cycle_traverser fuel pv (swch_f0 xp) (swch_pi xp) (swch_pi xp);
      Some (swch_set_f xp (swch_f0 xp), pv)
    else Some (xp, pv)
  else Some (xp, pv).

Fixpoint swch_step_loop (fuel : nat) (dt : F) (xs : list s_swch)
    (pv : list s_path) : option (list s_swch * list s_path) :=
  match xs with
  | [] => Some ([], pv)
  | xp :: xs =>
      '(xp, pv) ← swch_step1 fuel dt xp pv;
      '(xs, pv) ← swch_step_loop fuel dt xs pv;
      Some (xp :: xs, pv)
  end.

Definition file_set_xv_pv (fp : s_file) (xs : list s_swch) (ps : list s_path)
  : s_file :=
  {| vv := vv fp; ev := ev fp; sv := sv fp; lv := lv fp; nv := nv fp;
     pv := ps; bv := bv fp; hv := hv fp; xv := xs; uv := uv fp;
     iv := iv fp |}.

Definition file_set_bv (fp : s_file) (bs : list s_body) : s_file :=
  {| vv := vv fp; ev := ev fp; sv := sv fp; lv := lv fp; nv := nv fp;
     pv := pv fp; bv := bs; hv := hv fp; xv := xv fp; uv := uv fp;
     iv := iv fp |}.

Definition file_set_uv (fp : s_file) (us : list s_ball) : s_file :=
  {| vv := vv fp; ev := ev fp; sv := sv fp; lv := lv fp; nv := nv fp;
     pv := pv fp; bv := bv fp; hv := hv fp; xv := xv fp; uv := us;
     iv := iv fp |}.

Definition sol_swch_step (fuel : nat) (fp : s_file) (dt : F) : option s_file :=
  '(xs, ps) ← swch_step_loop fuel dt (xv fp) (pv fp);
  Some (file_set_xv_pv fp xs ps).

(** ** Stepping bodies and balls *)

(* The body of the loop of sol_body_step, for the body bp. *)
Definition body_step1 (pv : list s_path) (dt : F) (bp : s_body)
  : option s_body :=
  if 0 <=? body_pi bp then
    pp ← at_ pv (body_pi bp);
    if negb (path_f pp =? 0) then
      let t := (body_t bp + dt)%fl in
      if (t >=? path_t pp)%fl
      then Some {| body_t := lit 0; body_ni := body_ni bp;
                   body_pi := path_pi pp |}
      else Some {| body_t := t; body_ni := body_ni bp;
                   body_pi := body_pi bp |}
    else Some bp
  else Some bp.

Definition sol_body_step (fp : s_file) (dt : F) : option s_file :=
  bs ← mapM (body_step1 (pv fp) dt) (bv fp);
  Some (file_set_bv fp bs).

Definition ball_step1 (dt : F) (up : s_ball) : s_ball :=
  let up := ball_set_p up (v_mad (ball_p up) (ball_v up) dt) in
  ball_set_e up (sol_rotate (ball_e up) (ball_w up) dt).

Definition sol_ball_step (fp : s_file) (dt : F) : s_file :=
  file_set_uv fp (map (ball_step1 dt) (uv fp)).

(** ** Testing one primitive *)

(* for (i = 0; i < n; i++) body *)
Fixpoint for_from {St} (k : nat) (i : Z) (body : Z -> St -> option St)
    (s : St) : option St :=
  match k with
  | O => Some s
  | S k => s ← body i s; for_from k (i + 1) body s
  end.

Definition for_upto {St} (n : Z) (body : Z -> St -> option St) (s : St)
  : option St :=
  for_from (Z.to_nat n) 0 body s.

Definition sol_test_vert (dt : F) (T : vec) (up : s_ball) (vp : s_vert)
    (o w : vec) : F * vec :=
  v_vert T o (vert_p vp) w (ball_p up) (ball_v up) (ball_r up).

Definition sol_test_edge (dt : F) (T : vec) (up : s_ball) (fp : s_file)
    (ep : s_edge) (o w : vec) : option (F * vec) :=
  vi ← at_ (vv fp) (edge_vi ep);
  vj ← at_ (vv fp) (edge_vj ep);
  let q := vert_p vi in
  let u := v_sub (vert_p vj) (vert_p vi) in
  Some (v_edge T o q u w (ball_p up) (ball_v up) (ball_r up)).

(* The loop of sol_test_side over the sides of the lump: [true] when it
   leaves through [return LARGE].  The side under test is fp->sv + si;
   two side pointers differ when their indices do. *)
Fixpoint sol_test_side_loop (k : nat) (i : Z) (T : vec) (t : F)
    (fp : s_file) (lp : s_lump) (si : Z) (o w : vec) : option bool :=
  match k with
  | O => Some false
  | S k =>
      sj ← at_ (iv fp) (lump_s0 lp + i);
      if negb (si =? sj) then
        sq ← at_ (sv fp) sj;
        if (v_dot T (side_n sq) - v_dot o (side_n sq)
            - v_dot w (side_n sq) * t >? side_d sq)%fl
        then Some true
        else sol_test_side_loop k (i + 1) T t fp lp si o w
      else sol_test_side_loop k (i + 1) T t fp lp si o w
  end.

Definition sol_test_side (dt : F) (T : vec) (up : s_ball) (fp : s_file)
    (lp : s_lump) (si : Z) (o w : vec) : option (F * vec) :=
  sp ← at_ (sv fp) si;
  let '(t, T) := v_side T o w (side_n sp) (side_d sp)
                        (ball_p up) (ball_v up) (ball_r up) in
  if (t <? dt)%fl then
    out ← sol_test_side_loop (Z.to_nat (lump_sc lp)) 0 T t fp lp si o w;
    Some (if out : bool then LARGE else t, T)
  else Some (t, T).

(** ** Plane-side classification *)

Definition sol_test_fore (dt : F) (up : s_ball) (sp : s_side) (o w : vec)
  : bool :=
  let q := v_sub (ball_p up) o in
  if (v_dot q (side_n sp) - side_d sp + ball_r up >=? lit 0)%fl then true
  else
    let q := v_mad q (ball_v up) dt in
    if (v_dot q (side_n sp) - side_d sp + ball_r up >=? lit 0)%fl then true
    else false.

Definition sol_test_back (dt : F) (up : s_ball) (sp : s_side) (o w : vec)
  : bool :=
  let q := v_sub (ball_p up) o in
  if (v_dot q (side_n sp) - side_d sp - ball_r up <=? lit 0)%fl then true
  else
    let q := v_mad q (ball_v up) dt in
    if (v_dot q (side_n sp) - side_d sp - ball_r up <=? lit 0)%fl then true
    else false.

(** ** Lump, node, body and file *)

(* if ((u = test) < t) { v_cpy(T, U); t = u; } *)
Definition keep_min (r : F * vec) (s : F * vec * vec) : F * vec * vec :=
  let '(u, U) := r in
  let '(t, T, _) := s in
  if (u <? t)%fl then (u, U, U) else (t, T, U).

Definition sol_test_lump (dt : F) (T : vec) (up : s_ball) (fp : s_file)
    (lp : s_lump) (o w : vec) : option (F * vec) :=
  let U := v_zero in
  let t := dt in
  if negb (Z.land (lump_fl lp) L_DETAIL =? 0) then Some (t, T)
  else
    s ← (if (ball_r up >? lit 0)%fl then
           for_upto (lump_vc lp) (fun i '(t, T, U) =>
             vi ← at_ (iv fp) (lump_v0 lp + i);
             vp ← at_ (vv fp) vi;
             Some (keep_min (sol_test_vert t U up vp o w) (t, T, U)))
             (t, T, U)
         else Some (t, T, U));
    s ← (if (ball_r up >? lit 0)%fl then
           for_upto (lump_ec lp) (fun i '(t, T, U) =>
             ei ← at_ (iv fp) (lump_e0 lp + i);
             ep ← at_ (ev fp) ei;
             r ← sol_test_edge t U up fp ep o w;
             Some (keep_min r (t, T, U)))
             s
         else Some s);
    '(t, T, _) ← for_upto (lump_sc lp) (fun i '(t, T, U) =>
             si ← at_ (iv fp) (lump_s0 lp + i);
             r ← sol_test_side t U up fp lp si o w;
             Some (keep_min r (t, T, U)))
             s;
    Some (t, T).

(* The local U of sol_test_node, sol_test_body and sol_test_file is not
   initialised in the source; the callees only write it, and the caller
   copies it after a callee has written it. *)
Fixpoint sol_test_node (fuel : nat) (dt : F) (T : vec) (up : s_ball)
    (fp : s_file) (np : s_node) (o w : vec) : option (F * vec) :=
  match fuel with
  | O => None
  | S fuel =>
      s ← for_upto (node_lc np) (fun i '(t, T, U) =>
             lp ← at_ (lv fp) (node_l0 np + i);
             r ← sol_test_lump t U up fp lp o w;
             Some (keep_min r (t, T, U)))
             (dt, T, v_zero);
      s ← (let '(t, T, U) := s in
           if 0 <=? node_ni np then
             sp ← at_ (sv fp) (node_si np);
             if sol_test_fore t up sp o w then
               nq ← at_ (nv fp) (node_ni np);
               r ← sol_test_node fuel t U up fp nq o w;
               Some (keep_min r s)
             else Some s
           else Some s);
      '(t, T, _) ← (let '(t, T, U) := s in
           if 0 <=? node_nj np then
             sp ← at_ (sv fp) (node_si np);
             if sol_test_back t up sp o w then
               nq ← at_ (nv fp) (node_nj np);
               r ← sol_test_node fuel t U up fp nq o w;
               Some (keep_min r s)
             else Some s
           else Some s);
      Some (t, T)
  end.

(* The traversal the pruning is measured against: sol_test_node with the
   two plane-side tests taken out, so that every lump of the subtree is
   tested. *)
Fixpoint sol_test_node_all (fuel : nat) (dt : F) (T : vec) (up : s_ball)
    (fp : s_file) (np : s_node) (o w : vec) : option (F * vec) :=
  match fuel with
  | O => None
  | S fuel =>
      s ← for_upto (node_lc np) (fun i '(t, T, U) =>
             lp ← at_ (lv fp) (node_l0 np + i);
             r ← sol_test_lump t U up fp lp o w;
             Some (keep_min r (t, T, U)))
             (dt, T, v_zero);
      s ← (let '(t, T, U) := s in
           if 0 <=? node_ni np then
             nq ← at_ (nv fp) (node_ni np);
             r ← sol_test_node_all fuel t U up fp nq o w;
             Some (keep_min r s)
           else Some s);
      '(t, T, _) ← (let '(t, T, U) := s in
           if 0 <=? node_nj np then
             nq ← at_ (nv fp) (node_nj np);
             r ← sol_test_node_all fuel t U up fp nq o w;
             Some (keep_min r s)
           else Some s);
      Some (t, T)
  end.

Definition sol_test_body (fuel : nat) (dt : F) (T V : vec) (up : s_ball)
    (fp : s_file) (bp : s_body) : option (F * vec * vec) :=
  let t := dt in
  np ← at_ (nv fp) (body_ni bp);
  O ← sol_body_p fp bp;
  W ← sol_body_v fp bp;
  '(u, U) ← sol_test_node fuel t v_zero up fp np O W;
  Some (if (u <? t)%fl then (u, U, W) else (t, T, V)).

Fixpoint sol_test_file_loop (fuel : nat) (bs : list s_body) (t : F)
    (T V : vec) (up : s_ball) (fp : s_file) : option (F * vec * vec) :=
  match bs with
  | [] => Some (t, T, V)
  | bp :: bs =>
      '(u, U, W) ← sol_test_body fuel t v_zero v_zero up fp bp;
      if (u <? t)%fl
      then sol_test_file_loop fuel bs u U W up fp
      else sol_test_file_loop fuel bs t T V up fp
  end.

Definition sol_test_file (fuel : nat) (dt : F) (T V : vec) (up : s_ball)
    (fp : s_file) : option (F * vec * vec) :=
  sol_test_file_loop fuel (bv fp) dt T V up fp.

(** ** The step *)

(* fp->uv[ui] = up *)
Definition uv_set (fp : s_file) (ui : Z) (up : s_ball) : option s_file :=
  _ ← at_ (uv fp) ui;
  Some (file_set_uv fp (<[Z.to_nat ui := up]> (uv fp))).

(* The part of sol_step before the loop: the ball's velocity is saved in a
   and v and replaced by g for the contact test, then "If the ball is in
   contact with a surface, apply friction".  [P] and [V] stand for the
   indeterminate initial contents of the locals P and V, which this test
   can read before anything wrote them (when dt itself is below 0.0005).
   [m] is [None] for a null pointer and [Some] of the pointed counter
   otherwise.  The result is the level, the counter, P, V and a. *)
Definition sol_step_friction (fuel : nat) (P V : vec) (fp : s_file)
    (g : vec) (dt : F) (ui : Z) (m : option Z)
  : option (s_file * option Z * vec * vec * vec) :=
  let tt := dt in
  up ← at_ (uv fp) ui;
  let a := ball_v up in
  let v := ball_v up in
  let up := ball_set_v up g in
  fp ← uv_set fp ui up;
  match m with
  | Some mv =>
      '(t, P, V) ← sol_test_file fuel tt P V up fp;
      if (t <? lit (5 # 10000))%fl then
        let up := ball_set_v up v in
        let r := v_sub P (ball_p up) in
        let d := (v_dot r g / (v_len r * v_len g))%fl in
        if (d >? lit (999 # 1000))%fl then
          let e := (v_len (ball_v up) - dt)%fl in
          if (e >? lit 0)%fl then
            let up := ball_set_v up (v_nrm (ball_v up)) in
            let up := ball_set_v up (v_scl (ball_v up) e) in
            let v := v_sub V (ball_v up) in
            let up := ball_set_w up (v_crs v r) in
            let up := ball_set_w up
                        (v_scl (ball_w up)
                               (- lit 1 / (ball_r up * ball_r up))%fl) in
            fp ← uv_set fp ui up; Some (fp, Some mv, P, V, a)
          else
            fp ← uv_set fp ui (ball_set_v up v_zero);
            Some (fp, Some (mv + 1), P, V, a)
        else
          fp ← uv_set fp ui (ball_set_v up (v_mad v g tt));
          Some (fp, Some mv, P, V, a)
      else
        fp ← uv_set fp ui (ball_set_v up (v_mad v g tt));
        Some (fp, Some mv, P, V, a)
  | None =>
      fp ← uv_set fp ui (ball_set_v up (v_mad v g tt));
      Some (fp, None, P, V, a)
  end.

(* The state of the loop "Test for collision": the counter c, the level,
   the remaining time tt and the largest energy b. *)
Record loop_state := {
  ls_c : nat; ls_fp : s_file; ls_tt : F; ls_b : F }.

(* One pass through the body of the loop: the level is advanced to the
   contact found at time nt and the ball bounces; [c] is the counter after
   the pass. *)
Definition sol_step_bounce (fuel : nat) (ui : Z) (c : nat) (fp : s_file)
    (tt b nt : F) (P V : vec) : option loop_state :=
  fp ← sol_body_step fp nt;
  fp ← sol_swch_step fuel fp nt;
  let fp := sol_ball_step fp nt in
  let tt := (tt - nt)%fl in
  up ← at_ (uv fp) ui;
  let '(d, up) := sol_bounce up P V nt in
  fp ← uv_set fp ui up;
  let b := if (b <? d)%fl then d else b in
  Some {| ls_c := c; ls_fp := fp; ls_tt := tt; ls_b := b |}.

(* while (c > 0 && tt > 0 && tt > (nt = sol_test_file(tt, P, V, up, fp))) *)
Fixpoint sol_step_loop (fuel : nat) (ui : Z) (c : nat) (fp : s_file)
    (tt b : F) (P V : vec) : option loop_state :=
  let exit := Some {| ls_c := c; ls_fp := fp; ls_tt := tt; ls_b := b |} in
  match c with
  | O => exit
  | S c' =>
      if (tt >? lit 0)%fl then
        up ← at_ (uv fp) ui;
        '(nt, P, V) ← sol_test_file fuel tt P V up fp;
        if (tt >? nt)%fl then
          s ← sol_step_bounce fuel ui c' fp tt b nt P V;
          sol_step_loop fuel ui c' (ls_fp s) (ls_tt s) (ls_b s) P V
        else exit
      else exit
  end.

(* What sol_step does once the loop is left: the remaining time is
   advanced and the pendulum follows the ball's acceleration. *)
Definition sol_step_rest (fuel : nat) (fp : s_file) (g : vec) (dt tt : F)
    (ui : Z) (a : vec) : option s_file :=
  fp ← sol_body_step fp tt;
  fp ← sol_swch_step fuel fp tt;
  let fp := sol_ball_step fp tt in
  up ← at_ (uv fp) ui;
  let a := v_sub (ball_v up) a in
  uv_set fp ui (sol_pendulum up a g dt).

(* The result is the returned energy, the level and the counter behind
   m. *)
Definition sol_step (fuel : nat) (P V : vec) (fp : s_file) (g : vec)
    (dt : F) (ui : Z) (m : option Z) : option (F * s_file * option Z) :=
  let b := lit 0 in
  let tt := dt in
  let c := 16%nat in
  if ui <? Z.of_nat (length (uv fp)) then
    '(fp, m, P, V, a) ← sol_step_friction fuel P V fp g dt ui m;
    s ← sol_step_loop fuel ui c fp tt b P V;
    fp ← sol_step_rest fuel (ls_fp s) g dt (ls_tt s) ui a;
    Some (ls_b s, fp, m)
  else Some (b, fp, m).

(* How often the body of the loop ran during the call: c counts down from
   16, once per pass. *)
Definition sol_step_contacts (fuel : nat) (P V : vec) (fp : s_file)
    (g : vec) (dt : F) (ui : Z) (m : option Z) : option nat :=
  if ui <? Z.of_nat (length (uv fp)) then
    '(fp, m, P, V, a) ← sol_step_friction fuel P V fp g dt ui m;
    s ← sol_step_loop fuel ui 16 fp dt (lit 0) P V;
    Some (16 - ls_c s)%nat
  else Some 0%nat.

(** ** Sensors *)

Fixpoint sol_item_test_loop (hs : list s_item) (hi : Z) (ball_p : vec)
    (ball_r item_r : F) : option (Z * vec) :=
  match hs with
  | [] => None
  | hp :: hs =>
      let r := v_sub ball_p (item_p hp) in
      if negb (item_t hp =? ITEM_NONE) && (v_len r <? ball_r + item_r)%fl
      then Some (hi, item_p hp)
      else sol_item_test_loop hs (hi + 1) ball_p ball_r item_r
  end.

(* The index of the returned item ([None] for NULL) and the contents of
   the out-parameter p. *)
Definition sol_item_test (fp : s_file) (p : vec) (item_r : F)
  : option (option Z * vec) :=
  up ← at_ (uv fp) 0;
  match sol_item_test_loop (hv fp) 0 (ball_p up) (ball_r up) item_r with
  | Some (hi, q) => Some (Some hi, q)
  | None => Some (None, p)
  end.

(* The body of the loop of sol_swch_test, for the switch xp. *)
Definition swch_test1 (fuel : nat) (ball_p : vec) (ball_r : F)
    (xp : s_swch) (pv : list s_path) (res : Z)
  : option (s_swch * list s_path * Z) :=
  if (swch_t0 xp =? lit 0)%fl || (swch_f xp =? swch_f0 xp) then
    let r := V3 (vx ball_p - vx (swch_p xp))%fl
                (vz ball_p - vz (swch_p xp))%fl (lit 0) in
    let l := (v_len r - swch_r xp)%fl in
    if (l <? ball_r)%fl && (vy ball_p >? vy (swch_p xp))%fl &&
       (vy ball_p <? vy (swch_p xp) + SWCH_HEIGHT / lit 2)%fl
    then
      if (swch_e xp =? 0) && (l <? - ball_r)%fl then
        let pi := swch_pi xp in
        let xp := if (swch_t0 xp =? lit 0)%fl then swch_set_e xp 1 else xp in
        let xp := swch_set_f xp (if negb (swch_f xp =? 0) then 0 else 1) in
        pv ← cycle_traverser fuel pv (swch_f xp) pi pi;
        let xp := if negb (swch_f xp =? swch_f0 xp)
                  then swch_set_t xp (swch_t0 xp) else xp in
        Some (xp, pv, if swch_i xp =? 0 then 1 else res)
      else Some (xp, pv, res)
    else if negb (swch_e xp =? 0) then Some (swch_set_e xp 0, pv, res)
    else Some (xp, pv, res)
  else Some (xp, pv, res).

Fixpoint swch_test_loop (fuel : nat) (ball_p : vec) (ball_r : F)
    (xs : list s_swch) (pv : list s_path) (res : Z)
  : option (list s_swch * list s_path * Z) :=
  match xs with
  | [] => Some ([], pv, res)
  | xp :: xs =>
      '(xp, pv, res) ← swch_test1 fuel ball_p ball_r xp pv res;
      '(xs, pv, res) ← swch_test_loop fuel ball_p ball_r xs pv res;
      Some (xp :: xs, pv, res)
  end.

Definition sol_swch_test (fuel : nat) (fp : s_file) (ui : Z)
  : option (Z * s_file) :=
  up ← at_ (uv fp) ui;
  '(xs, ps, res) ← swch_test_loop fuel (ball_p up) (ball_r up)
                                  (xv fp) (pv fp) 0;
  Some (res, file_set_xv_pv fp xs ps).

(** ** Vocabulary of the properties *)

(* The position sol_body_p interpolates on the segment from pp to pq. *)
Definition segment_point (pp pq : s_path) (t : F) : vec :=
  let x := (t / path_t pp)%fl in
  v_mad (path_p pp) (v_sub (path_p pq) (path_p pp))
        (if negb (path_s pp =? 0) then erp x else x).

(* The test sol_item_test applies to each item in turn. *)
Definition item_in_reach (ball_p : vec) (ball_r item_r : F) (hp : s_item)
  : bool :=
  negb (item_t hp =? ITEM_NONE) &&
  (v_len (v_sub ball_p (item_p hp)) <? ball_r + item_r)%fl.

(* The contact point T, found at time t, lies outside the side sq of a
   body at o moving with w. *)
Definition outside_side (T o w : vec) (t : F) (sq : s_side) : bool :=
  (v_dot T (side_n sq) - v_dot o (side_n sq) - v_dot w (side_n sq) * t
   >? side_d sq)%fl.

(* The side indices of the lump can be read. *)
Definition lump_sides_ok (fp : s_file) (lp : s_lump) : Prop :=
  forall i, 0 <= i < lump_sc lp ->
    exists sj, at_ (iv fp) (lump_s0 lp + i) = Some sj /\
               is_Some (at_ (sv fp) sj).

(* fp->pv[i].pi *)
Definition succ (pv : list s_path) (i : Z) : option Z :=
  path_pi <$> at_ pv i.

(* The path point i carries the flag f. *)
Definition flagged (pv : list s_path) (f i : Z) : Prop :=
  path_f <$> at_ pv i = Some f.

(* [cyc] lists, in order, the indices of a cycle of path points: the
   successor of each is the next in the list, and the successor of the
   last is the first. *)
Definition path_cycle (pv : list s_path) (cyc : list Z) : Prop :=
  NoDup cyc /\
  forall (k : nat) i, cyc !! k = Some i ->
    exists j, succ pv i = Some j /\
              cyc !! ((k + 1) mod length cyc)%nat = Some j.

(* The array after fp->pv[i].f = f. *)
Definition set_flag (pv : list s_path) (i f : Z) : list s_path :=
  alter (fun pp => path_set_f pp f) (Z.to_nat i) pv.

Definition in_range {A} (a : list A) (i : Z) : bool :=
  (0 <=? i) && (i <? Z.of_nat (length a)).

Definition all_upto (n : Z) (P : Z -> bool) : bool := forallb P (seqZ 0 n).

(* Every index the lump holds can be followed. *)
Definition wf_lump (fp : s_file) (lp : s_lump) : bool :=
  all_upto (lump_vc lp) (fun i =>
    match at_ (iv fp) (lump_v0 lp + i) with
    | Some j => in_range (vv fp) j
    | None => false
    end) &&
  all_upto (lump_ec lp) (fun i =>
    match at_ (iv fp) (lump_e0 lp + i) with
    | Some j =>
        match at_ (ev fp) j with
        | Some ep => in_range (vv fp) (edge_vi ep) &&
                     in_range (vv fp) (edge_vj ep)
        | None => false
        end
    | None => false
    end) &&
  all_upto (lump_sc lp) (fun i =>
    match at_ (iv fp) (lump_s0 lp + i) with
    | Some j => in_range (sv fp) j
    | None => false
    end).

(* The nodes below np form a tree of depth at most [depth], with lumps
   and splitting sides that can be read. *)
Fixpoint wf_node (depth : nat) (fp : s_file) (np : s_node) : bool :=
  match depth with
  | O => false
  | S depth =>
      let child ni :=
        if 0 <=? ni then
          in_range (sv fp) (node_si np) &&
          match at_ (nv fp) ni with
          | Some nq => wf_node depth fp nq
          | None => false
          end
        else true in
      all_upto (node_lc np) (fun i =>
        match at_ (lv fp) (node_l0 np + i) with
        | Some lp => wf_lump fp lp
        | None => false
        end) &&
      child (node_ni np) && child (node_nj np)
  end.

Definition wf_body (depth : nat) (fp : s_file) (bp : s_body) : bool :=
  match at_ (nv fp) (body_ni bp) with
  | Some np => wf_node depth fp np
  | None => false
  end &&
  ((body_pi bp <? 0) || in_range (pv fp) (body_pi bp)).

(* The path points met from i until the walk is back at x, [n] at most. *)
Fixpoint orbit (n : nat) (pv : list s_path) (x i : Z) : list Z :=
  match n with
  | O => []
  | S n =>
      i :: match succ pv i with
           | Some j => if j =? x then [] else orbit n pv x j
           | None => []
           end
  end.

Definition path_cycleb (pv : list s_path) (cyc : list Z) : bool :=
  bool_decide (NoDup cyc) &&
  forallb (fun k : nat =>
    match cyc !! k with
    | Some i =>
        match succ pv i, cyc !! ((k + 1) mod length cyc)%nat with
        | Some j, Some j' => j =? j'
        | _, _ => false
        end
    | None => true
    end) (seq 0 (length cyc)).

(* The switch drives a cycle of at most [n] path points. *)
Definition wf_swch (n : nat) (fp : s_file) (xp : s_swch) : bool :=
  let cyc := orbit n (pv fp) (swch_pi xp) (swch_pi xp) in
  path_cycleb (pv fp) cyc && bool_decide (head cyc = Some (swch_pi xp)).

(* A level on which sol_step, given [fuel], reads no array out of bounds
   and runs out of no fuel: the node trees are trees of depth at most
   [fuel], path indices stay in the path array, and every switch drives a
   path cycle of at most [fuel] points. *)
Definition wf_file (fuel : nat) (fp : s_file) : bool :=
  forallb (wf_body fuel fp) (bv fp) &&
  forallb (fun pp => in_range (pv fp) (path_pi pp)) (pv fp) &&
  forallb (wf_swch fuel fp) (xv fp).

(* What [wf_file] says, in the form the proofs use: the node tree of every
   body is well formed, a body is on no path or on a point of the path
   array, successors stay in the path array, and every switch drives a
   cycle of at most [fuel] path points. *)
Record WF (fuel : nat) (fp : s_file) : Prop := {
  WF_body : forall bp, bp ∈ bv fp ->
    exists np, at_ (nv fp) (body_ni bp) = Some np /\
               wf_node fuel fp np = true;
  WF_body_pi : forall bp, bp ∈ bv fp ->
    body_pi bp < 0 \/ is_Some (at_ (pv fp) (body_pi bp));
  WF_succ : forall i j, succ (pv fp) i = Some j -> is_Some (at_ (pv fp) j);
  WF_swch : forall xp, xp ∈ xv fp ->
    exists cyc, path_cycle (pv fp) cyc /\ head cyc = Some (swch_pi xp) /\
                (length cyc <= fuel)%nat }.

(* What sol_step never changes, and how far a body may move on. *)
Record same_frame (fp fp' : s_file) : Prop := {
  sf_vv : vv fp' = vv fp;
  sf_ev : ev fp' = ev fp;
  sf_sv : sv fp' = sv fp;
  sf_lv : lv fp' = lv fp;
  sf_nv : nv fp' = nv fp;
  sf_iv : iv fp' = iv fp;
  sf_pv : path_pi <$> pv fp' = path_pi <$> pv fp;
  sf_xv : swch_pi <$> xv fp' = swch_pi <$> xv fp;
  sf_uv : length (uv fp') = length (uv fp);
  sf_bv : Forall2 (fun bp bp' =>
            body_ni bp' = body_ni bp /\
            (body_pi bp' = body_pi bp \/
             succ (pv fp) (body_pi bp) = Some (body_pi bp')))
          (bv fp) (bv fp') }.

(* The level is well formed and holds the ball ui. *)
Definition steppable (fuel : nat) (ui : Z) (fp : s_file) : Prop :=
  WF fuel fp /\ is_Some (at_ (uv fp) ui).

(* [bounces n s P V s']: n passes through the body of the loop lead from
   the loop state s, with P and V as left by the last test, to s'.  Each
   pass is a contact found before the remaining time is over, with the
   counter still positive, and resolved by sol_step_bounce. *)
Inductive bounces (fuel : nat) (ui : Z)
  : nat -> loop_state -> vec -> vec -> loop_state -> Prop :=
| bounces_O s P V : bounces fuel ui 0 s P V s
| bounces_S n s P V c' up nt P' V' s1 s2 :
    ls_c s = S c' ->
    (ls_tt s >? lit 0)%fl = true ->
    at_ (uv (ls_fp s)) ui = Some up ->
    sol_test_file fuel (ls_tt s) P V up (ls_fp s) = Some (nt, P', V') ->
    (ls_tt s >? nt)%fl = true ->
    sol_step_bounce fuel ui c' (ls_fp s) (ls_tt s) (ls_b s) nt P' V'
      = Some s1 ->
    bounces fuel ui n s1 P' V' s2 ->
    bounces fuel ui (S n) s P V s2.

(* The body's local time lies in [0, D), D the duration of the segment
   that starts at its current path point. *)
Definition in_segment (pv : list s_path) (bp : s_body) : Prop :=
  exists pp, at_ pv (body_pi bp) = Some pp /\
    (lit 0 <=? body_t bp)%fl = true /\ (body_t bp <? path_t pp)%fl = true.

(* What the step does to one body whose current path point is pp. *)
Definition body_stepped (dt : F) (pp : s_path) (bp bp' : s_body) : Prop :=
  body_ni bp' = body_ni bp /\
  if negb (path_f pp =? 0) then
    if (body_t bp + dt >=? path_t pp)%fl
    then body_t bp' = lit 0 /\ body_pi bp' = path_pi pp
    else body_t bp' = (body_t bp + dt)%fl /\ body_pi bp' = body_pi bp
  else bp' = bp.

(** ** Goals and teleports

    The goals (zc, zv) and the teleports (jc, jv) of [struct s_file] are
    read by the two tests below and by nothing else in [solid_phys.c]; they
    are kept beside the level record, [zs] for fp->zv and [js] for
    fp->jv. *)

Record s_goal := { goal_p : vec; goal_r : F }.
Record s_jump := { jump_p : vec; jump_q : vec; jump_r : F }.

(** Constants of [geom.h], which is not under [src/]. *)
Class Heights := {
  GOAL_HEIGHT : F;
  JUMP_HEIGHT : F }.

Context `{Heights}.

Fixpoint sol_goal_test_loop (zs : list s_goal) (zi : Z) (ball_p : vec)
    (ball_r : F) : option (Z * vec) :=
  match zs with
  | [] => None
  | zp :: zs =>
      let r := V3 (vx ball_p - vx (goal_p zp))%fl
                  (vz ball_p - vz (goal_p zp))%fl (lit 0) in
      if (v_len r <? goal_r zp - ball_r)%fl &&
         (vy ball_p >? vy (goal_p zp))%fl &&
         (vy ball_p <? vy (goal_p zp) + GOAL_HEIGHT / lit 2)%fl
      then Some (zi, goal_p zp)
      else sol_goal_test_loop zs (zi + 1) ball_p ball_r
  end.

(* The index of the returned goal ([None] for NULL) and the contents of
   the out-parameter p. *)
Definition sol_goal_test (fp : s_file) (zs : list s_goal) (p : vec) (ui : Z)
  : option (option Z * vec) :=
  up ← at_ (uv fp) ui;
  match sol_goal_test_loop zs 0 (ball_p up) (ball_r up) with
  | Some (zi, q) => Some (Some zi, q)
  | None => Some (None, p)
  end.

(* The loop of sol_jump_test from the teleport at the head of [js] on, with
   the current value of res; the result is the returned int and p. *)
Fixpoint sol_jump_test_loop (js : list s_jump) (ball_p : vec) (ball_r : F)
    (p : vec) (res : Z) : Z * vec :=
  match js with
  | [] => (res, p)
  | jp :: js =>
      let r := V3 (vx ball_p - vx (jump_p jp))%fl
                  (vz ball_p - vz (jump_p jp))%fl (lit 0) in
      let l := (v_len r - jump_r jp)%fl in
      if (l <? lit 0)%fl &&
         (vy ball_p >? vy (jump_p jp))%fl &&
         (vy ball_p <? vy (jump_p jp) + JUMP_HEIGHT / lit 2)%fl
      then
        if (l <? - ball_r)%fl then
          (1, V3 (vx (jump_q jp) + (vx ball_p - vx (jump_p jp)))%fl
                 (vy (jump_q jp) + (vy ball_p - vy (jump_p jp)))%fl
                 (vz (jump_q jp) + (vz ball_p - vz (jump_p jp)))%fl)
        else sol_jump_test_loop js ball_p ball_r p 2
      else sol_jump_test_loop js ball_p ball_r p res
  end.

Definition sol_jump_test (fp : s_file) (js : list s_jump) (p : vec) (ui : Z)
  : option (Z * vec) :=
  up ← at_ (uv fp) ui;
  Some (sol_jump_test_loop js (ball_p up) (ball_r up) p 0).

(** ** More vocabulary *)

(* The test sol_goal_test applies to each goal in turn. *)
Definition goal_reached (ball_p : vec) (ball_r : F) (zp : s_goal) : bool :=
  (v_len (V3 (vx ball_p - vx (goal_p zp))%fl
             (vz ball_p - vz (goal_p zp))%fl (lit 0))
   <? goal_r zp - ball_r)%fl &&
  (vy ball_p >? vy (goal_p zp))%fl &&
  (vy ball_p <? vy (goal_p zp) + GOAL_HEIGHT / lit 2)%fl.

(* l of sol_jump_test: the distance of the ball's centre from the rim of
   the teleport, in the plane. *)
Definition jump_l (ball_p : vec) (jp : s_jump) : F :=
  (v_len (V3 (vx ball_p - vx (jump_p jp))%fl
             (vz ball_p - vz (jump_p jp))%fl (lit 0)) - jump_r jp)%fl.

(* The ball's centre is over the teleport. *)
Definition jump_over (ball_p : vec) (jp : s_jump) : bool :=
  (jump_l ball_p jp <? lit 0)%fl &&
  (vy ball_p >? vy (jump_p jp))%fl &&
  (vy ball_p <? vy (jump_p jp) + JUMP_HEIGHT / lit 2)%fl.

(* The whole ball is. *)
Definition jump_inside (ball_p : vec) (ball_r : F) (jp : s_jump) : bool :=
  jump_over ball_p jp && (jump_l ball_p jp <? - ball_r)%fl.

(* Where the teleport sends the ball. *)
Definition jump_target (ball_p : vec) (jp : s_jump) : vec :=
  V3 (vx (jump_q jp) + (vx ball_p - vx (jump_p jp)))%fl
     (vy (jump_q jp) + (vy ball_p - vy (jump_p jp)))%fl
     (vz (jump_q jp) + (vz ball_p - vz (jump_p jp)))%fl.

(* The fields of a path point, a switch and a ball that are set when the
   level is loaded. *)
Definition path_static (pp : s_path) : vec * F * Z * Z :=
  (path_p pp, path_t pp, path_pi pp, path_s pp).

Definition swch_static (xp : s_swch) : vec * F * Z * F * Z * Z :=
  (swch_p xp, swch_r xp, swch_pi xp, swch_t0 xp, swch_f0 xp, swch_i xp).

(* The level fp' differs from fp in nothing but the flags of path points,
   the timers, states and entered marks of switches, the times and path
   points of bodies, and the motion of balls. *)
Record same_static (fp fp' : s_file) : Prop := {
  ss_vv : vv fp' = vv fp;
  ss_ev : ev fp' = ev fp;
  ss_sv : sv fp' = sv fp;
  ss_lv : lv fp' = lv fp;
  ss_nv : nv fp' = nv fp;
  ss_iv : iv fp' = iv fp;
  ss_hv : hv fp' = hv fp;
  ss_pv : path_static <$> pv fp' = path_static <$> pv fp;
  ss_xv : swch_static <$> xv fp' = swch_static <$> xv fp;
  ss_bv : body_ni <$> bv fp' = body_ni <$> bv fp;
  ss_uv : ball_r <$> uv fp' = ball_r <$> uv fp }.

(* What a step leaves alone in a ball it only moves. *)
Definition ball_motion (up : s_ball) : vec * vec * mat * vec * F :=
  (ball_v up, ball_w up, ball_E up, ball_W up, ball_r up).

(* Every ball but ui has in fp' the velocity, spin, pendulum and radius it
   has in fp. *)
Definition others_kept (ui : Z) (fp fp' : s_file) : Prop :=
  forall uj, uj <> ui ->
    ball_motion <$> at_ (uv fp') uj = ball_motion <$> at_ (uv fp) uj.

(* Every lump of the level is a detail lump. *)
Definition all_detail (fp : s_file) : Prop :=
  forall lp, lp ∈ lv fp -> Z.land (lump_fl lp) L_DETAIL <> 0.

(* The state a switch takes when the ball enters it. *)
Definition toggled (xp : s_swch) : Z := if negb (swch_f xp =? 0) then 0 else 1.

(* The conditions under which sol_swch_test takes the ball to enter the
   switch: the switch is not waiting for its timer, the whole ball is
   inside its cylinder, and it was not inside at the last test. *)
Definition swch_enters (ball_p : vec) (ball_r : F) (xp : s_swch) : bool :=
  let l := (v_len (V3 (vx ball_p - vx (swch_p xp))%fl
                      (vz ball_p - vz (swch_p xp))%fl (lit 0))
            - swch_r xp)%fl in
  ((swch_t0 xp =? lit 0)%fl || (swch_f xp =? swch_f0 xp)) &&
  ((l <? ball_r)%fl && (vy ball_p >? vy (swch_p xp))%fl &&
   (vy ball_p <? vy (swch_p xp) + SWCH_HEIGHT / lit 2)%fl) &&
  ((swch_e xp =? 0) && (l <? - ball_r)%fl).

(* The timer of the switch runs and is over after dt more. *)
Definition swch_expires (dt : F) (xp : s_swch) : bool :=
  (swch_t xp >? lit 0)%fl && (swch_t xp - dt <=? lit 0)%fl.

(* What a contact test with the time budget dt and the out-parameter T may
   return: the budget with T untouched, or a time before the budget. *)
Definition budget_or_before (dt : F) (T : vec) (r : F * vec) : Prop :=
  r = (dt, T) \/ (r.1 <? dt)%fl = true.



End Solid.

(** ** Exact rational arithmetic

    The instance on which the code is run.  Every result is reduced, so
    equal rationals are equal terms.  The square root is exact on the squares
    of rationals and rounds down elsewhere, sine and cosine are the first
    two terms of their series, and a division by zero gives 0.  The runs
    that refute a claim at the end of the file divide by no zero and take
    no root that is not exact; their values are dyadic, so that a 32-bit
    float computes them without rounding. *)
Module QModel.

Definition Qsqrt (q : Q) : Q :=
  Qred (Z.sqrt (Qnum q * Zpos (Qden q)) # Qden q).

#[export] Instance Q_scalar : Scalar := {|
  F := Q;
  lit := Qred;
  fadd a b := Qred (a + b);
  fsub a b := Qred (a - b);
  fmul a b := Qred (a * b);
  fdiv a b := Qred (a / b);
  fneg a := Qred (- a);
  fabsf a := Qred (Qabs a);
  fsqrtf := Qsqrt;
  fsinf a := Qred (a - a * a * a / 6);
  fcosf a := Qred (1 - a * a / 2);
  flt a b := negb (Qle_bool b a);
  fle := Qle_bool;
  feq := Qeq_bool |}.

(* solid.h: L_DETAIL 1, ITEM_NONE 0; geom.h: SWCH_HEIGHT 2.f *)
#[export] Instance Q_header : Header := {|
  L_DETAIL := 1;
  ITEM_NONE := 0;
  SWCH_HEIGHT := 2%Q |}.

Definition vq (x y z : Q) : vec := V3 x y z.

Definition idm : mat := M3 (vq 1 0 0) (vq 0 1 0) (vq 0 0 1).

Definition mk_ball (p v : vec) (r : Q) : s_ball :=
  {| ball_e := idm; ball_p := p; ball_v := v; ball_w := vq 0 0 0;
     ball_E := idm; ball_W := vq 0 0 0; ball_r := r |}.

Definition mk_path (p : vec) (t : Q) (pi f s : Z) : s_path :=
  {| path_p := p; path_t := t; path_pi := pi; path_f := f; path_s := s |}.

Definition mk_body (t : Q) (ni pi : Z) : s_body :=
  {| body_t := t; body_ni := ni; body_pi := pi |}.

Definition mk_side (n : vec) (d : Q) : s_side :=
  {| side_n := n; side_d := d |}.

Definition empty_file : s_file :=
  {| vv := []; ev := []; sv := []; lv := []; nv := []; pv := [];
     bv := []; hv := []; xv := []; uv := []; iv := [] |}.

(** A door on a two-point linear path whose points are disabled, one
    second into a four-second segment from (0,0,0) to (4,0,0). *)
Definition door_paths : list s_path :=
  [mk_path (vq 0 0 0) 4 1 0 0; mk_path (vq 4 0 0) 4 0 0 0].

Definition door_body : s_body := mk_body 1 0 0.

Definition door_file : s_file :=
  {| vv := []; ev := []; sv := []; lv := []; nv := []; pv := door_paths;
     bv := [door_body]; hv := []; xv := [];
     uv := [mk_ball (vq 0 1 0) (vq 0 0 0) (1 # 4)]; iv := [] |}.

(** Two coins near the ball of radius 1 at the origin: the first in
    storage order is the farther one. *)
Definition coin_file : s_file :=
  {| vv := []; ev := []; sv := []; lv := []; nv := []; pv := [];
     bv := [];
     hv := [ {| item_p := vq 1 0 0; item_t := 1 |};
             {| item_p := vq (1 # 2) 0 0; item_t := 1 |} ];
     xv := []; uv := [mk_ball (vq 0 0 0) (vq 0 0 0) 1]; iv := [] |}.

(** The same with the nearer coin first, but already collected
    (ITEM_NONE). *)
Definition spent_coin_file : s_file :=
  {| vv := []; ev := []; sv := []; lv := []; nv := []; pv := [];
     bv := [];
     hv := [ {| item_p := vq (1 # 2) 0 0; item_t := 0 |};
             {| item_p := vq 1 0 0; item_t := 1 |} ];
     xv := []; uv := [mk_ball (vq 0 0 0) (vq 0 0 0) 1]; iv := [] |}.

(** An axis-parallel box as the level compiler stores it: eight
    vertices, twelve edges, six sides (the inside is the negative side of
    each), and the index list of its lump. *)
Definition box_verts (x0 x1 y0 y1 z0 z1 : Q) : list s_vert :=
  [ {| vert_p := vq x0 y0 z0 |}; {| vert_p := vq x0 y0 z1 |};
    {| vert_p := vq x0 y1 z0 |}; {| vert_p := vq x0 y1 z1 |};
    {| vert_p := vq x1 y0 z0 |}; {| vert_p := vq x1 y0 z1 |};
    {| vert_p := vq x1 y1 z0 |}; {| vert_p := vq x1 y1 z1 |} ].

Definition box_edges : list s_edge :=
  [ {| edge_vi := 0; edge_vj := 1 |}; {| edge_vi := 2; edge_vj := 3 |};
    {| edge_vi := 4; edge_vj := 5 |}; {| edge_vi := 6; edge_vj := 7 |};
    {| edge_vi := 0; edge_vj := 2 |}; {| edge_vi := 1; edge_vj := 3 |};
    {| edge_vi := 4; edge_vj := 6 |}; {| edge_vi := 5; edge_vj := 7 |};
    {| edge_vi := 0; edge_vj := 4 |}; {| edge_vi := 1; edge_vj := 5 |};
    {| edge_vi := 2; edge_vj := 6 |}; {| edge_vi := 3; edge_vj := 7 |} ].

Definition box_sides (x0 x1 y0 y1 z0 z1 : Q) : list s_side :=
  [ mk_side (vq (-1) 0 0) (- x0); mk_side (vq 1 0 0) x1;
    mk_side (vq 0 (-1) 0) (- y0); mk_side (vq 0 1 0) y1;
    mk_side (vq 0 0 (-1)) (- z0); mk_side (vq 0 0 1) z1 ].

Definition box_iv : list Z :=
  [0; 1; 2; 3; 4; 5; 6; 7] ++ [0; 1; 2; 3; 4; 5; 6; 7; 8; 9; 10; 11] ++
  [0; 1; 2; 3; 4; 5].

Definition box_lump : s_lump :=
  {| lump_fl := 0; lump_v0 := 0; lump_vc := 8; lump_e0 := 8; lump_ec := 12;
     lump_s0 := 20; lump_sc := 6 |}.

Definition leaf (l0 lc : Z) : s_node :=
  {| node_si := 0; node_ni := -1; node_nj := -1;
     node_l0 := l0; node_lc := lc |}.

(** A floor: the box [-4,4] x [-1,0] x [-4,4] as the one lump of a
    static body, a ball of radius 1/4 resting in the air one unit above it,
    and a timed switch, a quarter of a second from expiry, that drives a
    cycle of two path points. *)
Definition mk_swch (p : vec) (r : Q) (pi : Z) (t0 t : Q) (f0 f : Z)
  : s_swch :=
  {| swch_p := p; swch_r := r; swch_pi := pi; swch_t0 := t0; swch_t := t;
     swch_f0 := f0; swch_f := f; swch_i := 0; swch_e := 0 |}.

Definition floor_switch : s_swch := mk_swch (vq 3 0 3) (1 # 2) 0 1 (1 # 4) 0 1.

Definition floor_file : s_file :=
  {| vv := box_verts (-4) 4 (-1) 0 (-4) 4; ev := box_edges;
     sv := box_sides (-4) 4 (-1) 0 (-4) 4;
     lv := [box_lump]; nv := [leaf 0 1];
     pv := [mk_path (vq 0 2 0) 4 1 1 0; mk_path (vq 4 2 0) 4 0 1 0];
     bv := [mk_body 0 0 (-1)]; hv := []; xv := [floor_switch];
     uv := [mk_ball (vq 0 1 0) (vq 0 0 0) (1 # 4)]; iv := box_iv |}.

(* A ball falling beside the floor, past its edge x = 4. *)
Definition stray_ball : s_ball := mk_ball (vq 5 1 0) (vq 0 (-1) 0) (1 # 4).

(** A lift: the box [1,2] x [-4,4] x [-4,4] is the one lump of a body
    that moves with velocity (-4,-1,-1) along a two-point path.  The root
    of the body's node tree splits along the plane x = 0 and has no lump of
    its own; the box lies in front of that plane, in the front child.
    The ball of radius 1/4 rests at (-1,0,0), behind the plane. *)
Definition lift_split : s_side := mk_side (vq 1 0 0) 0.

Definition lift_root : s_node :=
  {| node_si := 6; node_ni := 1; node_nj := -1;
     node_l0 := 0; node_lc := 0 |}.

Definition lift_ball : s_ball := mk_ball (vq (-1) 0 0) (vq 0 0 0) (1 # 4).

Definition lift_body : s_body := mk_body 0 0 0.

Definition lift_file : s_file :=
  {| vv := box_verts 1 2 (-4) 4 (-4) 4; ev := box_edges;
     sv := box_sides 1 2 (-4) 4 (-4) 4 ++ [lift_split];
     lv := [box_lump]; nv := [lift_root; leaf 0 1];
     pv := [mk_path (vq 0 0 0) 1 1 1 0; mk_path (vq (-4) (-1) (-1)) 1 0 1 0];
     bv := [lift_body]; hv := []; xv := [];
     uv := [lift_ball]; iv := box_iv |}.

(* geom.h: GOAL_HEIGHT 3.f, JUMP_HEIGHT 2.f *)
#[export] Instance Q_heights : Heights := {|
  GOAL_HEIGHT := 3%Q;
  JUMP_HEIGHT := 2%Q |}.

Definition mk_goal (p : vec) (r : Q) : s_goal :=
  {| goal_p := p; goal_r := r |}.

Definition mk_jump (p q : vec) (r : Q) : s_jump :=
  {| jump_p := p; jump_q := q; jump_r := r |}.

(** Three goals for the ball of the floor level, which rests at (0,1,0)
    with radius 1/4: the first is too far away, the ball is inside the
    second and the third. *)
Definition floor_goals : list s_goal :=
  [mk_goal (vq 4 0 0) 1; mk_goal (vq 0 (1 # 2) 0) 1; mk_goal (vq 0 0 0) 2].

(** Two teleports for the same ball: its centre is over the first one but
    the ball reaches across the rim, and the whole ball is inside the
    second one. *)
Definition floor_jumps : list s_jump :=
  [mk_jump (vq (1 # 2) (1 # 2) 0) (vq 9 9 9) (5 # 8);
   mk_jump (vq 0 (1 # 2) 0) (vq 8 0 8) 1].

(* The ball of the floor level, falling. *)
Definition falling_ball : s_ball := mk_ball (vq 0 1 0) (vq 0 (-1) 0) (1 # 4).

(** The floor level with its lump marked as detail. *)
Definition detail_lump : s_lump :=
  {| lump_fl := 1; lump_v0 := 0; lump_vc := 8; lump_e0 := 8; lump_ec := 12;
     lump_s0 := 20; lump_sc := 6 |}.

Definition detail_file : s_file :=
  {| vv := vv floor_file; ev := ev floor_file; sv := sv floor_file;
     lv := [detail_lump]; nv := nv floor_file; pv := pv floor_file;
     bv := bv floor_file; hv := []; xv := xv floor_file;
     uv := [falling_ball]; iv := iv floor_file |}.

(** The floor level with a switch without timer in its default state 0,
    and the ball inside the cylinder of the switch. *)
Definition toggle_switch : s_swch := mk_swch (vq 3 0 3) (1 # 2) 0 0 0 0 0.

Definition switch_ball : s_ball := mk_ball (vq 3 (1 # 2) 3) (vq 0 0 0) (1 # 4).

Definition switch_file : s_file :=
  {| vv := vv floor_file; ev := ev floor_file; sv := sv floor_file;
     lv := lv floor_file; nv := nv floor_file; pv := pv floor_file;
     bv := bv floor_file; hv := []; xv := [toggle_switch];
     uv := [switch_ball]; iv := iv floor_file |}.

(** The floor level with a second ball beside the floor. *)
Definition two_ball_file : s_file :=
  {| vv := vv floor_file; ev := ev floor_file; sv := sv floor_file;
     lv := lv floor_file; nv := nv floor_file; pv := pv floor_file;
     bv := bv floor_file; hv := []; xv := xv floor_file;
     uv := [mk_ball (vq 0 1 0) (vq 0 0 0) (1 # 4); stray_ball];
     iv := iv floor_file |}.

(* The level after half a second of the gravity (0,-8,0), stepped for
   ball 0. *)
Definition after_step (fp : s_file) : s_file :=
  match sol_step 2 (vq 0 0 0) (vq 0 0 0) fp (vq 0 (-8) 0) (lit (1 # 2)) 0
                 (Some 0) with
  | Some (_, fp', _) => fp'
  | None => fp
  end.

(* The level after the switch test for ball 0. *)
Definition after_swch_test (fp : s_file) : s_file :=
  match sol_swch_test 2 fp 0 with
  | Some (_, fp') => fp'
  | None => fp
  end.

(** The lift level with a second body that is on no path: the box of
    the lift serves as its lump. *)
Definition floor_lift_file : s_file :=
  {| vv := vv lift_file; ev := ev lift_file; sv := sv lift_file;
     lv := lv lift_file; nv := nv lift_file; pv := pv lift_file;
     bv := [mk_body 0 1 (-1); lift_body]; hv := []; xv := [];
     uv := uv lift_file; iv := iv lift_file |}.


End QModel.

(** * Properties *)

Section Properties.

Context `{Sc : Scalar} `{Hd : !Header}.

(* Runs the binds of the option monad and nothing else. *)
Tactic Notation "run_bind" := cbn [mbind option_bind].
Tactic Notation "run_bind" "in" hyp(H) := cbn [mbind option_bind] in H.

(** ** Reading arrays *)

Lemma at_Some {A} (a : list A) (i : Z) (x : A) :
  at_ a i = Some x <-> 0 <= i /\ a !! Z.to_nat i = Some x.
Proof.
  unfold at_. destruct (Z.ltb_spec i 0); split.
  - discriminate.
  - intros [? _]; lia.
  - auto.
  - tauto.
Qed.

Lemma at_is_Some {A} (a : list A) (i : Z) :
  is_Some (at_ a i) <-> 0 <= i < Z.of_nat (length a).
Proof.
  unfold at_. destruct (Z.ltb_spec i 0).
  - split; [intros [? ?]; discriminate | lia].
  - rewrite lookup_lt_is_Some. lia.
Qed.

Lemma at_of_nat {A} (a : list A) (i : nat) : at_ a (Z.of_nat i) = a !! i.
Proof.
  unfold at_. destruct (Z.ltb_spec (Z.of_nat i) 0); [lia|].
  by rewrite Nat2Z.id.
Qed.

(** ** The ball index is checked (C10) *)

(** C10: for a ball index [ui] that is not below the ball count,
    [sol_step] returns 0 and the level (and the stop counter) it was
    given: nothing is stepped. *)
Theorem sol_step_out_of_range fuel P V fp g dt ui m :
  Z.of_nat (length (uv fp)) <= ui ->
  sol_step fuel P V fp g dt ui m = Some (lit 0, fp, m).
Proof.
  intros Hui. unfold sol_step.
  destruct (Z.ltb_spec ui (Z.of_nat (length (uv fp)))); [lia | reflexivity].
Qed.

(** ** A disabled path point (C6) *)

(** C6 (amended): when the current path point of a body is disabled,
    [sol_body_v] is the zero vector, and [sol_body_p] is the point of the
    segment at the body's local time, exactly as for an enabled path point:
    the body is frozen where it stands. *)
Theorem sol_body_disabled fp bp pp pq :
  at_ (pv fp) (body_pi bp) = Some pp ->
  at_ (pv fp) (path_pi pp) = Some pq ->
  path_f pp = 0 ->
  sol_body_v fp bp = Some v_zero /\
  sol_body_p fp bp = Some (segment_point pp pq (body_t bp)).
Proof.
  intros Hpp Hpq Hf. pose proof (proj1 (at_Some _ _ _) Hpp) as [Hpi _].
  unfold sol_body_v, sol_body_p, segment_point.
  destruct (Z.leb_spec 0 (body_pi bp)); [|lia].
  rewrite Hpp. simpl. rewrite Hpq, Hf. simpl.
  split; [reflexivity|]. by destruct (path_s pp =? 0).
Qed.

(** ** The quadratic solver (C2) *)

Section Quadratic.

Variables (p v : vec) (r : F).

Let a := v_dot v v.
Let b := (v_dot v p * lit 2)%fl.
Let c := (v_dot p p - r * r)%fl.
Let d := (b * b - lit 4 * a * c)%fl.
Let t0 := (lit (1 # 2) * (- b - fsqrtf d) / a)%fl.
Let t1 := (lit (1 # 2) * (- b + fsqrtf d) / a)%fl.
Let tmin := if (t0 <? t1)%fl then t0 else t1.

Lemma v_sol_negative_disc : (d <? lit 0)%fl = true -> v_sol p v r = LARGE.
Proof. unfold v_sol. fold a b c d. by intros ->. Qed.

Lemma v_sol_positive_disc :
  (d <? lit 0)%fl = false -> (d >? lit 0)%fl = true ->
  v_sol p v r = if (tmin <? lit 0)%fl then LARGE else tmin.
Proof. unfold v_sol. fold a b c d. by intros -> ->. Qed.

Lemma v_sol_zero_disc :
  (d <? lit 0)%fl = false -> (d >? lit 0)%fl = false ->
  v_sol p v r = (- b * lit (1 # 2) / a)%fl.
Proof. unfold v_sol. fold a b c d. by intros -> ->. Qed.

Context `{!ScalarOrder}.

Lemma LARGE_not_negative : (LARGE <? lit 0)%fl = false.
Proof.
  destruct (LARGE <? lit 0)%fl eqn:E; [|reflexivity].
  apply flt_lit in E. discriminate E.
Qed.

(** The policy of [v_sol], case by case: a negative discriminant gives
    the sentinel; a positive one gives the smaller root [tmin] when it is
    not negative and the sentinel when it is; otherwise the tangent root
    [-b/2a] is returned, and its sign is not tested.  So [v_sol] returns a
    negative time in the tangent case only. *)
Theorem v_sol_policy :
  ((d <? lit 0)%fl = true -> v_sol p v r = LARGE) /\
  ((d <? lit 0)%fl = false -> (d >? lit 0)%fl = true ->
     v_sol p v r = (if (tmin <? lit 0)%fl then LARGE else tmin) /\
     (v_sol p v r <? lit 0)%fl = false) /\
  ((d <? lit 0)%fl = false -> (d >? lit 0)%fl = false ->
     v_sol p v r = (- b * lit (1 # 2) / a)%fl) /\
  ((v_sol p v r <? lit 0)%fl = true ->
     (d <? lit 0)%fl = false /\ (d >? lit 0)%fl = false /\
     v_sol p v r = (- b * lit (1 # 2) / a)%fl).
Proof.
  assert (Hpos : (d <? lit 0)%fl = false -> (d >? lit 0)%fl = true ->
     v_sol p v r = (if (tmin <? lit 0)%fl then LARGE else tmin) /\
     (v_sol p v r <? lit 0)%fl = false).
  { intros H1 H2. rewrite (v_sol_positive_disc H1 H2). split; [reflexivity|].
    destruct (tmin <? lit 0)%fl eqn:E; [apply LARGE_not_negative | exact E]. }
  split; [apply v_sol_negative_disc|].
  split; [exact Hpos|].
  split; [apply v_sol_zero_disc|].
  intros Hneg.
  destruct (d <? lit 0)%fl eqn:H1.
  - rewrite (v_sol_negative_disc H1), LARGE_not_negative in Hneg.
    discriminate.
  - destruct (d >? lit 0)%fl eqn:H2.
    + destruct (Hpos eq_refl eq_refl) as [_ Hnn]. congruence.
    + auto using v_sol_zero_disc.
Qed.

End Quadratic.

(** ** Item pickup (C8) *)

Lemma sol_item_test_loop_first hs hi0 bp br ir :
  match sol_item_test_loop hs hi0 bp br ir with
  | Some (hi, q) =>
      exists (k : nat) hp, hi = hi0 + Z.of_nat k /\ hs !! k = Some hp /\
        q = item_p hp /\ item_in_reach bp br ir hp = true /\
        forall (j : nat) hq, (j < k)%nat -> hs !! j = Some hq ->
          item_in_reach bp br ir hq = false
  | None => forall hp, hp ∈ hs -> item_in_reach bp br ir hp = false
  end.
Proof.
  revert hi0. induction hs as [|hp hs IH]; intros hi0; simpl.
  - intros hp Hin. inversion Hin.
  - fold (item_in_reach bp br ir hp).
    destruct (item_in_reach bp br ir hp) eqn:E.
    + exists 0%nat, hp. repeat split; auto; [lia | intros; lia].
    + specialize (IH (hi0 + 1)).
      destruct (sol_item_test_loop hs (hi0 + 1) bp br ir) as [[hi q]|].
      * destruct IH as (k & hq & -> & Hk & -> & Hr & Hbefore).
        exists (S k), hq. repeat split; auto; [lia|].
        intros [|j] hq' Hj Hq'; simpl in Hq'; [congruence|].
        eapply Hbefore; eauto. lia.
      * intros hq Hin. apply elem_of_cons in Hin as [->|Hin]; auto.
Qed.

(** C8 (amended): [sol_item_test] returns the first item in storage order
    that is not ITEM_NONE and lies closer to the centre of ball 0 than
    ball radius + item radius, whether or not a later item is nearer, and
    returns none (leaving p alone) when no item passes that test. *)
Theorem sol_item_test_first fp p item_r up :
  at_ (uv fp) 0 = Some up ->
  let reach := item_in_reach (ball_p up) (ball_r up) item_r in
  match sol_item_test fp p item_r with
  | Some (Some hi, q) =>
      exists hp, at_ (hv fp) hi = Some hp /\ q = item_p hp /\
        reach hp = true /\
        forall j hq, 0 <= j < hi -> at_ (hv fp) j = Some hq ->
          reach hq = false
  | Some (None, q) =>
      q = p /\ forall hp, hp ∈ hv fp -> reach hp = false
  | None => False
  end.
Proof.
  intros Hup reach. unfold sol_item_test. rewrite Hup. simpl.
  pose proof (sol_item_test_loop_first (hv fp) 0 (ball_p up) (ball_r up)
                item_r) as Hloop.
  destruct (sol_item_test_loop (hv fp) 0 (ball_p up) (ball_r up) item_r)
    as [[hi q]|].
  - destruct Hloop as (k & hp & -> & Hk & -> & Hr & Hbefore).
    exists hp. rewrite Z.add_0_l, at_of_nat. repeat split; auto.
    intros j hq Hj Hq. apply at_Some in Hq as [_ Hq].
    eapply Hbefore; eauto. lia.
  - auto.
Qed.

(** ** Convexity gating (C5) *)

Lemma sol_test_side_loop_total k i0 T t fp lp si o w :
  (forall i, i0 <= i < i0 + Z.of_nat k ->
     exists sj, at_ (iv fp) (lump_s0 lp + i) = Some sj /\
                is_Some (at_ (sv fp) sj)) ->
  is_Some (sol_test_side_loop k i0 T t fp lp si o w).
Proof.
  revert i0. induction k as [|k IH]; intros i0 Hok; simpl; [by eexists|].
  destruct (Hok i0) as (sj & -> & [sq Hsq]); [lia|]. simpl.
  assert (is_Some (sol_test_side_loop k (i0 + 1) T t fp lp si o w)).
  { apply IH. intros i Hi. apply Hok. lia. }
  destruct (si =? sj); simpl; [done|]. rewrite Hsq. simpl.
  by destruct (_ <? _)%fl.
Qed.

Lemma sol_test_side_loop_rejects k i0 T t fp lp si o w i sj sq :
  (forall i, i0 <= i < i0 + Z.of_nat k ->
     exists sj, at_ (iv fp) (lump_s0 lp + i) = Some sj /\
                is_Some (at_ (sv fp) sj)) ->
  i0 <= i < i0 + Z.of_nat k ->
  at_ (iv fp) (lump_s0 lp + i) = Some sj ->
  sj <> si ->
  at_ (sv fp) sj = Some sq ->
  outside_side T o w t sq = true ->
  sol_test_side_loop k i0 T t fp lp si o w = Some true.
Proof.
  intros Hok Hi Hsj Hne Hsq Hout. revert i0 Hok Hi.
  induction k as [|k IH]; intros i0 Hok Hi; simpl; [lia|].
  destruct (Z.eq_dec i i0) as [->|Hii].
  - rewrite Hsj. simpl. destruct (Z.eqb_spec si sj); [congruence|]. simpl.
    rewrite Hsq. simpl. unfold outside_side in Hout. by rewrite Hout.
  - assert (Hrec : sol_test_side_loop k (i0 + 1) T t fp lp si o w
                   = Some true).
    { apply IH; [|lia]. intros j Hj. apply Hok. lia. }
    destruct (Hok i0) as (sk & -> & [sr Hsr]); [lia|]. simpl.
    destruct (si =? sk); simpl; [done|]. rewrite Hsr. simpl.
    by destruct (_ <? _)%fl.
Qed.

(** C5: when [v_side] finds a contact with the side [si] of a lump at a
    time [t] below the budget [dt], and the contact point lies outside
    another side [sj] of that lump in the frame of the moving body, then
    [sol_test_side] returns the sentinel. *)
Theorem sol_test_side_rejects dt T up fp lp si o w sp t T' i sj sq :
  lump_sides_ok fp lp ->
  at_ (sv fp) si = Some sp ->
  v_side T o w (side_n sp) (side_d sp) (ball_p up) (ball_v up) (ball_r up)
    = (t, T') ->
  (t <? dt)%fl = true ->
  0 <= i < lump_sc lp ->
  at_ (iv fp) (lump_s0 lp + i) = Some sj ->
  sj <> si ->
  at_ (sv fp) sj = Some sq ->
  outside_side T' o w t sq = true ->
  sol_test_side dt T up fp lp si o w = Some (LARGE, T').
Proof.
  intros Hok Hsp Hside Hlt Hi Hsj Hne Hsq Hout.
  unfold sol_test_side. rewrite Hsp. simpl. rewrite Hside, Hlt.
  erewrite sol_test_side_loop_rejects; eauto.
  - intros j Hj. apply Hok. lia.
  - lia.
Qed.

(** ** The cycle traverser (C3) *)

Lemma succ_links pv pv' i :
  path_pi <$> pv' = path_pi <$> pv -> succ pv' i = succ pv i.
Proof.
  intros Heq. unfold succ, at_. destruct (i <? 0); [reflexivity|].
  by rewrite <- !list_lookup_fmap, Heq.
Qed.

Lemma pv_set_f_set_flag pv i f :
  is_Some (at_ pv i) -> pv_set_f pv i f = Some (set_flag pv i f).
Proof.
  intros [pp Hpp]. unfold pv_set_f, set_flag. rewrite Hpp. simpl. f_equal.
  apply at_Some in Hpp as [_ Hpp]. apply list_eq. intros j.
  rewrite list_lookup_insert, list_lookup_alter.
  destruct (decide (Z.to_nat i = j)) as [<-|]; simpl.
  - rewrite Hpp. simpl. apply lookup_lt_Some in Hpp.
    by rewrite decide_True.
  - by rewrite decide_False by (intros [? _]; done).
Qed.

Lemma set_flag_links pv i f :
  path_pi <$> set_flag pv i f = path_pi <$> pv.
Proof.
  apply list_eq. intros j. unfold set_flag.
  rewrite !list_lookup_fmap, list_lookup_alter.
  destruct (decide (Z.to_nat i = j)) as [<-|]; [|done].
  by destruct (pv !! Z.to_nat i).
Qed.

Lemma set_flag_flagged pv i f :
  is_Some (at_ pv i) -> flagged (set_flag pv i f) f i.
Proof.
  intros [pp Hpp]. apply at_Some in Hpp as [Hi Hpp].
  unfold flagged, set_flag, at_. destruct (Z.ltb_spec i 0); [lia|].
  by rewrite list_lookup_alter_eq, Hpp.
Qed.

Lemma set_flag_keeps pv i f j :
  flagged pv f j -> flagged (set_flag pv i f) f j.
Proof.
  unfold flagged, set_flag, at_. destruct (j <? 0); [done|].
  rewrite list_lookup_alter.
  destruct (decide (Z.to_nat i = Z.to_nat j)) as [->|]; [|done].
  by destruct (pv !! Z.to_nat j).
Qed.

Lemma succ_is_Some pv i j : succ pv i = Some j -> is_Some (at_ pv i).
Proof. unfold succ. destruct (at_ pv i); [by eexists | discriminate]. Qed.

Lemma succ_set_flag pv i f j : succ (set_flag pv i f) j = succ pv j.
Proof. apply succ_links, set_flag_links. Qed.

(* One turn of the loop. *)
Lemma cycle_traverser_turn fuel pv f pi pj pi' pj1 pj' :
  succ pv pi = Some pi' ->
  succ pv pj = Some pj1 ->
  succ pv pj1 = Some pj' ->
  cycle_traverser (S fuel) pv f pi pj =
    if negb (pi' =? pj')
    then cycle_traverser fuel (set_flag (set_flag pv pi f) pj f) f pi' pj'
    else Some (set_flag (set_flag pv pi f) pj f).
Proof.
  intros Hpi Hpj Hpj1. simpl.
  rewrite pv_set_f_set_flag by eauto using succ_is_Some. simpl.
  rewrite pv_set_f_set_flag
    by (eapply succ_is_Some; rewrite succ_set_flag; eauto).
  simpl.
  rewrite <- (succ_set_flag _ pi f), <- (succ_set_flag _ pj f)
    in Hpi, Hpj, Hpj1.
  unfold succ in Hpi, Hpj, Hpj1.
  destruct (at_ _ pi) as [pp2|]; [|discriminate]. simpl in *.
  destruct (at_ _ pj) as [pq2|]; [|discriminate]. simpl in *.
  simplify_eq. destruct (at_ _ (path_pi pq2)) as [pr|]; [|discriminate].
  simpl in *. by simplify_eq.
Qed.

Lemma double_mod_neq (k N : nat) :
  (0 < k < N)%nat -> ((2 * k) mod N)%nat <> k.
Proof.
  intros Hk Heq. pose proof (Nat.div_mod_eq (2 * k) N) as Hdm.
  rewrite Heq in Hdm. destruct (2 * k / N)%nat as [|q]; nia.
Qed.

Lemma mod_succ_succ (h N : nat) :
  (((h mod N + 1) mod N + 1) mod N = (h + 2) mod N)%nat.
Proof.
  rewrite Nat.Div0.add_mod_idemp_l.
  replace (h mod N + 1 + 1)%nat with (h mod N + 2)%nat by lia.
  by rewrite Nat.Div0.add_mod_idemp_l.
Qed.

(* The loop after k turns on a cycle of length k + m: the tortoise is at
   the k-th point, the hare at the (2k mod N)-th, and the tortoise has
   flagged what it left behind.  Exactly m more turns follow. *)
Lemma cycle_traverser_from pv0 f cyc :
  path_cycle pv0 cyc ->
  forall (m k : nat) pv pi pj,
    (0 < m)%nat -> (k + m = length cyc)%nat ->
    path_pi <$> pv = path_pi <$> pv0 ->
    cyc !! k = Some pi ->
    cyc !! ((2 * k) mod length cyc)%nat = Some pj ->
    (forall (j : nat) i, (j < k)%nat -> cyc !! j = Some i -> flagged pv f i) ->
    exists pv',
      (forall fuel, (m <= fuel)%nat ->
         cycle_traverser fuel pv f pi pj = Some pv') /\
      (forall fuel, (fuel < m)%nat ->
         cycle_traverser fuel pv f pi pj = None) /\
      path_pi <$> pv' = path_pi <$> pv0 /\
      (forall i, i ∈ cyc -> flagged pv' f i).
Proof.
  intros [Hnd Hcyc] m. set (N := length cyc) in *.
  induction m as [|m IH]; intros k pv pi pj Hm HN Hl Hpi Hpj Hdone; [lia|].
  assert (Hsucc : forall (a : nat) i, cyc !! a = Some i ->
            exists j, succ pv i = Some j /\
                      cyc !! ((a + 1) mod N)%nat = Some j).
  { intros a i Ha. destruct (Hcyc a i Ha) as (j & Hj & Hj').
    exists j. by rewrite (succ_links _ _ _ Hl). }
  destruct (Hsucc _ _ Hpi) as (pi' & Hspi & Hpi').
  destruct (Hsucc _ _ Hpj) as (pj1 & Hspj & Hpj1).
  destruct (Hsucc _ _ Hpj1) as (pj' & Hspj1 & Hpj').
  rewrite mod_succ_succ in Hpj'.
  pose proof (fun fuel => cycle_traverser_turn fuel pv f pi pj pi' pj1 pj'
                            Hspi Hspj Hspj1) as Hturn.
  set (pv2 := set_flag (set_flag pv pi f) pj f) in *.
  assert (Hl2 : path_pi <$> pv2 = path_pi <$> pv0).
  { unfold pv2. by rewrite !set_flag_links. }
  assert (Hdone2 : forall (j : nat) i, (j < S k)%nat -> cyc !! j = Some i ->
            flagged pv2 f i).
  { intros j i Hj Hi. unfold pv2. apply set_flag_keeps.
    destruct (decide (j = k)) as [->|].
    - simplify_eq. apply set_flag_flagged. eauto using succ_is_Some.
    - apply set_flag_keeps. eapply Hdone; eauto. lia. }
  destruct (decide (m = 0%nat)) as [->|Hm0].
  - (* the last turn: both cursors are back at the start *)
    assert (HkN : (k + 1 = N)%nat) by lia.
    rewrite HkN, Nat.Div0.mod_same in Hpi'.
    replace (2 * k + 2)%nat with (2 * N)%nat in Hpj' by lia.
    rewrite Nat.Div0.mod_mul in Hpj'.
    assert (pi' = pj') as <- by congruence.
    exists pv2. repeat split.
    + intros [|fuel] Hfuel; [lia|].
      by rewrite Hturn, Z.eqb_refl.
    + intros fuel Hfuel. assert (fuel = 0%nat) as -> by lia. done.
    + done.
    + intros i Hi. apply list_elem_of_lookup in Hi as [j Hj].
      pose proof (lookup_lt_Some _ _ _ Hj) as Hlt.
      eapply Hdone2; [|exact Hj]. unfold N in *. lia.
  - (* the cursors differ: another turn *)
    rewrite Nat.mod_small in Hpi' by lia.
    replace (2 * k + 2)%nat with (2 * (k + 1))%nat in Hpj' by lia.
    assert (Hne : pi' <> pj').
    { intros <-.
      pose proof (NoDup_lookup _ _ _ _ Hnd Hpi' Hpj') as Heq.
      symmetry in Heq. revert Heq. apply double_mod_neq. lia. }
    destruct (IH (k + 1)%nat pv2 pi' pj') as (pv' & Hrun & Hout & Hl' & Hall);
      try done; try lia.
    { intros j i Hj. apply Hdone2. lia. }
    exists pv'. repeat split; try done.
    + intros [|fuel] Hfuel; [lia|]. rewrite Hturn.
      destruct (Z.eqb_spec pi' pj'); [done|]. simpl. apply Hrun. lia.
    + intros [|fuel] Hfuel; [done|]. rewrite Hturn.
      destruct (Z.eqb_spec pi' pj'); [done|]. simpl. apply Hout. lia.
Qed.

(* The two places where the loop runs: the path array that leaves
   sol_swch_step on the expiry of a countdown, and sol_swch_test on the
   entry of the ball, is the one the traverser returns. *)
Lemma swch_step1_expiry fuel dt xp pv :
  (swch_t xp >? lit 0)%fl = true ->
  (swch_t xp - dt <=? lit 0)%fl = true ->
  snd <$> swch_step1 fuel dt xp pv =
  cycle_traverser fuel pv (swch_f0 xp) (swch_pi xp) (swch_pi xp).
Proof.
  intros Ht Hexp. unfold swch_step1. rewrite Ht.
  cbn [swch_t swch_set_t swch_f0 swch_pi]. rewrite Hexp.
  by destruct (cycle_traverser _ _ _ _ _).
Qed.

Lemma swch_test1_entry fuel ball_p ball_r xp pv res :
  let l := (v_len (V3 (vx ball_p - vx (swch_p xp))%fl
                      (vz ball_p - vz (swch_p xp))%fl (lit 0))
            - swch_r xp)%fl in
  (swch_t0 xp =? lit 0)%fl || (swch_f xp =? swch_f0 xp) = true ->
  (l <? ball_r)%fl && (vy ball_p >? vy (swch_p xp))%fl &&
    (vy ball_p <? vy (swch_p xp) + SWCH_HEIGHT / lit 2)%fl = true ->
  (swch_e xp =? 0) && (l <? - ball_r)%fl = true ->
  (fun r => r.1.2) <$> swch_test1 fuel ball_p ball_r xp pv res =
  cycle_traverser fuel pv (if negb (swch_f xp =? 0) then 0 else 1)
                  (swch_pi xp) (swch_pi xp).
Proof.
  intros l Hon Hin Henter. unfold swch_test1. fold l.
  rewrite Hon, Hin, Henter.
  destruct (swch_t0 xp =? lit 0)%fl; cbn [swch_f swch_set_f swch_set_e];
    by destruct (cycle_traverser _ _ _ _ _).
Qed.

(* With fuel for the whole cycle the loop returns. *)
Lemma cycle_traverser_returns fuel pv f cyc x :
  path_cycle pv cyc ->
  head cyc = Some x ->
  (length cyc <= fuel)%nat ->
  exists pv', cycle_traverser fuel pv f x x = Some pv' /\
              path_pi <$> pv' = path_pi <$> pv.
Proof.
  intros Hc Hx Hfuel.
  assert (Hx0 : cyc !! 0%nat = Some x) by by destruct cyc.
  assert (HN : (0 < length cyc)%nat) by (destruct cyc; [done | simpl; lia]).
  destruct (cycle_traverser_from pv f cyc Hc (length cyc) 0 pv x x)
    as (pv' & Hrun & _ & Hl & _); try done; try lia.
  - by rewrite Nat.mul_0_r, Nat.Div0.mod_0_l.
  - exists pv'. auto.
Qed.

(** C3: on a path cycle of N points the tortoise-and-hare loop, started
    with both cursors on a point of the cycle, leaves after exactly N
    turns (N units of fuel suffice, fewer do not), has then written the
    flag to every path point of the cycle, and has changed no successor
    index.  Both sol_swch_step and sol_swch_test run this loop from the
    path index of the switch. *)
Theorem cycle_traverser_covers pv f cyc x :
  path_cycle pv cyc ->
  head cyc = Some x ->
  exists pv',
    (forall fuel, (length cyc <= fuel)%nat ->
       cycle_traverser fuel pv f x x = Some pv') /\
    (forall fuel, (fuel < length cyc)%nat ->
       cycle_traverser fuel pv f x x = None) /\
    (forall i, i ∈ cyc -> flagged pv' f i) /\
    path_pi <$> pv' = path_pi <$> pv.
Proof.
  intros Hc Hx.
  assert (Hx0 : cyc !! 0%nat = Some x) by by destruct cyc.
  assert (HN : (0 < length cyc)%nat) by (destruct cyc; [done | simpl; lia]).
  destruct (cycle_traverser_from pv f cyc Hc (length cyc) 0 pv x x)
    as (pv' & Hrun & Hout & Hl & Hall); try done; try lia.
  - by rewrite Nat.mul_0_r, Nat.Div0.mod_0_l.
  - exists pv'. auto.
Qed.

(** ** Well-formed levels *)

Lemma in_range_is_Some {A} (a : list A) (i : Z) :
  in_range a i = true <-> is_Some (at_ a i).
Proof.
  rewrite at_is_Some. unfold in_range.
  rewrite andb_true_iff, Z.leb_le, Z.ltb_lt. tauto.
Qed.

Lemma all_upto_spec n P :
  all_upto n P = true <-> forall i, 0 <= i < n -> P i = true.
Proof.
  unfold all_upto. rewrite forallb_forall. split.
  - intros Hall i Hi. apply Hall, list_elem_of_In, elem_of_seqZ. lia.
  - intros Hall i Hi. apply Hall.
    apply list_elem_of_In, elem_of_seqZ in Hi. lia.
Qed.

Lemma path_cycleb_spec pv cyc :
  path_cycleb pv cyc = true -> path_cycle pv cyc.
Proof.
  unfold path_cycleb. rewrite andb_true_iff, bool_decide_eq_true.
  rewrite forallb_forall. intros [Hnd Hall]. split; [done|].
  intros k i Hk. specialize (Hall k). rewrite Hk in Hall.
  assert (Hin : In k (seq 0 (length cyc))).
  { apply in_seq. apply lookup_lt_Some in Hk. lia. }
  specialize (Hall Hin).
  destruct (succ pv i) as [j|]; [|done].
  destruct (cyc !! _) as [j'|]; [|done].
  apply Z.eqb_eq in Hall as <-. eauto.
Qed.

Lemma orbit_length n pv x i : (length (orbit n pv x i) <= n)%nat.
Proof.
  revert i. induction n as [|n IH]; intros i; simpl; [lia|].
  destruct (succ pv i) as [j|]; simpl; [|lia].
  destruct (j =? x); simpl; [lia|]. specialize (IH j). lia.
Qed.

(** ** The loops return *)

Lemma for_from_total {St} k i (body : Z -> St -> option St) s :
  (forall j s, i <= j < i + Z.of_nat k -> is_Some (body j s)) ->
  is_Some (for_from k i body s).
Proof.
  revert i s. induction k as [|k IH]; intros i s Hbody; simpl; [by eexists|].
  destruct (Hbody i s) as [s' ->]; [lia|]. simpl.
  apply IH. intros j s'' Hj. apply Hbody. lia.
Qed.

Lemma for_upto_total {St} n (body : Z -> St -> option St) s :
  (forall j s, 0 <= j < n -> is_Some (body j s)) ->
  is_Some (for_upto n body s).
Proof.
  intros Hbody. apply for_from_total. intros j s' Hj. apply Hbody. lia.
Qed.

Lemma wf_lump_sides_ok fp lp : wf_lump fp lp = true -> lump_sides_ok fp lp.
Proof.
  unfold wf_lump. rewrite !andb_true_iff, !all_upto_spec.
  intros [_ Hs] i Hi. specialize (Hs i Hi).
  destruct (at_ (iv fp) (lump_s0 lp + i)) as [sj|]; [|done].
  exists sj. by rewrite <- in_range_is_Some.
Qed.

Lemma sol_test_side_total dt T up fp lp si o w :
  lump_sides_ok fp lp -> is_Some (at_ (sv fp) si) ->
  is_Some (sol_test_side dt T up fp lp si o w).
Proof.
  intros Hok [sp Hsp]. unfold sol_test_side. rewrite Hsp. simpl.
  destruct (v_side _ _ _ _ _ _ _ _) as [t T'].
  destruct (t <? dt)%fl; [|by eexists].
  destruct (sol_test_side_loop_total (Z.to_nat (lump_sc lp)) 0 T' t fp lp
              si o w) as [out ->]; [|by eexists].
  intros i Hi. apply Hok. lia.
Qed.

Lemma sol_test_lump_total dt T up fp lp o w :
  wf_lump fp lp = true -> is_Some (sol_test_lump dt T up fp lp o w).
Proof.
  intros Hwf. pose proof (wf_lump_sides_ok _ _ Hwf) as Hsides.
  unfold wf_lump in Hwf. rewrite !andb_true_iff, !all_upto_spec in Hwf.
  destruct Hwf as [[Hv He] Hs]. unfold sol_test_lump.
  destruct (negb _); [by eexists|].
  assert (Hverts : forall s, is_Some (for_upto (lump_vc lp)
            (fun i '(t, T, U) =>
               vi ← at_ (iv fp) (lump_v0 lp + i);
               vp ← at_ (vv fp) vi;
               Some (keep_min (sol_test_vert t U up vp o w) (t, T, U))) s)).
  { intros s. apply for_upto_total. intros j [[t T'] U] Hj.
    specialize (Hv j Hj). destruct (at_ (iv fp) _) as [vi|]; [|done]. simpl.
    apply in_range_is_Some in Hv as [vp ->]. by eexists. }
  assert (Hedges : forall s, is_Some (for_upto (lump_ec lp)
            (fun i '(t, T, U) =>
               ei ← at_ (iv fp) (lump_e0 lp + i);
               ep ← at_ (ev fp) ei;
               r ← sol_test_edge t U up fp ep o w;
               Some (keep_min r (t, T, U))) s)).
  { intros s. apply for_upto_total. intros j [[t T'] U] Hj.
    specialize (He j Hj). destruct (at_ (iv fp) _) as [ei|]; [|done]. simpl.
    destruct (at_ (ev fp) ei) as [ep|]; [|done]. simpl.
    apply andb_true_iff in He as [Hi Hj'].
    apply in_range_is_Some in Hi as [vi Hi], Hj' as [vj Hj'].
    unfold sol_test_edge. rewrite Hi, Hj'. by eexists. }
  assert (Hsd : forall s, is_Some (for_upto (lump_sc lp)
            (fun i '(t, T, U) =>
               si ← at_ (iv fp) (lump_s0 lp + i);
               r ← sol_test_side t U up fp lp si o w;
               Some (keep_min r (t, T, U))) s)).
  { intros s. apply for_upto_total. intros j [[t T'] U] Hj.
    specialize (Hs j Hj). destruct (at_ (iv fp) _) as [si|]; [|done]. simpl.
    apply in_range_is_Some in Hs.
    destruct (sol_test_side_total t U up fp lp si o w Hsides Hs) as [r ->].
    by eexists. }
  destruct (ball_r up >? lit 0)%fl.
  - destruct (Hverts (dt, T, v_zero)) as [s1 ->]. simpl.
    destruct (Hedges s1) as [s2 ->]. simpl.
    destruct (Hsd s2) as [[[t T'] U] ->]. by eexists.
  - simpl. destruct (Hsd (dt, T, v_zero)) as [[[t T'] U] ->]. by eexists.
Qed.

Lemma sol_test_node_total depth dt T up fp np o w :
  wf_node depth fp np = true ->
  is_Some (sol_test_node depth dt T up fp np o w).
Proof.
  revert dt T np. induction depth as [|depth IH]; intros dt T np Hwf;
    [done|].
  simpl in Hwf. rewrite !andb_true_iff, all_upto_spec in Hwf.
  destruct Hwf as [[Hl Hi] Hj]. simpl.
  assert (Hlumps : is_Some (for_upto (node_lc np)
            (fun i '(t, T, U) =>
               lp ← at_ (lv fp) (node_l0 np + i);
               r ← sol_test_lump t U up fp lp o w;
               Some (keep_min r (t, T, U))) (dt, T, v_zero))).
  { apply for_upto_total. intros j [[t T'] U] Hjr.
    specialize (Hl j Hjr). destruct (at_ (lv fp) _) as [lp|]; [|done]. simpl.
    destruct (sol_test_lump_total t U up fp lp o w Hl) as [r ->].
    by eexists. }
  destruct Hlumps as [[[t1 T1] U1] ->]. simpl.
  assert (Hchild : forall ni (test : s_side -> bool) t Tc Uc,
    (if 0 <=? ni
     then in_range (sv fp) (node_si np) &&
          match at_ (nv fp) ni with
          | Some nq => wf_node depth fp nq
          | None => false
          end
     else true) = true ->
    is_Some (if 0 <=? ni then
               sp ← at_ (sv fp) (node_si np);
               if test sp then
                 nq ← at_ (nv fp) ni;
                 r ← sol_test_node depth t Uc up fp nq o w;
                 Some (keep_min r (t, Tc, Uc))
               else Some (t, Tc, Uc)
             else Some (t, Tc, Uc))).
  { intros ni test t Tc Uc Hc. destruct (0 <=? ni); [|by eexists].
    apply andb_true_iff in Hc as [Hsi Hnq].
    apply in_range_is_Some in Hsi as [sp ->]. simpl.
    destruct (test sp); [|by eexists].
    destruct (at_ (nv fp) ni) as [nq|]; [|done]. simpl.
    destruct (IH t Uc nq Hnq) as [r ->]. by eexists. }
  destruct (Hchild (node_ni np) (fun sp => sol_test_fore t1 up sp o w)
              t1 T1 U1 Hi) as [[[t2 T2] U2] ->]. simpl.
  destruct (Hchild (node_nj np) (fun sp => sol_test_back t2 up sp o w)
              t2 T2 U2 Hj) as [[[t3 T3] U3] ->]. by eexists.
Qed.

(** ** What a step keeps *)

Lemma wf_file_WF fuel fp : wf_file fuel fp = true -> WF fuel fp.
Proof.
  unfold wf_file. rewrite !andb_true_iff, !forallb_forall.
  intros [[Hb Hp] Hx]. split.
  - intros bp Hin. apply list_elem_of_In, Hb in Hin. unfold wf_body in Hin.
    apply andb_true_iff in Hin as [Hn _].
    destruct (at_ (nv fp) (body_ni bp)) as [np|]; [eauto | done].
  - intros bp Hin. apply list_elem_of_In, Hb in Hin. unfold wf_body in Hin.
    apply andb_true_iff in Hin as [_ Hpi].
    apply orb_true_iff in Hpi as [Hpi|Hpi].
    + left. by apply Z.ltb_lt.
    + right. by apply in_range_is_Some.
  - intros i j Hij. unfold succ in Hij.
    destruct (at_ (pv fp) i) as [pp|] eqn:Hpp; [|done]. simpl in Hij.
    simplify_eq. apply in_range_is_Some, Hp, list_elem_of_In.
    apply at_Some in Hpp as [_ Hpp]. eapply list_elem_of_lookup_2; eauto.
  - intros xp Hin. apply list_elem_of_In, Hx in Hin. unfold wf_swch in Hin.
    apply andb_true_iff in Hin as [Hc Hh].
    apply bool_decide_eq_true in Hh.
    eexists. split; [by apply path_cycleb_spec|]. split; [done|].
    apply orbit_length.
Qed.

Lemma same_frame_refl fp : same_frame fp fp.
Proof.
  split; try done. apply Forall2_same_length_lookup. split; [done|].
  intros i bp bp' H1 H2. simplify_eq. auto.
Qed.

Lemma all_upto_ext n (P Q : Z -> bool) :
  (forall i, P i = Q i) -> all_upto n P = all_upto n Q.
Proof.
  intros HPQ. unfold all_upto.
  induction (seqZ 0 n) as [|i l IH]; simpl; [done|]. by rewrite HPQ, IH.
Qed.

Lemma wf_lump_frame fp fp' lp :
  same_frame fp fp' -> wf_lump fp' lp = wf_lump fp lp.
Proof.
  intros Hsf. unfold wf_lump.
  by rewrite (sf_vv _ _ Hsf), (sf_ev _ _ Hsf), (sf_sv _ _ Hsf),
             (sf_iv _ _ Hsf).
Qed.

Lemma wf_node_frame depth fp fp' np :
  same_frame fp fp' -> wf_node depth fp' np = wf_node depth fp np.
Proof.
  intros Hsf. revert np. induction depth as [|depth IH]; intros np; [done|].
  simpl. rewrite (sf_sv _ _ Hsf), (sf_lv _ _ Hsf), (sf_nv _ _ Hsf).
  f_equal; [f_equal|].
  - apply all_upto_ext.
    intros i. destruct (at_ (lv fp) _); [|done]. by apply wf_lump_frame.
  - destruct (0 <=? node_ni np); [|done]. f_equal.
    destruct (at_ (nv fp) _); [|done]. apply IH.
  - destruct (0 <=? node_nj np); [|done]. f_equal.
    destruct (at_ (nv fp) _); [|done]. apply IH.
Qed.

Lemma path_cycle_links pv pv' cyc :
  path_pi <$> pv' = path_pi <$> pv -> path_cycle pv cyc -> path_cycle pv' cyc.
Proof.
  intros Hl [Hnd Hc]. split; [done|]. intros k i Hk.
  rewrite (succ_links _ _ _ Hl). eauto.
Qed.

Lemma at_is_Some_links pv pv' i :
  path_pi <$> pv' = path_pi <$> pv ->
  is_Some (at_ pv i) -> is_Some (at_ pv' i).
Proof.
  intros Hl. rewrite !at_is_Some.
  by rewrite <- (length_fmap path_pi pv), <- Hl, length_fmap.
Qed.

Lemma WF_same_frame fuel fp fp' :
  WF fuel fp -> same_frame fp fp' -> WF fuel fp'.
Proof.
  intros [Hb Hpi Hs Hx] Hsf. pose proof Hsf as [? ? ? ? Hnv ? Hpv Hxv ? Hbv].
  split.
  - intros bp' Hin. apply list_elem_of_lookup in Hin as [k Hk].
    destruct (Forall2_lookup_r _ _ _ _ _ Hbv Hk) as (bp & Hbp & Hni & _).
    destruct (Hb bp) as (np & Hnp & Hwf);
      [by eapply list_elem_of_lookup_2|].
    exists np. rewrite Hnv, Hni. split; [done|].
    by rewrite (wf_node_frame _ _ _ _ Hsf).
  - intros bp' Hin. apply list_elem_of_lookup in Hin as [k Hk].
    destruct (Forall2_lookup_r _ _ _ _ _ Hbv Hk) as (bp & Hbp & _ & Hmv).
    destruct Hmv as [->|Hmv].
    + destruct (Hpi bp) as [?|?]; [by eapply list_elem_of_lookup_2|auto|].
      right. by eapply at_is_Some_links.
    + right. eapply at_is_Some_links; eauto.
  - intros i j. rewrite (succ_links _ _ _ Hpv). intros Hij.
    eapply at_is_Some_links; eauto.
  - intros xp' Hin.
    assert (Hin' : swch_pi xp' ∈ swch_pi <$> xv fp).
    { rewrite <- Hxv. by apply list_elem_of_fmap_2. }
    apply list_elem_of_fmap in Hin' as (xp & Hpi' & Hxp).
    destruct (Hx xp Hxp) as (cyc & Hc & Hh & Hlen).
    exists cyc. rewrite Hpi'. eauto using path_cycle_links.
Qed.

Lemma steppable_frame fuel ui fp fp' :
  steppable fuel ui fp -> same_frame fp fp' -> steppable fuel ui fp'.
Proof.
  intros [Hwf Hui] Hsf. split; [by eapply WF_same_frame|].
  revert Hui. rewrite !at_is_Some. by rewrite (sf_uv _ _ Hsf).
Qed.

Lemma body_moves_refl pv (bs : list s_body) :
  Forall2 (fun bp bp' =>
             body_ni bp' = body_ni bp /\
             (body_pi bp' = body_pi bp \/
              succ pv (body_pi bp) = Some (body_pi bp'))) bs bs.
Proof.
  apply Forall2_same_length_lookup. split; [done|].
  intros i bp bp' H1 H2. simplify_eq. auto.
Qed.

(** ** The tests return on a well-formed level *)

Lemma sol_body_p_total fuel fp bp :
  WF fuel fp -> bp ∈ bv fp -> is_Some (sol_body_p fp bp).
Proof.
  intros Hwf Hin. unfold sol_body_p.
  destruct (Z.leb_spec 0 (body_pi bp)); [|by eexists].
  destruct (WF_body_pi _ _ Hwf bp Hin) as [?|[pp Hpp]]; [lia|].
  rewrite Hpp. simpl.
  destruct (WF_succ _ _ Hwf (body_pi bp) (path_pi pp)) as [pq ->];
    [by unfold succ; rewrite Hpp|].
  by eexists.
Qed.

Lemma sol_body_v_total fuel fp bp :
  WF fuel fp -> bp ∈ bv fp -> is_Some (sol_body_v fp bp).
Proof.
  intros Hwf Hin. unfold sol_body_v.
  destruct (Z.leb_spec 0 (body_pi bp)); [|by eexists].
  destruct (WF_body_pi _ _ Hwf bp Hin) as [?|[pp Hpp]]; [lia|].
  rewrite Hpp. simpl. destruct (negb _); [|by eexists].
  destruct (WF_succ _ _ Hwf (body_pi bp) (path_pi pp)) as [pq ->];
    [by unfold succ; rewrite Hpp|].
  by eexists.
Qed.

Lemma sol_test_body_total fuel dt T V up fp bp :
  WF fuel fp -> bp ∈ bv fp ->
  is_Some (sol_test_body fuel dt T V up fp bp).
Proof.
  intros Hwf Hin. unfold sol_test_body.
  destruct (WF_body _ _ Hwf bp Hin) as (np & -> & Hnp). simpl.
  destruct (sol_body_p_total _ _ _ Hwf Hin) as [O ->]. simpl.
  destruct (sol_body_v_total _ _ _ Hwf Hin) as [W ->]. simpl.
  destruct (sol_test_node_total fuel dt v_zero up fp np O W Hnp)
    as [[u U] ->].
  by eexists.
Qed.

Lemma sol_test_file_loop_total fuel bs t T V up fp :
  WF fuel fp -> (forall bp, bp ∈ bs -> bp ∈ bv fp) ->
  is_Some (sol_test_file_loop fuel bs t T V up fp).
Proof.
  intros Hwf. revert t T V.
  induction bs as [|bp bs IH]; intros t T V Hsub; simpl; [by eexists|].
  destruct (sol_test_body_total fuel t v_zero v_zero up fp bp Hwf)
    as [[[u U] W] ->]; [apply Hsub; by left|].
  simpl. destruct (u <? t)%fl; apply IH; intros; apply Hsub; by right.
Qed.

Lemma sol_test_file_total fuel dt T V up fp :
  WF fuel fp -> is_Some (sol_test_file fuel dt T V up fp).
Proof. intros Hwf. by apply sol_test_file_loop_total. Qed.

(** ** The steps return and keep the frame *)

Lemma body_step1_moves pv dt bp :
  body_pi bp < 0 \/ is_Some (at_ pv (body_pi bp)) ->
  exists bp', body_step1 pv dt bp = Some bp' /\
    body_ni bp' = body_ni bp /\
    (body_pi bp' = body_pi bp \/ succ pv (body_pi bp) = Some (body_pi bp')).
Proof.
  intros Hpi. unfold body_step1.
  destruct (Z.leb_spec 0 (body_pi bp)); [|by eauto].
  destruct Hpi as [?|[pp Hpp]]; [lia|]. rewrite Hpp. simpl.
  destruct (negb _); [|by eauto].
  destruct (_ <=? _)%fl; eexists; (split; [done|]); simpl; auto.
  split; [done|]. right. unfold succ. by rewrite Hpp.
Qed.

Lemma sol_body_step_total fuel fp dt :
  WF fuel fp ->
  exists fp', sol_body_step fp dt = Some fp' /\ same_frame fp fp'.
Proof.
  intros Hwf. unfold sol_body_step.
  assert (Hall : Forall (fun bp => is_Some (body_step1 (pv fp) dt bp))
                        (bv fp)).
  { apply Forall_forall. intros bp Hin.
    destruct (body_step1_moves (pv fp) dt bp) as (bp' & -> & _);
      [by eapply WF_body_pi | by eexists]. }
  apply mapM_is_Some in Hall as [bs Hbs]. rewrite Hbs. simpl.
  eexists. split; [done|]. split; try done. simpl.
  apply mapM_Some_1 in Hbs. eapply Forall2_impl; [exact Hbs|].
  intros bp bp' Hstep. simpl in Hstep.
  assert (Hin : body_pi bp < 0 \/ is_Some (at_ (pv fp) (body_pi bp))).
  { unfold body_step1 in Hstep.
    destruct (Z.leb_spec 0 (body_pi bp)); [|auto].
    destruct (at_ (pv fp) (body_pi bp)); [by eauto | done]. }
  destruct (body_step1_moves (pv fp) dt bp Hin) as (bp2 & Hbp2 & ?).
  by simplify_eq.
Qed.

Lemma swch_step1_total fuel dt xp pv0 pv :
  path_pi <$> pv = path_pi <$> pv0 ->
  (exists cyc, path_cycle pv0 cyc /\ head cyc = Some (swch_pi xp) /\
               (length cyc <= fuel)%nat) ->
  exists xp' pv', swch_step1 fuel dt xp pv = Some (xp', pv') /\
    swch_pi xp' = swch_pi xp /\ path_pi <$> pv' = path_pi <$> pv0.
Proof.
  intros Hl (cyc & Hc & Hh & Hlen). unfold swch_step1.
  destruct (_ <? _)%fl; [|by eauto].
  destruct (_ <=? _)%fl; [|by eauto]. simpl.
  destruct (cycle_traverser_returns fuel pv (swch_f0 xp) cyc (swch_pi xp))
    as (pv' & -> & Hl'); [by eapply path_cycle_links | done | done |].
  run_bind. eexists _, _. split; [done|].
  split; [done | congruence].
Qed.

Lemma swch_step_loop_total fuel dt xs pv0 pv :
  path_pi <$> pv = path_pi <$> pv0 ->
  (forall xp, xp ∈ xs ->
     exists cyc, path_cycle pv0 cyc /\ head cyc = Some (swch_pi xp) /\
                 (length cyc <= fuel)%nat) ->
  exists xs' pv', swch_step_loop fuel dt xs pv = Some (xs', pv') /\
    swch_pi <$> xs' = swch_pi <$> xs /\
    path_pi <$> pv' = path_pi <$> pv0.
Proof.
  revert pv. induction xs as [|xp xs IH]; intros pv Hl Hx; simpl.
  - by eexists _, _.
  - destruct (swch_step1_total fuel dt xp pv0 pv Hl)
      as (xp' & pv1 & -> & Hpi & Hl1); [apply Hx; by left|]. simpl.
    destruct (IH pv1 Hl1) as (xs' & pv' & -> & Hxs & Hl');
      [intros; apply Hx; by right|]. simpl.
    eexists _, _. split; [done|]. split; [|done].
    rewrite !fmap_cons. by rewrite Hpi, Hxs.
Qed.

Lemma sol_swch_step_total fuel fp dt :
  WF fuel fp ->
  exists fp', sol_swch_step fuel fp dt = Some fp' /\ same_frame fp fp'.
Proof.
  intros Hwf. unfold sol_swch_step.
  destruct (swch_step_loop_total fuel dt (xv fp) (pv fp) (pv fp))
    as (xs & ps & -> & Hxs & Hps); [done | apply Hwf|]. simpl.
  eexists. split; [done|]. split; try done. simpl.
  apply body_moves_refl.
Qed.

Lemma sol_ball_step_frame fp dt : same_frame fp (sol_ball_step fp dt).
Proof.
  split; try done; simpl; [by rewrite length_map | apply body_moves_refl].
Qed.

Lemma uv_set_total fp ui up :
  is_Some (at_ (uv fp) ui) ->
  exists fp', uv_set fp ui up = Some fp' /\ same_frame fp fp' /\
    at_ (uv fp') ui = Some up.
Proof.
  intros [up0 Hup]. unfold uv_set. rewrite Hup. simpl.
  eexists. split; [done|]. split.
  - split; try done; simpl; [by rewrite length_insert | apply body_moves_refl].
  - simpl. apply at_Some in Hup as [Hi Hup]. apply at_Some. split; [done|].
    apply list_lookup_insert_eq. by eapply lookup_lt_Some.
Qed.

(** ** The sub-stepping loop (C4, C9) *)

Lemma sol_step_bounce_total fuel ui c fp tt b nt P V :
  steppable fuel ui fp ->
  exists s, sol_step_bounce fuel ui c fp tt b nt P V = Some s /\
            steppable fuel ui (ls_fp s).
Proof.
  intros Hst. unfold sol_step_bounce.
  destruct (sol_body_step_total fuel fp nt) as (fp1 & -> & Hsf1);
    [apply Hst|].
  pose proof (steppable_frame _ _ _ _ Hst Hsf1) as Hst1. run_bind.
  destruct (sol_swch_step_total fuel fp1 nt) as (fp2 & -> & Hsf2);
    [apply Hst1|].
  pose proof (steppable_frame _ _ _ _ Hst1 Hsf2) as Hst2. run_bind.
  pose proof (steppable_frame _ _ _ _ Hst2 (sol_ball_step_frame fp2 nt))
    as Hst3.
  destruct Hst3 as [Hwf3 [up Hup]]. rewrite Hup. run_bind.
  destruct (sol_bounce up P V nt) as [d up'].
  destruct (uv_set_total (sol_ball_step fp2 nt) ui up')
    as (fp4 & -> & Hsf4 & _); [by eexists|].
  run_bind. eexists. split; [done|]. cbn [ls_fp].
  eapply steppable_frame; [|exact Hsf4]. split; [done | by eexists].
Qed.

Lemma sol_step_bounce_state fuel ui c fp tt b nt P V s :
  sol_step_bounce fuel ui c fp tt b nt P V = Some s ->
  ls_c s = c /\ (ls_b s = b \/ (b <? ls_b s)%fl = true).
Proof.
  unfold sol_step_bounce. intros Hs.
  destruct (sol_body_step fp nt) as [fp1|]; [|done]. run_bind in Hs.
  destruct (sol_swch_step fuel fp1 nt) as [fp2|]; [|done]. run_bind in Hs.
  destruct (at_ _ ui) as [up|]; [|done]. run_bind in Hs.
  destruct (sol_bounce up P V nt) as [d up'].
  destruct (uv_set _ ui up') as [fp4|]; [|done]. run_bind in Hs.
  simplify_eq. cbn [ls_c ls_b]. split; [done|].
  destruct (b <? d)%fl eqn:E; auto.
Qed.

Lemma sol_step_loop_runs fuel ui c fp tt b P V :
  steppable fuel ui fp ->
  exists s n,
    sol_step_loop fuel ui c fp tt b P V = Some s /\
    (n + ls_c s = c)%nat /\
    bounces fuel ui n {| ls_c := c; ls_fp := fp; ls_tt := tt; ls_b := b |}
            P V s /\
    steppable fuel ui (ls_fp s).
Proof.
  revert fp tt b P V. induction c as [|c IH]; intros fp tt b P V Hst.
  - eexists _, 0%nat. split; [done|]. split; [done|].
    split; [constructor | done].
  - cbn [sol_step_loop]. destruct (tt >? lit 0)%fl eqn:Htt.
    2:{ eexists _, 0%nat. split; [done|]. split; [done|].
        split; [constructor | done]. }
    pose proof Hst as [Hwf [up Hup]]. rewrite Hup. run_bind.
    destruct (sol_test_file_total fuel tt P V up fp Hwf)
      as [[[nt P'] V'] Htest].
    rewrite Htest. run_bind. destruct (tt >? nt)%fl eqn:Hnt.
    2:{ eexists _, 0%nat. split; [done|]. split; [done|].
        split; [constructor | done]. }
    destruct (sol_step_bounce_total fuel ui c fp tt b nt P' V' Hst)
      as (s1 & Hs1 & Hst1).
    rewrite Hs1. run_bind.
    destruct (sol_step_bounce_state _ _ _ _ _ _ _ _ _ _ Hs1) as [Hc1 _].
    destruct (IH (ls_fp s1) (ls_tt s1) (ls_b s1) P' V' Hst1)
      as (s & n & Hrun & Hn & Hb & Hsts).
    exists s, (S n). split; [done|]. split; [lia|]. split; [|done].
    eapply bounces_S; cbn [ls_c ls_fp ls_tt ls_b]; eauto.
    destruct s1; cbn [ls_c ls_fp ls_tt ls_b] in *. by subst.
Qed.

Lemma sol_step_loop_counter fuel ui c fp tt b P V s :
  sol_step_loop fuel ui c fp tt b P V = Some s ->
  (ls_c s <= c)%nat /\ (ls_c s = c -> ls_b s = b).
Proof.
  revert fp tt b P V. induction c as [|c IH]; intros fp tt b P V; simpl.
  - intros ?. by simplify_eq.
  - destruct (tt >? lit 0)%fl; [|intros ?; by simplify_eq].
    destruct (at_ (uv fp) ui) as [up|]; [|done]. simpl.
    destruct (sol_test_file fuel tt P V up fp) as [[[nt P'] V']|]; [|done].
    simpl. destruct (tt >? nt)%fl; [|intros ?; by simplify_eq].
    destruct (sol_step_bounce fuel ui c fp tt b nt P' V') as [s1|]; [|done].
    simpl. intros Hs. apply IH in Hs as [Hle _]. split; lia.
Qed.

Lemma sol_step_loop_energy `{!ScalarOrder} fuel ui c fp tt b P V s :
  (lit 0 <=? b)%fl = true ->
  sol_step_loop fuel ui c fp tt b P V = Some s ->
  (lit 0 <=? ls_b s)%fl = true.
Proof.
  revert fp tt b P V. induction c as [|c IH]; intros fp tt b P V Hb; simpl.
  - intros ?. by simplify_eq.
  - destruct (tt >? lit 0)%fl; [|intros ?; by simplify_eq].
    destruct (at_ (uv fp) ui) as [up|]; [|done]. simpl.
    destruct (sol_test_file fuel tt P V up fp) as [[[nt P'] V']|]; [|done].
    simpl. destruct (tt >? nt)%fl; [|intros ?; by simplify_eq].
    destruct (sol_step_bounce fuel ui c fp tt b nt P' V') as [s1|] eqn:Hs1;
      [|done].
    simpl. apply IH.
    destruct (sol_step_bounce_state _ _ _ _ _ _ _ _ _ _ Hs1) as [_ [->|Hlt]];
      [done|].
    eapply fle_flt_trans; eauto.
Qed.

Lemma sol_step_friction_total fuel P V fp g dt ui m :
  steppable fuel ui fp ->
  exists fp1 m1 P1 V1 a,
    sol_step_friction fuel P V fp g dt ui m = Some (fp1, m1, P1, V1, a) /\
    steppable fuel ui fp1.
Proof.
  intros Hst. pose proof Hst as [Hwf [up Hup]].
  unfold sol_step_friction. rewrite Hup. run_bind.
  destruct (uv_set_total fp ui (ball_set_v up g)) as (fp0 & -> & Hsf0 & _);
    [by eexists|].
  run_bind. pose proof (steppable_frame _ _ _ _ Hst Hsf0) as Hst0.
  pose proof Hst0 as [Hwf0 Hui0].
  assert (Hset : forall up' (k : s_file -> s_file),
    (forall fp', k fp' = fp') ->
    exists fp1, uv_set fp0 ui up' = Some fp1 /\ steppable fuel ui (k fp1)).
  { intros up' k Hk.
    destruct (uv_set_total fp0 ui up' Hui0) as (fp1 & -> & Hsf1 & _).
    exists fp1. split; [done|]. rewrite Hk. by eapply steppable_frame. }
  destruct m as [mv|].
  - destruct (sol_test_file_total fuel dt P V (ball_set_v up g) fp0 Hwf0)
      as [[[t P'] V'] ->].
    run_bind.
    repeat match goal with
           | |- context [if ?c then _ else _] => destruct c
           end;
      match goal with
      | |- context [uv_set fp0 ui ?up'] =>
          destruct (Hset up' id) as (fp1 & -> & Hst1); [done|]
      end;
      run_bind; by eexists _, _, _, _, _.
  - destruct (Hset (ball_set_v (ball_set_v up g) (v_mad (ball_v up) g dt)) id)
      as (fp1 & -> & Hst1); [done|].
    run_bind. by eexists _, _, _, _, _.
Qed.

Lemma sol_step_rest_total fuel fp g dt tt ui a :
  steppable fuel ui fp -> is_Some (sol_step_rest fuel fp g dt tt ui a).
Proof.
  intros Hst. unfold sol_step_rest.
  destruct (sol_body_step_total fuel fp tt) as (fp1 & -> & Hsf1);
    [apply Hst|].
  pose proof (steppable_frame _ _ _ _ Hst Hsf1) as Hst1. run_bind.
  destruct (sol_swch_step_total fuel fp1 tt) as (fp2 & -> & Hsf2);
    [apply Hst1|].
  pose proof (steppable_frame _ _ _ _ Hst1 Hsf2) as Hst2. run_bind.
  pose proof (steppable_frame _ _ _ _ Hst2 (sol_ball_step_frame fp2 tt))
    as [Hwf3 [up Hup]].
  rewrite Hup. run_bind.
  destruct (uv_set_total (sol_ball_step fp2 tt) ui
              (sol_pendulum up (v_sub (ball_v up) a) g dt))
    as (fp4 & -> & _); [by eexists|].
  by eexists.
Qed.

Lemma sol_step_loop_exit fuel ui c fp tt b P V s :
  sol_step_loop fuel ui c fp tt b P V = Some s ->
  ls_c s = 0%nat \/
  (ls_tt s >? lit 0)%fl = false \/
  exists up P' V' nt P2 V2,
    at_ (uv (ls_fp s)) ui = Some up /\
    sol_test_file fuel (ls_tt s) P' V' up (ls_fp s) = Some (nt, P2, V2) /\
    (ls_tt s >? nt)%fl = false.
Proof.
  revert fp tt b P V. induction c as [|c IH]; intros fp tt b P V Hl.
  - injection Hl as <-. by left.
  - cbn [sol_step_loop] in Hl.
    destruct (tt >? lit 0)%fl eqn:Htt;
      [|injection Hl as <-; right; by left].
    apply bind_Some in Hl as (up & Hup & Hl).
    apply bind_Some in Hl as ([[nt P'] V'] & Htest & Hl).
    destruct (tt >? nt)%fl eqn:Hnt.
    + apply bind_Some in Hl as (s1 & _ & Hl). by eapply IH.
    + injection Hl as <-. right. right. cbn [ls_c ls_fp ls_tt ls_b].
      by exists up, P, V, nt, P', V'.
Qed.

Lemma sol_step_rest_steps fuel fp g dt tt ui a fp' :
  sol_step_rest fuel fp g dt tt ui a = Some fp' ->
  exists fpa fpb up,
    sol_body_step fp tt = Some fpa /\
    sol_swch_step fuel fpa tt = Some fpb /\
    at_ (uv (sol_ball_step fpb tt)) ui = Some up /\
    uv_set (sol_ball_step fpb tt) ui
           (sol_pendulum up (v_sub (ball_v up) a) g dt) = Some fp'.
Proof.
  unfold sol_step_rest. intros Hr.
  apply bind_Some in Hr as (fpa & Ha & Hr).
  apply bind_Some in Hr as (fpb & Hb & Hr).
  apply bind_Some in Hr as (up & Hup & Hr).
  by exists fpa, fpb, up.
Qed.

(** C4: on a well-formed level, for a ball of the level and any time
    budget, [sol_step] returns.  The body of its loop runs n times, each
    time for a contact found within the remaining time and resolved by a
    bounce, and n is at most 16.  The loop is left when the counter is
    used up, when no time remains, or when the test finds no contact
    within the remaining time tt.  Whichever it was, the bodies, then the
    switches, then the balls are advanced by tt, the pendulum of the ball
    is updated, and the level so obtained is the one returned: no contact
    test is run on the way. *)
Theorem sol_step_returns fuel P V fp g dt ui m :
  wf_file fuel fp = true ->
  0 <= ui < Z.of_nat (length (uv fp)) ->
  exists fp1 m1 P1 V1 a n s fp',
    sol_step_friction fuel P V fp g dt ui m = Some (fp1, m1, P1, V1, a) /\
    bounces fuel ui n
      {| ls_c := 16; ls_fp := fp1; ls_tt := dt; ls_b := lit 0 |} P1 V1 s /\
    (n <= 16)%nat /\
    sol_step_contacts fuel P V fp g dt ui m = Some n /\
    sol_step_rest fuel (ls_fp s) g dt (ls_tt s) ui a = Some fp' /\
    sol_step fuel P V fp g dt ui m = Some (ls_b s, fp', m1) /\
    (ls_c s = 0%nat \/
     (ls_tt s >? lit 0)%fl = false \/
     exists up P' V' nt P2 V2,
       at_ (uv (ls_fp s)) ui = Some up /\
       sol_test_file fuel (ls_tt s) P' V' up (ls_fp s) = Some (nt, P2, V2) /\
       (ls_tt s >? nt)%fl = false) /\
    exists fpa fpb up,
      sol_body_step (ls_fp s) (ls_tt s) = Some fpa /\
      sol_swch_step fuel fpa (ls_tt s) = Some fpb /\
      at_ (uv (sol_ball_step fpb (ls_tt s))) ui = Some up /\
      uv_set (sol_ball_step fpb (ls_tt s)) ui
             (sol_pendulum up (v_sub (ball_v up) a) g dt) = Some fp'.
Proof.
  intros Hwf Hui.
  assert (Hst : steppable fuel ui fp).
  { split; [by apply wf_file_WF | by apply at_is_Some]. }
  destruct (sol_step_friction_total fuel P V fp g dt ui m Hst)
    as (fp1 & m1 & P1 & V1 & a & Hfr & Hst1).
  destruct (sol_step_loop_runs fuel ui 16 fp1 dt (lit 0) P1 V1 Hst1)
    as (s & n & Hloop & Hn & Hb & Hsts).
  destruct (sol_step_rest_total fuel (ls_fp s) g dt (ls_tt s) ui a Hsts)
    as [fp' Hrest].
  exists fp1, m1, P1, V1, a, n, s, fp'.
  unfold sol_step, sol_step_contacts.
  destruct (Z.ltb_spec ui (Z.of_nat (length (uv fp)))); [|lia].
  rewrite Hfr. run_bind. rewrite Hloop. run_bind. rewrite Hrest.
  split; [done|]. split; [done|]. split; [lia|].
  split; [f_equal; lia|]. split; [done|]. split; [done|].
  split; [by eapply sol_step_loop_exit | by apply sol_step_rest_steps].
Qed.

(** C9: the energy [sol_step] returns is not negative, and it is 0 when the
    body of the loop did not run during the call. *)
Theorem sol_step_energy `{!ScalarOrder} fuel P V fp g dt ui m b fp' m' :
  sol_step fuel P V fp g dt ui m = Some (b, fp', m') ->
  (lit 0 <=? b)%fl = true /\
  (sol_step_contacts fuel P V fp g dt ui m = Some 0%nat -> b = lit 0).
Proof.
  unfold sol_step, sol_step_contacts.
  destruct (ui <? Z.of_nat (length (uv fp))).
  2:{ intros ?. simplify_eq. split; [by apply fle_lit | done]. }
  destruct (sol_step_friction fuel P V fp g dt ui m)
    as [[[[[fp1 m1] P1] V1] a]|]; [|done].
  run_bind.
  destruct (sol_step_loop fuel ui 16 fp1 dt (lit 0) P1 V1) as [s|] eqn:Hloop;
    [|done].
  run_bind. destruct (sol_step_rest _ _ _ _ _ _ _) as [fp2|]; [|done].
  run_bind. intros ?. simplify_eq. split.
  - eapply sol_step_loop_energy; [|exact Hloop]. by apply fle_lit.
  - intros Hn. apply sol_step_loop_counter in Hloop as [Hle Hsame].
    apply Hsame. simplify_eq. lia.
Qed.

(** ** The local time of a body (C7) *)

Lemma body_step1_keeps_segment `{!ScalarOrder} pv dt bp :
  (lit 0 <=? dt)%fl = true ->
  in_segment pv bp ->
  (forall pp, at_ pv (body_pi bp) = Some pp ->
     exists pq, at_ pv (path_pi pp) = Some pq /\
                (lit 0 <? path_t pq)%fl = true) ->
  exists bp' pp, body_step1 pv dt bp = Some bp' /\
    at_ pv (body_pi bp) = Some pp /\
    body_stepped dt pp bp bp' /\ in_segment pv bp'.
Proof.
  intros Hdt (pp & Hpp & H0 & HD) Hnext.
  pose proof (proj1 (at_Some _ _ _) Hpp) as [Hpi Hlk].
  destruct (Hnext pp Hpp) as (pq & Hpq & HDq).
  unfold body_step1.
  destruct (Z.leb_spec 0 (body_pi bp)); [|lia]. rewrite Hpp. run_bind.
  destruct (negb (path_f pp =? 0)) eqn:Hf.
  - destruct (body_t bp + dt >=? path_t pp)%fl eqn:Hend.
    + eexists _, pp. split; [done|]. split; [done|]. split.
      { unfold body_stepped. by rewrite Hf, Hend. }
      exists pq. cbn [body_t body_pi]. split; [done|].
      split; [by apply fle_lit | done].
    + eexists _, pp. split; [done|]. split; [done|]. split.
      { unfold body_stepped. by rewrite Hf, Hend. }
      exists pp. cbn [body_t body_pi]. split; [done|]. split.
      * by apply fadd_nonneg.
      * rewrite flt_total, Hend; [done| |by eapply flt_self_r].
        eapply fle_self_r. by apply fadd_nonneg.
  - exists bp, pp. split; [done|]. split; [done|]. split.
    { unfold body_stepped. by rewrite Hf. }
    by exists pp.
Qed.

(** C7: body by body.  For a time step dt >= 0 on a level each of whose
    bodies is on no path or on a point of the path array, [sol_body_step]
    returns and leaves the path array alone.  A body on no path is left as
    it is.  A body whose local time lies in [0, D), D the duration of its
    current segment, and whose next segment has a positive duration, again
    has its local time in [0, D') of the segment it is then on: on an
    enabled path point it gets t = 0 and the successor as its path index
    when it reaches the end of the segment (t + dt >= D), and keeps its
    index with t + dt when it does not; on a disabled one it is left as it
    is.  The other bodies of the level are under no condition. *)
Theorem sol_body_step_in_segment `{!ScalarOrder} fp dt :
  (lit 0 <=? dt)%fl = true ->
  (forall bp, bp ∈ bv fp ->
     body_pi bp < 0 \/ is_Some (at_ (pv fp) (body_pi bp))) ->
  exists fp', sol_body_step fp dt = Some fp' /\
    pv fp' = pv fp /\
    Forall2 (fun bp bp' =>
               (body_pi bp < 0 -> bp' = bp) /\
               (in_segment (pv fp) bp ->
                (forall pp, at_ (pv fp) (body_pi bp) = Some pp ->
                   exists pq, at_ (pv fp) (path_pi pp) = Some pq /\
                              (lit 0 <? path_t pq)%fl = true) ->
                in_segment (pv fp') bp' /\
                exists pp, at_ (pv fp) (body_pi bp) = Some pp /\
                           body_stepped dt pp bp bp'))
            (bv fp) (bv fp').
Proof.
  intros Hdt Hall. unfold sol_body_step.
  assert (Hstep : Forall (fun bp => is_Some (body_step1 (pv fp) dt bp))
                         (bv fp)).
  { apply Forall_forall. intros bp Hin.
    destruct (body_step1_moves (pv fp) dt bp (Hall bp Hin))
      as (bp' & -> & _). by eexists. }
  apply mapM_is_Some in Hstep as [bs Hbs]. rewrite Hbs. run_bind.
  eexists. split; [done|]. split; [done|]. cbn [bv pv file_set_bv].
  apply mapM_Some_1 in Hbs.
  eapply Forall2_impl; [exact Hbs|]. intros bp bp' Hb. cbn beta in Hb.
  split.
  - intros Hneg. unfold body_step1 in Hb.
    destruct (Z.leb_spec 0 (body_pi bp)); [lia|]. by injection Hb as <-.
  - intros Hseg Hnext.
    destruct (body_step1_keeps_segment (pv fp) dt bp Hdt Hseg Hnext)
      as (bp2 & pp & Hbp2 & Hpp & Hst & Hseg').
    simplify_eq. eauto.
Qed.

(** ** The plane-side tests (C1) *)

(* The two tests move the ball by its own velocity: the velocity w of the
   body is a parameter they never read. *)
Lemma sol_test_fore_ignores_w dt up sp o w w' :
  sol_test_fore dt up sp o w = sol_test_fore dt up sp o w'.
Proof. reflexivity. Qed.

Lemma sol_test_back_ignores_w dt up sp o w w' :
  sol_test_back dt up sp o w = sol_test_back dt up sp o w'.
Proof. reflexivity. Qed.

(** ** Goals and teleports *)

Section Sensors.

Context `{Hg : !Heights}.

Lemma sol_goal_test_loop_first zs zi0 bp br :
  match sol_goal_test_loop zs zi0 bp br with
  | Some (zi, q) =>
      exists (k : nat) zp, zi = zi0 + Z.of_nat k /\ zs !! k = Some zp /\
        q = goal_p zp /\ goal_reached bp br zp = true /\
        forall (j : nat) zq, (j < k)%nat -> zs !! j = Some zq ->
          goal_reached bp br zq = false
  | None => forall zp, zp ∈ zs -> goal_reached bp br zp = false
  end.
Proof.
  revert zi0. induction zs as [|zp zs IH]; intros zi0; simpl.
  - intros zp Hin. inversion Hin.
  - fold (goal_reached bp br zp).
    destruct (goal_reached bp br zp) eqn:E.
    + exists 0%nat, zp. repeat split; auto; [lia | intros; lia].
    + specialize (IH (zi0 + 1)).
      destruct (sol_goal_test_loop zs (zi0 + 1) bp br) as [[zi q]|].
      * destruct IH as (k & zq & -> & Hk & -> & Hr & Hbefore).
        exists (S k), zq. repeat split; auto; [lia|].
        intros [|j] zq' Hj Hq'; simpl in Hq'; [congruence|].
        eapply Hbefore; eauto. lia.
      * intros zq Hin. apply elem_of_cons in Hin as [->|Hin]; auto.
Qed.

(** X1: [sol_goal_test] tests the ball ui, not ball 0: it returns the first
    goal in storage order inside whose cylinder the whole ball is, with p
    set to that goal's position, and NULL with p untouched when the ball is
    in no goal. *)
Theorem sol_goal_test_first fp zs p ui up :
  at_ (uv fp) ui = Some up ->
  let reached := goal_reached (ball_p up) (ball_r up) in
  match sol_goal_test fp zs p ui with
  | Some (Some zi, q) =>
      exists zp, at_ zs zi = Some zp /\ q = goal_p zp /\
        reached zp = true /\
        forall j zq, 0 <= j < zi -> at_ zs j = Some zq -> reached zq = false
  | Some (None, q) =>
      q = p /\ forall zp, zp ∈ zs -> reached zp = false
  | None => False
  end.
Proof.
  intros Hup reached. unfold sol_goal_test. rewrite Hup. simpl.
  pose proof (sol_goal_test_loop_first zs 0 (ball_p up) (ball_r up)) as Hloop.
  destruct (sol_goal_test_loop zs 0 (ball_p up) (ball_r up)) as [[zi q]|].
  - destruct Hloop as (k & zp & -> & Hk & -> & Hr & Hbefore).
    exists zp. rewrite Z.add_0_l, at_of_nat. repeat split; auto.
    intros j zq Hj Hq. apply at_Some in Hq as [_ Hq].
    eapply Hbefore; eauto. lia.
  - auto.
Qed.

Lemma sol_jump_test_loop_spec js bp br p res0 :
  let r := sol_jump_test_loop js bp br p res0 in
  (r.1 = 1 /\
   exists (k : nat) jp, js !! k = Some jp /\
     jump_inside bp br jp = true /\
     (forall (j : nat) jq, (j < k)%nat -> js !! j = Some jq ->
        jump_inside bp br jq = false) /\
     r.2 = jump_target bp jp) \/
  (r.2 = p /\
   (forall jp, jp ∈ js -> jump_inside bp br jp = false) /\
   ((r.1 = 2 /\ exists jp, jp ∈ js /\ jump_over bp jp = true) \/
    (r.1 = res0 /\ forall jp, jp ∈ js -> jump_over bp jp = false))).
Proof.
  revert res0. induction js as [|jp js IH]; intros res0; simpl.
  - right. split; [done|]. split; [intros jp Hin; inversion Hin|].
    right. split; [done|]. intros jp Hin. inversion Hin.
  - fold (jump_l bp jp). fold (jump_over bp jp).
    destruct (jump_over bp jp) eqn:Eo.
    + destruct (jump_l bp jp <? - br)%fl eqn:Ei.
      * left. split; [done|]. exists 0%nat, jp. simpl.
        unfold jump_inside. rewrite Eo, Ei.
        repeat split; auto. intros; lia.
      * assert (Hn : jump_inside bp br jp = false).
        { unfold jump_inside. by rewrite Eo, Ei. }
        destruct (IH 2) as [(H1 & k & jq & Hk & Hin & Hbefore & Ht)
                           |(Hp & Hnone & Hres)].
        -- left. split; [done|]. exists (S k), jq. repeat split; auto.
           intros [|j] jq' Hj Hq'; simpl in Hq'; [congruence|].
           eapply Hbefore; eauto. lia.
        -- right. split; [done|]. split.
           { intros jq Hin. apply elem_of_cons in Hin as [->|Hin]; auto. }
           left. split.
           { destruct Hres as [[H2 _]|[H2 _]]; exact H2. }
           exists jp. split; [left|done].
    + assert (Hn : jump_inside bp br jp = false).
      { unfold jump_inside. by rewrite Eo. }
      destruct (IH res0) as [(H1 & k & jq & Hk & Hin & Hbefore & Ht)
                            |(Hp & Hnone & Hres)].
      * left. split; [done|]. exists (S k), jq. repeat split; auto.
        intros [|j] jq' Hj Hq'; simpl in Hq'; [congruence|].
        eapply Hbefore; eauto. lia.
      * right. split; [done|]. split.
        { intros jq Hin. apply elem_of_cons in Hin as [->|Hin]; auto. }
        destruct Hres as [(H2 & jq & Hin & Hq)|(H2 & Hq)].
        -- left. split; [done|]. exists jq. split; [by right|done].
        -- right. split; [done|].
           intros jq Hin. apply elem_of_cons in Hin as [->|Hin]; auto.
Qed.

(** X2: [sol_jump_test] returns 1 exactly when the whole ball ui is inside
    some teleport, with p set to the destination of the first such teleport
    in storage order, even if the ball sits on the border of an earlier
    one; it returns 2 with p untouched when the ball is wholly inside none
    but its centre is over one, and 0 with p untouched otherwise. *)
Theorem sol_jump_test_result fp js p ui up :
  at_ (uv fp) ui = Some up ->
  let inside := jump_inside (ball_p up) (ball_r up) in
  let over := jump_over (ball_p up) in
  exists res p', sol_jump_test fp js p ui = Some (res, p') /\
    ((res = 1 /\
      exists (k : nat) jp, js !! k = Some jp /\ inside jp = true /\
        (forall (j : nat) jq, (j < k)%nat -> js !! j = Some jq ->
           inside jq = false) /\
        p' = jump_target (ball_p up) jp) \/
     (res = 2 /\ p' = p /\
      (forall jp, jp ∈ js -> inside jp = false) /\
      exists jp, jp ∈ js /\ over jp = true) \/
     (res = 0 /\ p' = p /\ forall jp, jp ∈ js -> over jp = false)).
Proof.
  intros Hup inside over. unfold sol_jump_test. rewrite Hup. run_bind.
  pose proof (sol_jump_test_loop_spec js (ball_p up) (ball_r up) p 0) as Hl.
  destruct (sol_jump_test_loop js (ball_p up) (ball_r up) p 0) as [res p'].
  exists res, p'. split; [done|]. simpl in Hl.
  destruct Hl as [Hl|(Hp & Hnone & [[H2 Hex]|[H0 Hno]])]; auto.
  right. left. auto.
Qed.

End Sensors.

(** ** Contact times of edges and sides *)

Lemma LARGE_nonneg `{!ScalarOrder} : (lit 0 <=? LARGE)%fl = true.
Proof. apply fle_lit. discriminate. Qed.

Lemma v_edge_nonneg `{!ScalarOrder} Q o q u w p v r :
  (lit 0 <=? (v_edge Q o q u w p v r).1)%fl = true /\
  (v_edge Q o q u w p v r = (LARGE, Q) \/
   ((v_edge Q o q u w p v r).1 <? LARGE)%fl = true /\
   exists s, (lit 0 <? s)%fl = true /\ (s <? lit 1)%fl = true /\
     (v_edge Q o q u w p v r).2 =
     v_add (v_mad q u s) (v_mad o w (v_edge Q o q u w p v r).1)).
Proof.
  unfold v_edge.
  match goal with |- context [if ?c then _ else _] =>
    destruct c eqn:E end; simpl.
  - apply andb_prop in E as [E Hs1]. apply andb_prop in E as [E Hs0].
    apply andb_prop in E as [Ht0 Ht1].
    split; [done|]. right. split; [done|]. eauto.
  - split; [apply LARGE_nonneg | by left].
Qed.

Lemma sol_test_edge_nonneg `{!ScalarOrder} dt T up fp ep o w r :
  sol_test_edge dt T up fp ep o w = Some r -> (lit 0 <=? r.1)%fl = true.
Proof.
  unfold sol_test_edge. intros Ht.
  apply bind_Some in Ht as (vi & _ & Ht).
  apply bind_Some in Ht as (vj & _ & Ht).
  injection Ht as <-. apply v_edge_nonneg.
Qed.

(** X3: [v_edge] never returns a negative time: it returns LARGE with Q
    untouched, or a time t with 0 <= t < LARGE together with the point
    o + w t + q + u s of the edge, 0 < s < 1.  A negative tangent root of
    [v_sol] is discarded here.  So [sol_test_edge] returns no negative time
    either. *)
Theorem v_edge_time `{!ScalarOrder} Q o q u w p v r :
  let res := v_edge Q o q u w p v r in
  (lit 0 <=? res.1)%fl = true /\
  (res = (LARGE, Q) \/
   (res.1 <? LARGE)%fl = true /\
   exists s, (lit 0 <? s)%fl = true /\ (s <? lit 1)%fl = true /\
     res.2 = v_add (v_mad q u s) (v_mad o w res.1)) /\
  forall dt up fp ep t T,
    sol_test_edge dt Q up fp ep o w = Some (t, T) ->
    (lit 0 <=? t)%fl = true.
Proof.
  intros res. split; [apply v_edge_nonneg|]. split; [apply v_edge_nonneg|].
  intros dt up fp ep t T Ht.
  by apply sol_test_edge_nonneg in Ht.
Qed.

Lemma v_side_nonneg `{!ScalarOrder} Q o w n d p v r :
  (lit 0 <=? (v_side Q o w n d p v r).1)%fl = true /\
  (v_side Q o w n d p v r = (LARGE, Q) \/
   (v_side Q o w n d p v r).2 =
   v_mad (v_mad p v (v_side Q o w n d p v r).1) n (- r)%fl).
Proof.
  unfold v_side.
  destruct (v_dot v n - v_dot w n <=? lit 0)%fl;
    [|split; [apply LARGE_nonneg | by left]].
  set (u := ((r + d + v_dot o n - v_dot p n) / (v_dot v n - v_dot w n))%fl).
  set (a := ((d + v_dot o n - v_dot p n) / (v_dot v n - v_dot w n))%fl).
  destruct (lit 0 <=? u)%fl eqn:Eu; [simpl; auto|].
  destruct (lit 0 <=? a)%fl eqn:Ea; simpl.
  - split; [|by right]. apply fle_lit. discriminate.
  - split; [apply LARGE_nonneg | by left].
Qed.

Lemma sol_test_side_nonneg `{!ScalarOrder} dt T up fp lp si o w r :
  sol_test_side dt T up fp lp si o w = Some r -> (lit 0 <=? r.1)%fl = true.
Proof.
  unfold sol_test_side. intros Ht.
  apply bind_Some in Ht as (sp & _ & Ht).
  pose proof (v_side_nonneg T o w (side_n sp) (side_d sp) (ball_p up)
                (ball_v up) (ball_r up)) as [Hnn _].
  destruct (v_side T o w (side_n sp) (side_d sp) (ball_p up) (ball_v up)
              (ball_r up)) as [t1 T1]. simpl in Hnn.
  destruct (t1 <? dt)%fl; [|by injection Ht as <-].
  apply bind_Some in Ht as ([|] & _ & Ht); injection Ht as <-;
    [apply LARGE_nonneg | done].
Qed.

(** X4: [v_side] never returns a negative time: it returns LARGE with Q
    untouched, or a time t >= 0 together with the point p + v t - n r of
    the ball's surface.  [sol_test_side], which returns that time or LARGE,
    returns no negative time either. *)
Theorem v_side_time `{!ScalarOrder} Q o w n d p v r :
  let res := v_side Q o w n d p v r in
  (lit 0 <=? res.1)%fl = true /\
  (res = (LARGE, Q) \/ res.2 = v_mad (v_mad p v res.1) n (- r)%fl) /\
  forall dt up fp lp si t T,
    sol_test_side dt Q up fp lp si o w = Some (t, T) ->
    (lit 0 <=? t)%fl = true.
Proof.
  intros res. split; [apply v_side_nonneg|]. split; [apply v_side_nonneg|].
  intros dt up fp lp si t T Ht.
  by apply sol_test_side_nonneg in Ht.
Qed.

(** ** Convexity gating: acceptance *)

Lemma sol_test_side_loop_accepts k i0 T t fp lp si o w :
  (forall i, i0 <= i < i0 + Z.of_nat k ->
     exists sj, at_ (iv fp) (lump_s0 lp + i) = Some sj /\
                is_Some (at_ (sv fp) sj)) ->
  (forall i sj sq, i0 <= i < i0 + Z.of_nat k ->
     at_ (iv fp) (lump_s0 lp + i) = Some sj -> sj <> si ->
     at_ (sv fp) sj = Some sq -> outside_side T o w t sq = false) ->
  sol_test_side_loop k i0 T t fp lp si o w = Some false.
Proof.
  revert i0. induction k as [|k IH]; intros i0 Hok Hin; [done|].
  cbn [sol_test_side_loop].
  destruct (Hok i0 ltac:(lia)) as (sj & Hsj & [sq Hsq]).
  rewrite Hsj. run_bind.
  assert (Hrest : sol_test_side_loop k (i0 + 1) T t fp lp si o w
                  = Some false).
  { apply IH.
    - intros i Hi. apply Hok. lia.
    - intros i sj' sq' Hi. apply Hin. lia. }
  destruct (si =? sj) eqn:E; simpl; [done|].
  rewrite Hsq. run_bind. apply Z.eqb_neq in E.
  pose proof (Hin i0 sj sq ltac:(lia) Hsj ltac:(congruence) Hsq) as Ho.
  unfold outside_side in Ho. rewrite Ho. done.
Qed.

(** X5: the other half of the gating of [sol_test_side]: when the contact
    point that [v_side] finds lies outside no other side of the lump,
    the time and the point of [v_side] are returned as they are. *)
Theorem sol_test_side_accepts dt T up fp lp si o w sp t T' :
  lump_sides_ok fp lp ->
  at_ (sv fp) si = Some sp ->
  v_side T o w (side_n sp) (side_d sp) (ball_p up) (ball_v up) (ball_r up)
    = (t, T') ->
  (forall i sj sq, 0 <= i < lump_sc lp ->
     at_ (iv fp) (lump_s0 lp + i) = Some sj -> sj <> si ->
     at_ (sv fp) sj = Some sq -> outside_side T' o w t sq = false) ->
  sol_test_side dt T up fp lp si o w = Some (t, T').
Proof.
  intros Hok Hsp Hside Hin. unfold sol_test_side.
  rewrite Hsp. run_bind. rewrite Hside.
  destruct (t <? dt)%fl; [|done].
  rewrite sol_test_side_loop_accepts; [done| |].
  - intros i Hi. apply Hok. lia.
  - intros i sj sq Hi. apply Hin. lia.
Qed.

(** ** The time budget of the contact tests *)

Lemma for_from_inv {St} (I : St -> Prop) k i
    (body : Z -> St -> option St) s s' :
  I s ->
  (forall j s s', I s -> body j s = Some s' -> I s') ->
  for_from k i body s = Some s' -> I s'.
Proof.
  intros Hs Hbody. revert i s Hs. induction k as [|k IH]; intros i s Hs Hk.
  - by injection Hk as <-.
  - cbn [for_from] in Hk. apply bind_Some in Hk as (s1 & H1 & Hk).
    eapply IH; [|exact Hk]. eauto.
Qed.

Section Budget.

Context `{!ScalarStrict}.

Lemma keep_min_budget dt T0 r s :
  budget_or_before dt T0 (s.1.1, s.1.2) ->
  budget_or_before dt T0 ((keep_min r s).1.1, (keep_min r s).1.2).
Proof.
  destruct r as [u U], s as [[t T] U0]. unfold keep_min; simpl.
  intros Hs. destruct (u <? t)%fl eqn:E; simpl; [|done].
  right; simpl. destruct Hs as [Hs|Hs]; simpl in Hs.
  - by injection Hs as <- _.
  - eapply flt_trans; eauto.
Qed.

Lemma sol_test_lump_budget dt T up fp lp o w r :
  sol_test_lump dt T up fp lp o w = Some r -> budget_or_before dt T r.
Proof.
  unfold sol_test_lump.
  destruct (negb _); [intros [= <-]; by left|]. intros Hr.
  set (I := fun s : F * vec * vec => budget_or_before dt T (s.1.1, s.1.2)).
  assert (H0 : I (dt, T, v_zero)) by (by left).
  apply bind_Some in Hr as (s1 & E1 & Hr).
  apply bind_Some in Hr as (s2 & E2 & Hr).
  apply bind_Some in Hr as ([[t3 T3] U3] & E3 & Hr).
  injection Hr as <-.
  assert (H1 : I s1).
  { destruct (ball_r up >? lit 0)%fl; [|by injection E1 as <-].
    eapply (for_from_inv I); [exact H0| |exact E1].
    intros j [[t T1] U] s' Hs Hb. run_bind in Hb.
    apply bind_Some in Hb as (vi & _ & Hb).
    apply bind_Some in Hb as (vp & _ & Hb). injection Hb as <-.
    by apply keep_min_budget. }
  assert (H2 : I s2).
  { destruct (ball_r up >? lit 0)%fl; [|by injection E2 as <-].
    eapply (for_from_inv I); [exact H1| |exact E2].
    intros j [[t T1] U] s' Hs Hb.
    apply bind_Some in Hb as (ei & _ & Hb).
    apply bind_Some in Hb as (ep & _ & Hb).
    apply bind_Some in Hb as (r & _ & Hb). injection Hb as <-.
    by apply keep_min_budget. }
  change (I (t3, T3, U3)).
  eapply (for_from_inv I); [exact H2| |exact E3].
  intros j [[t T1] U] s' Hs Hb.
  apply bind_Some in Hb as (si & _ & Hb).
  apply bind_Some in Hb as (r & _ & Hb). injection Hb as <-.
  by apply keep_min_budget.
Qed.

(** X6: [sol_test_node], and [sol_test_lump] below it, never return a time
    after the budget dt: the result is dt with T untouched (no contact), or
    a time strictly before dt. *)
Theorem sol_test_node_budget fuel dt T up fp np o w r :
  sol_test_node fuel dt T up fp np o w = Some r ->
  budget_or_before dt T r /\
  forall lp r', sol_test_lump dt T up fp lp o w = Some r' ->
    budget_or_before dt T r'.
Proof.
  intros Hr. split; [|intros lp r'; apply sol_test_lump_budget].
  destruct fuel as [|fuel]; [discriminate|]. cbn [sol_test_node] in Hr.
  set (I := fun s : F * vec * vec => budget_or_before dt T (s.1.1, s.1.2)).
  apply bind_Some in Hr as (s1 & E1 & Hr).
  apply bind_Some in Hr as (s2 & E2 & Hr).
  apply bind_Some in Hr as ([[t3 T3] U3] & E3 & Hr).
  injection Hr as <-.
  assert (H1 : I s1).
  { eapply (for_from_inv I); [|  |exact E1]; [by left|].
    intros j [[t T1] U] s' Hs Hb.
    apply bind_Some in Hb as (lp & _ & Hb).
    apply bind_Some in Hb as (r & _ & Hb). injection Hb as <-.
    by apply keep_min_budget. }
  assert (Hchild : forall (c : bool) (sp : option s_side)
            (test : s_side -> bool) (nq : option s_node) s s',
            I s ->
            (let '(t, T, U) := s in
             if c then
               sp ← sp;
               if test sp then
                 nq ← nq;
                 r ← sol_test_node fuel t U up fp nq o w;
                 Some (keep_min r s)
               else Some s
             else Some s) = Some s' -> I s').
  { intros c sp test nq [[t T1] U] s' Hs Hb.
    destruct c; [|by injection Hb as <-].
    apply bind_Some in Hb as (sq & _ & Hb).
    destruct (test sq); [|by injection Hb as <-].
    apply bind_Some in Hb as (nq' & _ & Hb).
    apply bind_Some in Hb as (r & _ & Hb). injection Hb as <-.
    by apply keep_min_budget. }
  assert (H2 : I s2).
  { destruct s1 as [[t T1] U].
    eapply (Hchild _ _ (fun sp => sol_test_fore t up sp o w));
      [exact H1 | exact E2]. }
  change (I (t3, T3, U3)).
  destruct s2 as [[t T2] U].
  eapply (Hchild _ _ (fun sp => sol_test_back t up sp o w));
    [exact H2 | exact E3].
Qed.

Lemma sol_test_body_budget fuel dt T V up fp bp t' T' V' :
  sol_test_body fuel dt T V up fp bp = Some (t', T', V') ->
  (t', T', V') = (dt, T, V) \/ (t' <? dt)%fl = true.
Proof.
  unfold sol_test_body. intros Hb.
  apply bind_Some in Hb as (np & _ & Hb).
  apply bind_Some in Hb as (O & _ & Hb).
  apply bind_Some in Hb as (W & _ & Hb).
  apply bind_Some in Hb as ([u U] & _ & Hb).
  destruct (u <? dt)%fl eqn:E; injection Hb as <- <- <-; auto.
Qed.

Lemma sol_test_file_loop_budget fuel bs t T V up fp t' T' V' :
  sol_test_file_loop fuel bs t T V up fp = Some (t', T', V') ->
  (t', T', V') = (t, T, V) \/ (t' <? t)%fl = true.
Proof.
  revert t T V. induction bs as [|bp bs IH]; intros t T V Hl.
  - left. by injection Hl as <- <- <-.
  - cbn [sol_test_file_loop] in Hl.
    apply bind_Some in Hl as ([[u U] W] & _ & Hl).
    destruct (u <? t)%fl eqn:E.
    + right. apply IH in Hl as [Hl|Hl].
      * by injection Hl as -> _ _.
      * eapply flt_trans; eauto.
    + by apply IH.
Qed.

(** X7: [sol_test_file] never returns a time after the budget dt: the
    result is dt with T and V untouched (no body is struck), or a time
    strictly before dt.  The same holds of [sol_test_body]. *)
Theorem sol_test_file_budget fuel dt T V up fp t' T' V' :
  sol_test_file fuel dt T V up fp = Some (t', T', V') ->
  ((t', T', V') = (dt, T, V) \/ (t' <? dt)%fl = true) /\
  forall bp t1 T1 V1,
    sol_test_body fuel dt T V up fp bp = Some (t1, T1, V1) ->
    (t1, T1, V1) = (dt, T, V) \/ (t1 <? dt)%fl = true.
Proof.
  intros Hf. split; [eapply sol_test_file_loop_budget; exact Hf|].
  intros bp t1 T1 V1. apply sol_test_body_budget.
Qed.

(** ** Detail lumps *)

Lemma sol_test_lump_detail dt T up fp lp o w :
  Z.land (lump_fl lp) L_DETAIL <> 0 ->
  sol_test_lump dt T up fp lp o w = Some (dt, T).
Proof.
  intros Hd'. unfold sol_test_lump.
  apply Z.eqb_neq in Hd'. by rewrite Hd'.
Qed.

Lemma keep_min_same t T U U' : keep_min (t, U') (t, T, U) = (t, T, U').
Proof. unfold keep_min. by rewrite flt_irrefl. Qed.

Lemma sol_test_node_detail fuel up fp o w :
  all_detail fp ->
  forall dt T np r,
    sol_test_node fuel dt T up fp np o w = Some r -> r = (dt, T).
Proof.
  intros Hall. induction fuel as [|fuel IH]; intros dt T np r Hr;
    [discriminate|].
  cbn [sol_test_node] in Hr.
  set (I := fun s : F * vec * vec => (s.1.1, s.1.2) = (dt, T)).
  apply bind_Some in Hr as (s1 & E1 & Hr).
  apply bind_Some in Hr as (s2 & E2 & Hr).
  apply bind_Some in Hr as ([[t3 T3] U3] & E3 & Hr).
  injection Hr as <-.
  assert (H1 : I s1).
  { eapply (for_from_inv I); [|  |exact E1]; [done|].
    intros j [[t T1] U] s' Hs Hb.
    apply bind_Some in Hb as (lp & Hlp & Hb).
    rewrite sol_test_lump_detail in Hb.
    - run_bind in Hb. injection Hb as <-. by rewrite flt_irrefl.
    - apply Hall. apply at_Some in Hlp as [_ Hlp].
      by eapply list_elem_of_lookup_2. }
  assert (Hchild : forall (c : bool) (sp : option s_side)
            (test : s_side -> bool) (nq : option s_node) s s',
            I s ->
            (let '(t, T, U) := s in
             if c then
               sp ← sp;
               if test sp then
                 nq ← nq;
                 r ← sol_test_node fuel t U up fp nq o w;
                 Some (keep_min r s)
               else Some s
             else Some s) = Some s' -> I s').
  { intros c sp test nq [[t T1] U] s' Hs Hb.
    destruct c; [|by injection Hb as <-].
    apply bind_Some in Hb as (sq & _ & Hb).
    destruct (test sq); [|by injection Hb as <-].
    apply bind_Some in Hb as (nq' & _ & Hb).
    apply bind_Some in Hb as (r & Hr & Hb). injection Hb as <-.
    apply IH in Hr as ->. by rewrite keep_min_same. }
  assert (H2 : I s2).
  { destruct s1 as [[t T1] U].
    eapply (Hchild _ _ (fun sp => sol_test_fore t up sp o w));
      [exact H1 | exact E2]. }
  change (I (t3, T3, U3)).
  destruct s2 as [[t T2] U].
  eapply (Hchild _ _ (fun sp => sol_test_back t up sp o w));
    [exact H2 | exact E3].
Qed.

Lemma sol_test_file_loop_detail fuel bs t T V up fp r :
  all_detail fp ->
  sol_test_file_loop fuel bs t T V up fp = Some r -> r = (t, T, V).
Proof.
  intros Hall. induction bs as [|bp bs IH]; intros Hl.
  - by injection Hl as <-.
  - cbn [sol_test_file_loop] in Hl.
    apply bind_Some in Hl as ([[u U] W] & Hb & Hl).
    unfold sol_test_body in Hb.
    apply bind_Some in Hb as (np & _ & Hb).
    apply bind_Some in Hb as (O & _ & Hb).
    apply bind_Some in Hb as (W' & _ & Hb).
    apply bind_Some in Hb as ([u' U'] & Hn & Hb).
    apply sol_test_node_detail in Hn; [|done]. injection Hn as -> ->.
    rewrite flt_irrefl in Hb. injection Hb as <- <- <-.
    rewrite flt_irrefl in Hl. by apply IH.
Qed.

End Budget.

(** ** What a step leaves alone *)

Lemma uv_set_lookup fp ui up fp' :
  uv_set fp ui up = Some fp' ->
  0 <= ui /\ uv fp' = <[Z.to_nat ui := up]> (uv fp) /\
  at_ (uv fp') ui = Some up.
Proof.
  unfold uv_set. intros Hs. apply bind_Some in Hs as (up0 & Hup & Hs).
  injection Hs as <-. apply at_Some in Hup as [Hi Hup].
  split; [done|]. split; [done|]. apply at_Some. split; [done|]. simpl.
  apply list_lookup_insert_eq. by eapply lookup_lt_Some.
Qed.

Section Preserved.

Variable ui : Z.
Variable R : s_file -> s_file -> Prop.
Hypothesis R_refl : forall fp, R fp fp.
Hypothesis R_trans : forall fp1 fp2 fp3, R fp1 fp2 -> R fp2 fp3 -> R fp1 fp3.
Hypothesis R_body : forall fp dt fp',
  sol_body_step fp dt = Some fp' -> R fp fp'.
Hypothesis R_swch : forall fuel fp dt fp',
  sol_swch_step fuel fp dt = Some fp' -> R fp fp'.
Hypothesis R_ball : forall fp dt, R fp (sol_ball_step fp dt).
Hypothesis R_uv : forall fp up0 up fp',
  at_ (uv fp) ui = Some up0 -> ball_r up = ball_r up0 ->
  uv_set fp ui up = Some fp' -> R fp fp'.

Lemma sol_step_friction_preserves fuel P V fp g dt m fp1 m1 P1 V1 a :
  sol_step_friction fuel P V fp g dt ui m = Some (fp1, m1, P1, V1, a) ->
  R fp fp1.
Proof.
  unfold sol_step_friction. intros Hf.
  apply bind_Some in Hf as (up & Hup & Hf).
  apply bind_Some in Hf as (fp0 & H0 & Hf).
  assert (R0 : R fp fp0) by (eapply R_uv; [exact Hup| |exact H0]; done).
  apply uv_set_lookup in H0 as (_ & _ & Hup0).
  assert (Hset' : forall up' m' P' V',
            ball_r up' = ball_r up ->
            (fp' ← uv_set fp0 ui up'; Some (fp', m', P', V', ball_v up))
            = Some (fp1, m1, P1, V1, a) -> R fp fp1).
  { intros up' m' P' V' Hr Hs.
    apply bind_Some in Hs as (fp2 & H2 & Hs).
    assert (fp2 = fp1) as -> by congruence.
    eapply R_trans; [exact R0|]. eapply R_uv; [exact Hup0| |exact H2]. done. }
  destruct m as [mv|]; [|by eapply Hset'; [|exact Hf]].
  apply bind_Some in Hf as ([[t P'] V'] & _ & Hf).
  repeat match type of Hf with
         | (if ?c then _ else _) = _ => destruct c
         end; (eapply Hset'; [|exact Hf]); done.
Qed.

Lemma sol_step_bounce_preserves fuel c fp tt b nt P V s :
  sol_step_bounce fuel ui c fp tt b nt P V = Some s -> R fp (ls_fp s).
Proof.
  unfold sol_step_bounce. intros Hb.
  apply bind_Some in Hb as (fp1 & H1 & Hb).
  apply bind_Some in Hb as (fp2 & H2 & Hb).
  apply bind_Some in Hb as (up & Hup & Hb).
  destruct (sol_bounce up P V nt) as [d up'] eqn:Ebounce.
  apply bind_Some in Hb as (fp3 & H3 & Hb). injection Hb as <-. simpl.
  eapply R_trans; [eapply R_body; exact H1|].
  eapply R_trans; [eapply R_swch; exact H2|].
  eapply R_trans; [apply (R_ball fp2 nt)|].
  eapply R_uv; [exact Hup| |exact H3].
  unfold sol_bounce in Ebounce. by injection Ebounce as _ <-.
Qed.

Lemma sol_step_loop_preserves fuel c fp tt b P V s :
  sol_step_loop fuel ui c fp tt b P V = Some s -> R fp (ls_fp s).
Proof.
  revert fp tt b P V. induction c as [|c IH]; intros fp tt b P V Hl.
  - injection Hl as <-. apply R_refl.
  - cbn [sol_step_loop] in Hl.
    destruct (tt >? lit 0)%fl; [|injection Hl as <-; apply R_refl].
    apply bind_Some in Hl as (up & _ & Hl).
    apply bind_Some in Hl as ([[nt P'] V'] & _ & Hl).
    destruct (tt >? nt)%fl; [|injection Hl as <-; apply R_refl].
    apply bind_Some in Hl as (s1 & H1 & Hl).
    eapply R_trans; [eapply sol_step_bounce_preserves; exact H1|].
    eapply IH; exact Hl.
Qed.

Lemma sol_step_rest_preserves fuel fp g dt tt a fp' :
  sol_step_rest fuel fp g dt tt ui a = Some fp' -> R fp fp'.
Proof.
  unfold sol_step_rest. intros Hr.
  apply bind_Some in Hr as (fp1 & H1 & Hr).
  apply bind_Some in Hr as (fp2 & H2 & Hr).
  apply bind_Some in Hr as (up & Hup & Hr).
  eapply R_trans; [eapply R_body; exact H1|].
  eapply R_trans; [eapply R_swch; exact H2|].
  eapply R_trans; [apply (R_ball fp2 tt)|].
  eapply R_uv; [exact Hup| |exact Hr]. done.
Qed.

Lemma sol_step_preserves fuel P V fp g dt m b fp' m' :
  sol_step fuel P V fp g dt ui m = Some (b, fp', m') -> R fp fp'.
Proof.
  unfold sol_step. intros Hs.
  destruct (ui <? Z.of_nat (length (uv fp)));
    [|injection Hs as _ <- _; apply R_refl].
  apply bind_Some in Hs as ([[[[fp1 m1] P1] V1] a] & H1 & Hs).
  apply bind_Some in Hs as (s & H2 & Hs).
  apply bind_Some in Hs as (fp3 & H3 & Hs). injection Hs as _ <- _.
  eapply R_trans; [eapply sol_step_friction_preserves; exact H1|].
  eapply R_trans; [eapply sol_step_loop_preserves; exact H2|].
  eapply sol_step_rest_preserves; exact H3.
Qed.

End Preserved.

Lemma same_static_refl fp : same_static fp fp.
Proof. by split. Qed.

Lemma same_static_trans fp1 fp2 fp3 :
  same_static fp1 fp2 -> same_static fp2 fp3 -> same_static fp1 fp3.
Proof. intros [] []. split; congruence. Qed.

Lemma pv_set_f_static pv i f pv' :
  pv_set_f pv i f = Some pv' -> path_static <$> pv' = path_static <$> pv.
Proof.
  unfold pv_set_f. intros Hs. apply bind_Some in Hs as (pp & Hpp & Hs).
  injection Hs as <-. apply at_Some in Hpp as [_ Hpp].
  rewrite list_fmap_insert. apply list_insert_id.
  by rewrite list_lookup_fmap, Hpp.
Qed.

Lemma cycle_traverser_static fuel pv f pi pj pv' :
  cycle_traverser fuel pv f pi pj = Some pv' ->
  path_static <$> pv' = path_static <$> pv.
Proof.
  revert pv pi pj. induction fuel as [|fuel IH]; intros pv pi pj Ht;
    [discriminate|].
  cbn [cycle_traverser] in Ht.
  apply bind_Some in Ht as (pv1 & H1 & Ht).
  apply bind_Some in Ht as (pv2 & H2 & Ht).
  apply bind_Some in Ht as (pp & _ & Ht).
  apply bind_Some in Ht as (pq & _ & Ht).
  apply bind_Some in Ht as (pq' & _ & Ht).
  apply pv_set_f_static in H1, H2.
  destruct (negb _).
  - apply IH in Ht. congruence.
  - injection Ht as <-. congruence.
Qed.

Lemma swch_step1_static fuel dt xp pv xp' pv' :
  swch_step1 fuel dt xp pv = Some (xp', pv') ->
  swch_static xp' = swch_static xp /\
  path_static <$> pv' = path_static <$> pv.
Proof.
  unfold swch_step1. intros Hs.
  destruct (swch_t xp >? lit 0)%fl; [|by injection Hs as <- <-].
  cbn [swch_t swch_set_t] in Hs.
  destruct (swch_t xp - dt <=? lit 0)%fl; [|by injection Hs as <- <-].
  apply bind_Some in Hs as (pv1 & H1 & Hs). injection Hs as <- <-.
  split; [done|]. by eapply cycle_traverser_static.
Qed.

Lemma swch_step_loop_static fuel dt xs pv xs' pv' :
  swch_step_loop fuel dt xs pv = Some (xs', pv') ->
  swch_static <$> xs' = swch_static <$> xs /\
  path_static <$> pv' = path_static <$> pv.
Proof.
  revert pv xs'. induction xs as [|xp xs IH]; intros pv xs' Hl.
  - by injection Hl as <- <-.
  - cbn [swch_step_loop] in Hl.
    apply bind_Some in Hl as ([xp1 pv1] & H1 & Hl).
    apply bind_Some in Hl as ([xs1 pv2] & H2 & Hl).
    injection Hl as <- <-.
    apply swch_step1_static in H1 as [Hx Hp].
    apply IH in H2 as [Hxs Hps]. split; [|congruence].
    rewrite !fmap_cons. congruence.
Qed.

Lemma sol_swch_step_static fuel fp dt fp' :
  sol_swch_step fuel fp dt = Some fp' ->
  same_static fp fp' /\ uv fp' = uv fp /\ bv fp' = bv fp.
Proof.
  unfold sol_swch_step. intros Hs.
  apply bind_Some in Hs as ([xs ps] & Hl & Hs). injection Hs as <-.
  apply swch_step_loop_static in Hl as [Hx Hp]. by repeat split.
Qed.

Lemma body_step1_ni pv dt bp bp' :
  body_step1 pv dt bp = Some bp' -> body_ni bp' = body_ni bp.
Proof.
  unfold body_step1. intros Hs.
  destruct (0 <=? body_pi bp); [|by injection Hs as <-].
  apply bind_Some in Hs as (pp & _ & Hs).
  destruct (negb _); [|by injection Hs as <-].
  destruct (body_t bp + dt >=? path_t pp)%fl; by injection Hs as <-.
Qed.

Lemma sol_body_step_static fp dt fp' :
  sol_body_step fp dt = Some fp' ->
  same_static fp fp' /\ uv fp' = uv fp /\ pv fp' = pv fp /\ xv fp' = xv fp.
Proof.
  unfold sol_body_step. intros Hs.
  apply bind_Some in Hs as (bs & Hbs & Hs). injection Hs as <-.
  split; [|done]. split; try done. simpl.
  apply mapM_Some_1 in Hbs. induction Hbs as [|bp bp' bs bs' H1 _ IH];
    [done|].
  rewrite !fmap_cons, IH. f_equal. by eapply body_step1_ni.
Qed.

Lemma sol_ball_step_static fp dt : same_static fp (sol_ball_step fp dt).
Proof.
  split; try done. simpl. induction (uv fp) as [|up us IH]; [done|].
  simpl. by f_equal.
Qed.

Lemma uv_set_static fp ui up0 up fp' :
  at_ (uv fp) ui = Some up0 -> ball_r up = ball_r up0 ->
  uv_set fp ui up = Some fp' -> same_static fp fp'.
Proof.
  intros Hup Hr Hs. unfold uv_set in Hs. rewrite Hup in Hs.
  injection Hs as <-. split; try done. simpl.
  apply at_Some in Hup as [_ Hup].
  rewrite list_fmap_insert. apply list_insert_id.
  by rewrite list_lookup_fmap, Hup, Hr.
Qed.

(** X8: whatever [sol_step] does, it leaves the geometry of the level as
    it was loaded: vertices, edges, sides, lumps, nodes, the index list and
    the items are unchanged; the path points keep their position, duration,
    successor and smoothing; the switches keep their position, radius, path,
    period, default state and visibility; the bodies keep their node; the
    balls keep their radius. *)
Theorem sol_step_static fuel P V fp g dt ui m b fp' m' :
  sol_step fuel P V fp g dt ui m = Some (b, fp', m') -> same_static fp fp'.
Proof.
  apply (sol_step_preserves ui same_static).
  - apply same_static_refl.
  - apply same_static_trans.
  - intros fp0 dt0 fp1 Hs. by apply sol_body_step_static in Hs as [Hs _].
  - intros fuel0 fp0 dt0 fp1 Hs.
    by apply sol_swch_step_static in Hs as [Hs _].
  - apply sol_ball_step_static.
  - intros fp0 up0 up fp1. apply uv_set_static.
Qed.

Lemma ball_step1_motion dt up : ball_motion (ball_step1 dt up) = ball_motion up.
Proof. done. Qed.

(** X9: [sol_step] for the ball ui changes the velocity, the spin, the
    pendulum and the radius of no other ball of the level; nor does
    [sol_ball_step], which moves every ball, change these for any ball. *)
Theorem sol_step_others fuel P V fp g dt ui m b fp' m' :
  sol_step fuel P V fp g dt ui m = Some (b, fp', m') ->
  others_kept ui fp fp' /\
  forall fp0 dt0 uj,
    ball_motion <$> at_ (uv (sol_ball_step fp0 dt0)) uj
    = ball_motion <$> at_ (uv fp0) uj.
Proof.
  assert (Hball : forall fp0 dt0 uj,
            ball_motion <$> at_ (uv (sol_ball_step fp0 dt0)) uj
            = ball_motion <$> at_ (uv fp0) uj).
  { intros fp0 dt0 uj. unfold at_. destruct (uj <? 0); [done|]. simpl.
    change (map (ball_step1 dt0) (uv fp0)) with (ball_step1 dt0 <$> uv fp0).
    rewrite list_lookup_fmap. by destruct (uv fp0 !! Z.to_nat uj). }
  intros Hs. split; [|exact Hball]. revert Hs.
  apply (sol_step_preserves ui (others_kept ui)).
  - by intros fp0 uj _.
  - intros fp1 fp2 fp3 H12 H23 uj Hj. by rewrite H23, H12.
  - intros fp0 dt0 fp1 Hs uj _.
    apply sol_body_step_static in Hs as (_ & -> & _). done.
  - intros fuel0 fp0 dt0 fp1 Hs uj _.
    apply sol_swch_step_static in Hs as (_ & -> & _). done.
  - intros fp0 dt0 uj _. apply Hball.
  - intros fp0 up0 up fp1 Hup _ Hs uj Hj.
    unfold uv_set in Hs. rewrite Hup in Hs. injection Hs as <-. simpl.
    apply at_Some in Hup as [Hi _]. unfold at_.
    destruct (Z.ltb_spec uj 0); [done|].
    rewrite list_lookup_insert_ne; [done|]. lia.
Qed.

Section Detail.

Context `{!ScalarStrict}.

Lemma sol_step_loop_detail fuel ui c fp tt b P V s :
  all_detail fp ->
  sol_step_loop fuel ui c fp tt b P V = Some s ->
  s = {| ls_c := c; ls_fp := fp; ls_tt := tt; ls_b := b |}.
Proof.
  intros Hall Hl. destruct c as [|c]; [by injection Hl as <-|].
  cbn [sol_step_loop] in Hl.
  destruct (tt >? lit 0)%fl; [|by injection Hl as <-].
  apply bind_Some in Hl as (up & _ & Hl).
  apply bind_Some in Hl as ([[nt P'] V'] & Hf & Hl).
  apply sol_test_file_loop_detail in Hf; [|done].
  injection Hf as -> _ _. rewrite flt_irrefl in Hl. by injection Hl as <-.
Qed.

(** X10: detail lumps are never collided with.  On a level all of whose
    lumps carry the flag L_DETAIL, [sol_test_file] reports no contact: it
    returns the budget dt and leaves T and V untouched; and [sol_step]
    resolves no contact and returns the energy 0. *)
Theorem sol_step_detail fuel P V fp g dt ui m b fp' m' :
  all_detail fp ->
  sol_step fuel P V fp g dt ui m = Some (b, fp', m') ->
  b = lit 0 /\
  sol_step_contacts fuel P V fp g dt ui m = Some 0%nat /\
  forall dt' T' V' up r,
    sol_test_file fuel dt' T' V' up fp = Some r -> r = (dt', T', V').
Proof.
  intros Hall Hs. split; [|split].
  - unfold sol_step in Hs.
    destruct (ui <? Z.of_nat (length (uv fp))); [|by injection Hs as <- _ _].
    apply bind_Some in Hs as ([[[[fp1 m1] P1] V1] a] & H1 & Hs).
    apply bind_Some in Hs as (s & H2 & Hs).
    apply bind_Some in Hs as (fp3 & H3 & Hs). injection Hs as <- _ _.
    apply sol_step_loop_detail in H2 as ->; [done|].
    apply (sol_step_friction_preserves ui
             (fun fp fp' => all_detail fp -> all_detail fp')) in H1; auto.
    intros fp0 up0 up fp4 _ _ Hset. unfold uv_set in Hset.
    apply bind_Some in Hset as (? & _ & Hset). by injection Hset as <-.
  - unfold sol_step in Hs. unfold sol_step_contacts.
    destruct (ui <? Z.of_nat (length (uv fp))); [|done].
    apply bind_Some in Hs as ([[[[fp1 m1] P1] V1] a] & H1 & Hs).
    apply bind_Some in Hs as (s & H2 & Hs). rewrite H1. run_bind.
    rewrite H2. run_bind.
    apply sol_step_loop_detail in H2 as ->; [done|].
    apply (sol_step_friction_preserves ui
             (fun fp fp' => all_detail fp -> all_detail fp')) in H1; auto.
    intros fp0 up0 up fp4 _ _ Hset. unfold uv_set in Hset.
    apply bind_Some in Hset as (? & _ & Hset). by injection Hset as <-.
  - intros dt' T' V' up r. by apply sol_test_file_loop_detail.
Qed.

End Detail.


(** ** Stepping again *)

Lemma sol_step_rest_steppable fuel fp g dt tt ui a :
  steppable fuel ui fp ->
  exists fp', sol_step_rest fuel fp g dt tt ui a = Some fp' /\
    steppable fuel ui fp'.
Proof.
  intros Hst. unfold sol_step_rest.
  destruct (sol_body_step_total fuel fp tt) as (fp1 & -> & Hsf1);
    [apply Hst|].
  pose proof (steppable_frame _ _ _ _ Hst Hsf1) as Hst1. run_bind.
  destruct (sol_swch_step_total fuel fp1 tt) as (fp2 & -> & Hsf2);
    [apply Hst1|].
  pose proof (steppable_frame _ _ _ _ Hst1 Hsf2) as Hst2. run_bind.
  pose proof (steppable_frame _ _ _ _ Hst2 (sol_ball_step_frame fp2 tt))
    as Hst3.
  destruct Hst3 as [Hwf3 [up Hup]]. rewrite Hup. run_bind.
  destruct (uv_set_total (sol_ball_step fp2 tt) ui
              (sol_pendulum up (v_sub (ball_v up) a) g dt))
    as (fp4 & -> & Hsf4 & _); [by eexists|].
  eexists. split; [done|].
  eapply steppable_frame; [|exact Hsf4]. split; [done | by eexists].
Qed.

(** X12: [sol_step] keeps a level well formed.  On a well-formed level and
    for any ball index that is not negative, it returns, and the level it
    leaves is well formed again, with as many balls: so does every
    later call, for any ball of the level and any time step. *)
Theorem sol_step_keeps_wf fuel P V fp g dt ui m :
  WF fuel fp ->
  0 <= ui ->
  exists b fp' m',
    sol_step fuel P V fp g dt ui m = Some (b, fp', m') /\
    WF fuel fp' /\ length (uv fp') = length (uv fp).
Proof.
  intros Hwf Hui.
  destruct (Z.ltb_spec ui (Z.of_nat (length (uv fp)))) as [Hlt|Hge].
  - assert (Hst : steppable fuel ui fp).
    { split; [done | by apply at_is_Some]. }
    destruct (sol_step_friction_total fuel P V fp g dt ui m Hst)
      as (fp1 & m1 & P1 & V1 & a & Hfr & Hst1).
    destruct (sol_step_loop_runs fuel ui 16 fp1 dt (lit 0) P1 V1 Hst1)
      as (s & n & Hloop & _ & _ & Hsts).
    destruct (sol_step_rest_steppable fuel (ls_fp s) g dt (ls_tt s) ui a
                Hsts) as (fp' & Hrest & Hst').
    assert (Hs : sol_step fuel P V fp g dt ui m = Some (ls_b s, fp', m1)).
    { unfold sol_step.
      destruct (Z.ltb_spec ui (Z.of_nat (length (uv fp)))); [|lia].
      rewrite Hfr. run_bind. rewrite Hloop. run_bind. by rewrite Hrest. }
    exists (ls_b s), fp', m1. split; [done|]. split; [apply Hst'|].
    revert Hs.
    apply (sol_step_preserves ui
             (fun fp fp' => length (uv fp') = length (uv fp))).
    + done.
    + intros fp2 fp3 fp4 H23 H34. congruence.
    + intros fp0 dt0 fp2 Hs.
      by apply sol_body_step_static in Hs as (_ & -> & _).
    + intros fuel0 fp0 dt0 fp2 Hs.
      by apply sol_swch_step_static in Hs as (_ & -> & _).
    + intros fp0 dt0. simpl. apply length_map.
    + intros fp0 up0 up fp2 _ _ Hs.
      apply uv_set_lookup in Hs as (_ & -> & _). apply length_insert.
  - exists (lit 0), fp, m. unfold sol_step.
    destruct (Z.ltb_spec ui (Z.of_nat (length (uv fp)))); [lia|done].
Qed.

(** ** Switches *)

Lemma static_links (pv pv' : list s_path) :
  path_static <$> pv' = path_static <$> pv ->
  path_pi <$> pv' = path_pi <$> pv.
Proof.
  intros Hs.
  assert (Hc : forall l : list s_path,
            path_pi <$> l = (fun s => s.1.2) <$> (path_static <$> l)).
  { intros l. rewrite <- list_fmap_compose. done. }
  by rewrite !Hc, Hs.
Qed.

Lemma static_swch_pi (xs xs' : list s_swch) :
  swch_static <$> xs' = swch_static <$> xs ->
  swch_pi <$> xs' = swch_pi <$> xs.
Proof.
  intros Hs.
  assert (Hc : forall l : list s_swch,
            swch_pi <$> l = (fun s => s.1.1.1.2) <$> (swch_static <$> l)).
  { intros l. rewrite <- list_fmap_compose. done. }
  by rewrite !Hc, Hs.
Qed.

Lemma pv_set_f_other pv k f pv' i :
  pv_set_f pv k f = Some pv' -> i <> k -> at_ pv' i = at_ pv i.
Proof.
  unfold pv_set_f. intros Hs Hik.
  apply bind_Some in Hs as (pp & Hpp & Hs). injection Hs as <-.
  apply at_Some in Hpp as [Hk _]. unfold at_.
  destruct (Z.ltb_spec i 0); [done|].
  rewrite list_lookup_insert_ne; [done|]. lia.
Qed.

(* The traverser writes to no path point outside a set that holds its two
   cursors and is closed under successors. *)
Lemma cycle_traverser_outside (S : Z -> Prop) pv0 :
  (forall i j, S i -> succ pv0 i = Some j -> S j) ->
  forall fuel pv f pi pj pv',
    path_pi <$> pv = path_pi <$> pv0 -> S pi -> S pj ->
    cycle_traverser fuel pv f pi pj = Some pv' ->
    forall i, ~ S i -> at_ pv' i = at_ pv i.
Proof.
  intros Hclosed. induction fuel as [|fuel IH];
    intros pv f pi pj pv' Hl Hpi Hpj Ht i Hi; [discriminate|].
  cbn [cycle_traverser] in Ht.
  apply bind_Some in Ht as (pv1 & H1 & Ht).
  apply bind_Some in Ht as (pv2 & H2 & Ht).
  apply bind_Some in Ht as (pp & Hpp & Ht).
  apply bind_Some in Ht as (pq & Hpq & Ht).
  apply bind_Some in Ht as (pq' & Hpq' & Ht).
  assert (Hl2 : path_pi <$> pv2 = path_pi <$> pv0).
  { apply pv_set_f_static, static_links in H1, H2. congruence. }
  assert (Hi2 : at_ pv2 i = at_ pv i).
  { rewrite (pv_set_f_other _ _ _ _ i H2) by (intros ->; done).
    apply (pv_set_f_other _ _ _ _ i H1). by intros ->. }
  assert (Hs : forall a pa, S a -> at_ pv2 a = Some pa -> S (path_pi pa)).
  { intros a pa Ha Hpa. apply (Hclosed a); [done|].
    rewrite <- (succ_links _ _ _ Hl2). unfold succ. by rewrite Hpa. }
  destruct (negb _).
  - rewrite <- Hi2.
    apply (IH pv2 f (path_pi pp) (path_pi pq') pv'); eauto.
  - by injection Ht as <-.
Qed.

Lemma path_cycle_closed pv cyc i j :
  path_cycle pv cyc -> i ∈ cyc -> succ pv i = Some j -> j ∈ cyc.
Proof.
  intros [_ Hc] Hin Hj. apply list_elem_of_lookup in Hin as [k Hk].
  destruct (Hc k i Hk) as (j' & Hj' & Hk').
  assert (j' = j) as -> by congruence. by eapply list_elem_of_lookup_2.
Qed.

(* The traverser on a path cycle, started on its first point: it returns,
   every point of the cycle carries the flag, and nothing else has
   changed. *)
Lemma cycle_traverser_cycle fuel pv f cyc x :
  path_cycle pv cyc ->
  head cyc = Some x ->
  (length cyc <= fuel)%nat ->
  exists pv', cycle_traverser fuel pv f x x = Some pv' /\
    (forall i, i ∈ cyc -> flagged pv' f i) /\
    (forall i, i ∉ cyc -> at_ pv' i = at_ pv i) /\
    path_static <$> pv' = path_static <$> pv.
Proof.
  intros Hc Hx Hfuel.
  assert (Hx0 : cyc !! 0%nat = Some x) by by destruct cyc.
  assert (HN : (0 < length cyc)%nat) by (destruct cyc; [done | simpl; lia]).
  destruct (cycle_traverser_from pv f cyc Hc (length cyc) 0 pv x x)
    as (pv' & Hrun & _ & Hl & Hfl); try done; try lia.
  { by rewrite Nat.mul_0_r, Nat.Div0.mod_0_l. }
  specialize (Hrun fuel Hfuel). exists pv'. split; [done|].
  split; [done|]. split; [|by eapply cycle_traverser_static].
  assert (Hin : x ∈ cyc) by by eapply list_elem_of_lookup_2.
  eapply (cycle_traverser_outside (fun i => i ∈ cyc) pv); eauto.
  intros i j. by apply path_cycle_closed.
Qed.

(** X13: what [sol_swch_step] does to one switch that drives a path cycle.
    If the timer of the switch runs and is over after dt more, the switch
    takes its default state, every path point of the cycle takes that
    state as its flag, and no other path point changes; otherwise neither
    the state of the switch nor any path point changes.  The position,
    radius, path, period, default state and visibility of the switch stay
    as they are. *)
Theorem swch_step1_expiry_resets fuel dt xp pv cyc :
  path_cycle pv cyc ->
  head cyc = Some (swch_pi xp) ->
  (length cyc <= fuel)%nat ->
  exists xp' pv',
    swch_step1 fuel dt xp pv = Some (xp', pv') /\
    swch_static xp' = swch_static xp /\
    if swch_expires dt xp then
      swch_f xp' = swch_f0 xp /\
      (forall i, i ∈ cyc -> flagged pv' (swch_f0 xp) i) /\
      (forall i, i ∉ cyc -> at_ pv' i = at_ pv i) /\
      path_static <$> pv' = path_static <$> pv
    else swch_f xp' = swch_f xp /\ pv' = pv.
Proof.
  intros Hc Hh Hlen. unfold swch_step1, swch_expires.
  destruct (swch_t xp >? lit 0)%fl; [|by eexists _, _].
  cbn [swch_t swch_set_t andb].
  destruct (swch_t xp - dt <=? lit 0)%fl; [|by eexists _, _].
  cbn [swch_f0 swch_pi swch_set_t].
  destruct (cycle_traverser_cycle fuel pv (swch_f0 xp) cyc (swch_pi xp))
    as (pv' & -> & Hfl & Hout & Hst); try done.
  run_bind. by eexists _, _.
Qed.

(** X14: what [sol_swch_test] does to one switch that drives a path cycle.
    If the ball enters the switch (the switch is not waiting for its timer,
    the whole ball is inside its cylinder, and it was not inside at the
    last test), the state of the switch is toggled, every path point of
    the cycle takes the new state as its flag and no other path point
    changes, the timer is loaded when the new state is not the default
    one, a switch without timer is marked as entered, and a visible switch
    sets the result to 1.  Otherwise the state, the timer, the path points
    and the result stay as they are. *)
Theorem swch_test1_enters fuel bp br xp pv res cyc :
  path_cycle pv cyc ->
  head cyc = Some (swch_pi xp) ->
  (length cyc <= fuel)%nat ->
  exists xp' pv' res',
    swch_test1 fuel bp br xp pv res = Some (xp', pv', res') /\
    swch_static xp' = swch_static xp /\
    if swch_enters bp br xp then
      swch_f xp' = toggled xp /\
      res' = (if swch_i xp =? 0 then 1 else res) /\
      swch_t xp' = (if toggled xp =? swch_f0 xp
                    then swch_t xp else swch_t0 xp) /\
      swch_e xp' = (if (swch_t0 xp =? lit 0)%fl then 1 else swch_e xp) /\
      (forall i, i ∈ cyc -> flagged pv' (toggled xp) i) /\
      (forall i, i ∉ cyc -> at_ pv' i = at_ pv i) /\
      path_static <$> pv' = path_static <$> pv
    else
      swch_f xp' = swch_f xp /\ swch_t xp' = swch_t xp /\
      pv' = pv /\ res' = res.
Proof.
  intros Hc Hh Hlen. unfold swch_test1, swch_enters.
  destruct ((swch_t0 xp =? lit 0)%fl || (swch_f xp =? swch_f0 xp));
    [|by eexists _, _, _].
  cbn [andb].
  match goal with |- context [if ?c && ?d && ?e then _ else _] =>
    destruct (c && d && e) end;
    [|destruct (negb (swch_e xp =? 0)); by eexists _, _, _].
  cbn [andb].
  match goal with |- context [if ?c && ?d then _ else _] =>
    destruct (c && d) end; [|by eexists _, _, _].
  destruct (cycle_traverser_cycle fuel pv (toggled xp) cyc (swch_pi xp))
    as (pv' & Hrun & Hfl & Hout & Hst); try done.
  unfold toggled in *.
  destruct (swch_t0 xp =? lit 0)%fl; cbn [swch_f swch_set_f swch_set_e];
    rewrite Hrun; run_bind;
    cbn [swch_f swch_f0 swch_t0 swch_i swch_set_f swch_set_e];
    destruct (_ =? swch_f0 xp); cbn [negb]; by eexists _, _, _.
Qed.

Lemma swch_test1_res fuel bp br xp pv res xp' pv' res' :
  swch_test1 fuel bp br xp pv res = Some (xp', pv', res') ->
  swch_f xp' <> swch_f xp /\ res' = (if swch_i xp =? 0 then 1 else res) \/
  swch_f xp' = swch_f xp /\ res' = res.
Proof.
  unfold swch_test1. intros Ht.
  destruct (_ || _); [|right; by injection Ht as <- _ <-].
  match type of Ht with (if ?c && ?d && ?e then _ else _) = _ =>
    destruct (c && d && e) end;
    [|destruct (negb (swch_e xp =? 0)); right; by injection Ht as <- _ <-].
  match type of Ht with (if ?c && ?d then _ else _) = _ =>
    destruct (c && d) end; [|right; by injection Ht as <- _ <-].
  apply bind_Some in Ht as (pv1 & _ & Ht). left.
  assert (Hf : (if negb (swch_f xp =? 0) then 0 else 1) <> swch_f xp).
  { destruct (Z.eqb_spec (swch_f xp) 0) as [->|]; simpl; congruence. }
  destruct (swch_t0 xp =? lit 0)%fl;
    cbn [swch_f swch_f0 swch_t0 swch_i swch_set_f swch_set_e] in Ht;
    destruct (negb (_ =? swch_f0 xp)); by injection Ht as <- _ <-.
Qed.

Lemma swch_test_loop_res fuel bp br xs pv res xs' pv' res' :
  swch_test_loop fuel bp br xs pv res = Some (xs', pv', res') ->
  res = 0 \/ res = 1 ->
  (res' = 0 \/ res' = 1) /\
  (res' = 1 <->
   res = 1 \/
   exists (k : nat) xp xp', xs !! k = Some xp /\ xs' !! k = Some xp' /\
     swch_i xp = 0 /\ swch_f xp' <> swch_f xp).
Proof.
  revert pv res xs' pv' res'.
  induction xs as [|xp xs IH]; intros pv res xs' pv' res' Hl Hres.
  - injection Hl as <- _ <-. split; [done|]. split; [auto|].
    intros [?|(k & xp & xp' & Hk & _)]; [done|]. by destruct k.
  - cbn [swch_test_loop] in Hl.
    apply bind_Some in Hl as ([[xp1 pv1] res1] & H1 & Hl).
    apply bind_Some in Hl as ([[xs1 pv2] res2] & H2 & Hl).
    injection Hl as <- _ <-.
    apply swch_test1_res in H1.
    assert (Hres1 : res1 = 0 \/ res1 = 1).
    { destruct H1 as [[_ ->]|[_ ->]]; [|done].
      destruct (swch_i xp =? 0); auto. }
    destruct (IH _ _ _ _ _ H2 Hres1) as [Hres2 Hiff]. split; [done|].
    rewrite Hiff. split.
    + intros [->|(k & xq & xq' & Hk & Hk' & Hi & Hf)].
      * destruct H1 as [[Hf H1]|[_ ->]]; [|by left].
        destruct (Z.eqb_spec (swch_i xp) 0) as [Hi|]; [|by left].
        right. by exists 0%nat, xp, xp1.
      * right. by exists (S k), xq, xq'.
    + intros [->|(k & xq & xq' & Hk & Hk' & Hi & Hf)].
      * left. destruct H1 as [[_ ->]|[_ ->]]; [|done].
        by destruct (swch_i xp =? 0).
      * destruct k as [|k]; simpl in Hk, Hk'.
        -- injection Hk as <-. injection Hk' as <-. left.
           destruct H1 as [[_ ->]|[? _]]; [|done].
           apply Z.eqb_eq in Hi. by rewrite Hi.
        -- right. by exists k, xq, xq'.
Qed.

(** X15: [sol_swch_test] returns 0 or 1, and it returns 1 exactly when
    the call changed the state of a visible switch. *)
Theorem sol_swch_test_result fuel fp ui res fp' :
  sol_swch_test fuel fp ui = Some (res, fp') ->
  (res = 0 \/ res = 1) /\
  (res = 1 <->
   exists (k : nat) xp xp',
     xv fp !! k = Some xp /\ xv fp' !! k = Some xp' /\
     swch_i xp = 0 /\ swch_f xp' <> swch_f xp).
Proof.
  unfold sol_swch_test. intros Ht.
  apply bind_Some in Ht as (up & _ & Ht).
  apply bind_Some in Ht as ([[xs ps] res1] & Hl & Ht).
  injection Ht as <- <-. simpl.
  apply swch_test_loop_res in Hl as [Hres Hiff]; [|by left].
  split; [done|]. rewrite Hiff. split; [|by right].
  intros [?|?]; [done | done].
Qed.

Lemma swch_test1_total fuel bp br xp pv0 pv res :
  path_pi <$> pv = path_pi <$> pv0 ->
  (exists cyc, path_cycle pv0 cyc /\ head cyc = Some (swch_pi xp) /\
               (length cyc <= fuel)%nat) ->
  exists xp' pv' res',
    swch_test1 fuel bp br xp pv res = Some (xp', pv', res') /\
    swch_static xp' = swch_static xp /\
    path_static <$> pv' = path_static <$> pv.
Proof.
  intros Hl (cyc & Hc & Hh & Hlen). unfold swch_test1.
  destruct (_ || _); [|by eexists _, _, _].
  match goal with |- context [if ?c && ?d && ?e then _ else _] =>
    destruct (c && d && e) end;
    [|destruct (negb (swch_e xp =? 0)); by eexists _, _, _].
  match goal with |- context [if ?c && ?d then _ else _] =>
    destruct (c && d) end; [|by eexists _, _, _].
  destruct (cycle_traverser_cycle fuel pv (toggled xp) cyc (swch_pi xp))
    as (pv' & Hrun & _ & _ & Hst);
    [by eapply path_cycle_links | done | done|].
  unfold toggled in *.
  destruct (swch_t0 xp =? lit 0)%fl; cbn [swch_f swch_set_f swch_set_e];
    rewrite Hrun; run_bind;
    cbn [swch_f swch_f0 swch_t0 swch_i swch_set_f swch_set_e];
    destruct (negb (_ =? swch_f0 xp)); by eexists _, _, _.
Qed.

Lemma swch_test_loop_total fuel bp br xs pv0 pv res :
  path_pi <$> pv = path_pi <$> pv0 ->
  (forall xp, xp ∈ xs ->
     exists cyc, path_cycle pv0 cyc /\ head cyc = Some (swch_pi xp) /\
                 (length cyc <= fuel)%nat) ->
  exists xs' pv' res',
    swch_test_loop fuel bp br xs pv res = Some (xs', pv', res') /\
    swch_static <$> xs' = swch_static <$> xs /\
    path_static <$> pv' = path_static <$> pv.
Proof.
  revert pv res. induction xs as [|xp xs IH]; intros pv res Hl Hx.
  - by eexists _, _, _.
  - cbn [swch_test_loop].
    destruct (swch_test1_total fuel bp br xp pv0 pv res Hl)
      as (xp' & pv1 & res1 & -> & Hxp & Hp1); [apply Hx; by left|].
    run_bind.
    destruct (IH pv1 res1) as (xs' & pv' & res' & -> & Hxs & Hp');
      [apply static_links in Hp1; congruence
      |intros; apply Hx; by right|].
    run_bind. eexists _, _, _. split; [done|]. split; [|congruence].
    rewrite !fmap_cons. congruence.
Qed.

(** X16: [sol_swch_test] keeps a level well formed.  On a well-formed
    level and for a ball of the level it returns; the level it leaves is
    well formed again and differs from the old one in nothing but the
    timers, states and entered marks of switches and the flags of path
    points: balls and bodies are as they were. *)
Theorem sol_swch_test_keeps_wf fuel fp ui :
  WF fuel fp ->
  is_Some (at_ (uv fp) ui) ->
  exists res fp',
    sol_swch_test fuel fp ui = Some (res, fp') /\
    WF fuel fp' /\ same_static fp fp' /\
    uv fp' = uv fp /\ bv fp' = bv fp.
Proof.
  intros Hwf [up Hup]. unfold sol_swch_test. rewrite Hup. run_bind.
  destruct (swch_test_loop_total fuel (ball_p up) (ball_r up) (xv fp)
              (pv fp) (pv fp) 0)
    as (xs & ps & res & -> & Hxs & Hps); [done | apply Hwf|].
  run_bind. eexists _, _. split; [done|].
  split; [|by repeat split].
  eapply WF_same_frame; [exact Hwf|].
  split; try done; simpl.
  - by apply static_links.
  - by apply static_swch_pi.
  - apply body_moves_refl.
Qed.

(** X17: when no timer is over within dt, [sol_swch_step] does nothing but
    count the running timers down by dt: every switch keeps its state, no
    path point changes, and the traverser is not run, so the call returns
    whatever the fuel and the shape of the paths. *)
Theorem sol_swch_step_idle fuel fp dt :
  (forall xp, xp ∈ xv fp -> swch_expires dt xp = false) ->
  exists xs',
    sol_swch_step fuel fp dt = Some (file_set_xv_pv fp xs' (pv fp)) /\
    Forall2 (fun xp xp' =>
               xp' = if (swch_t xp >? lit 0)%fl
                     then swch_set_t xp (swch_t xp - dt)%fl else xp)
            (xv fp) xs'.
Proof.
  intros Hidle. unfold sol_swch_step.
  assert (Hl : forall xs pv,
            (forall xp, xp ∈ xs -> swch_expires dt xp = false) ->
            exists xs',
              swch_step_loop fuel dt xs pv = Some (xs', pv) /\
              Forall2 (fun xp xp' =>
                         xp' = if (swch_t xp >? lit 0)%fl
                               then swch_set_t xp (swch_t xp - dt)%fl
                               else xp) xs xs').
  { clear Hidle. induction xs as [|xp xs IH]; intros pv Hx.
    - exists []. by split.
    - destruct (IH pv) as (xs' & Hrun & Hall); [intros; apply Hx; by right|].
      assert (Hxp : swch_expires dt xp = false) by (apply Hx; by left).
      cbn [swch_step_loop]. unfold swch_step1, swch_expires in *.
      destruct (swch_t xp >? lit 0)%fl eqn:E;
        cbn [andb swch_t swch_set_t] in *.
      + rewrite Hxp. run_bind. rewrite Hrun. run_bind.
        eexists. split; [done|]. constructor; [by rewrite E | done].
      + run_bind. rewrite Hrun. run_bind.
        eexists. split; [done|]. constructor; [by rewrite E | done]. }
  destruct (Hl (xv fp) (pv fp) Hidle) as (xs' & -> & Hall).
  run_bind. by exists xs'.
Qed.

End Properties.

(** * The rational model: laws, runs and counterexamples *)

Module QRuns.
Import QModel.

Lemma Qle_bool_false (a b : Q) : Qle_bool a b = false <-> (b < a)%Q.
Proof.
  rewrite <- not_true_iff_false, Qle_bool_iff. split.
  - apply Qnot_le_lt.
  - apply Qlt_not_le.
Qed.

Lemma Qlt_bool_true (a b : Q) : negb (Qle_bool b a) = true <-> (a < b)%Q.
Proof. rewrite negb_true_iff. apply Qle_bool_false. Qed.

#[export] Instance Q_order : ScalarOrder.
Proof.
  split; simpl.
  - intros a b c Hab Hbc. apply Qle_bool_iff. apply Qle_bool_iff in Hab.
    apply Qlt_bool_true in Hbc. apply Qlt_le_weak.
    eapply Qle_lt_trans; eauto.
  - intros a b _. apply Qle_bool_iff, Qle_refl.
  - intros a b _. apply Qle_bool_iff, Qle_refl.
  - reflexivity.
  - intros a b Ha Hb. apply Qle_bool_iff. apply Qle_bool_iff in Ha, Hb.
    rewrite Qred_correct in Ha, Hb. rewrite (Qred_correct (a + b)).
    apply (Qle_trans _ (0 + 0)%Q); [vm_compute; discriminate|].
    by apply Qplus_le_compat.
  - intros a b Hab. apply Qlt_bool_true in Hab.
    by rewrite !Qred_correct in Hab.
  - intros a b Hab. apply Qle_bool_iff. by rewrite !Qred_correct.
Qed.

(** ** C2: a tangent root that is negative *)

(** C2 (the code at the failing input): for P = (1,1,0), V = (1,0,0) and
    r = 1 the discriminant is 0 and [v_sol] returns the tangent root -1, a
    negative time, not the sentinel.  [v_edge] calls [v_sol] with these
    arguments for an edge along (0,0,1) and discards the result by its own
    test 0 <= t. *)
Theorem v_sol_negative_time :
  v_sol (vq 1 1 0) (vq 1 0 0) (lit 1) = lit (-1) /\
  (v_sol (vq 1 1 0) (vq 1 0 0) (lit 1) <? lit 0)%fl = true /\
  v_sol (vq 1 1 0) (vq 1 0 0) (lit 1) <> LARGE /\
  v_edge (vq 0 0 0) (vq 0 0 0) (vq 0 0 0) (vq 0 0 1) (vq 0 0 0)
         (vq 1 1 (1 # 2)) (vq 1 0 0) (lit 1) = (LARGE, vq 0 0 0).
Proof. vm_compute. repeat split. discriminate. Qed.

(* The policy at work where the discriminant is positive: the ball is
   inside the sphere around the vertex, the smaller root is -1, and the
   sentinel is returned although the larger root is 1. *)
Lemma v_sol_policy_run :
  v_sol (vq 0 0 0) (vq 1 0 0) (lit 1) = LARGE /\
  (v_sol (vq 0 0 0) (vq 1 0 0) (lit 1) <? lit 0)%fl = false.
Proof.
  destruct (v_sol_policy (vq 0 0 0) (vq 1 0 0) (lit 1)) as (_ & Hpos & _).
  destruct (Hpos eq_refl eq_refl) as [-> _]. split; reflexivity.
Qed.

(** ** C6: a disabled door stays where it stands *)

(** C6 (counterexample): the door's current path point is disabled and
    lies at (0,0,0); one second into the four-second segment towards
    (4,0,0), [sol_body_p] is (1,0,0), not the path point. *)
Lemma sol_body_p_disabled_interpolates :
  (path_f <$> at_ (pv door_file) (body_pi door_body)) = Some 0 /\
  (path_p <$> at_ (pv door_file) (body_pi door_body)) = Some (vq 0 0 0) /\
  sol_body_v door_file door_body = Some (vq 0 0 0) /\
  sol_body_p door_file door_body = Some (vq 1 0 0).
Proof. vm_compute. auto. Qed.

Lemma sol_body_disabled_witness :
  sol_body_v door_file door_body = Some v_zero /\
  sol_body_p door_file door_body = Some (vq 1 0 0).
Proof.
  exact (sol_body_disabled door_file door_body
           (mk_path (vq 0 0 0) 4 1 0 0) (mk_path (vq 4 0 0) 4 0 0 0)
           eq_refl eq_refl eq_refl).
Defined.

(** ** C10: a ball index past the end *)

Lemma sol_step_out_of_range_witness :
  sol_step 4 (vq 0 0 0) (vq 0 0 0) door_file (vq 0 (-8) 0) (lit (1 # 2)) 1
           (Some 0) = Some (lit 0, door_file, Some 0).
Proof. apply sol_step_out_of_range. simpl. lia. Defined.

(** ** C1: a lift that passes through the ball *)

(** C1 (the code at the failing input): the lift stands at o = (0,0,0)
    and moves with w = (-4,-1,-1); the ball rests at (-1,0,0).  After 7/16
    of a second the face x = 1 of the lift reaches the ball, and the
    traversal without pruning finds that contact.  [sol_test_fore], which
    moves the ball by its own velocity and not by its velocity relative to
    the body, sees the ball behind the plane x = 0 now and a second later
    and fails; [sol_test_node] skips the front child and returns the time
    budget 1: no contact.  A whole step of one second under the gravity
    (0,-2,0) accordingly resolves no contact, while the lift sweeps across
    the ball. *)
Theorem sol_test_node_misses_moving_lump :
  sol_body_p lift_file lift_body = Some (vq 0 0 0) /\
  sol_body_v lift_file lift_body = Some (vq (-4) (-1) (-1)) /\
  sol_test_fore (lit 1) lift_ball lift_split (vq 0 0 0) (vq (-4) (-1) (-1))
    = false /\
  sol_test_node 2 (lit 1) (vq 0 0 0) lift_ball lift_file lift_root
    (vq 0 0 0) (vq (-4) (-1) (-1)) = Some (lit 1, vq 0 0 0) /\
  sol_test_node_all 2 (lit 1) (vq 0 0 0) lift_ball lift_file lift_root
    (vq 0 0 0) (vq (-4) (-1) (-1)) = Some (lit (7 # 16), vq (-3 # 4) 0 0) /\
  sol_step_contacts 2 (vq 0 0 0) (vq 0 0 0) lift_file (vq 0 (-2) 0) (lit 1)
    0 None = Some 0%nat.
Proof. vm_compute. repeat split. Qed.

(** ** C3: the cycle of the lift's path *)

Lemma cycle_traverser_covers_witness :
  exists pv',
    (forall fuel, (2 <= fuel)%nat ->
       cycle_traverser fuel (pv lift_file) 0 0 0 = Some pv') /\
    (forall fuel, (fuel < 2)%nat ->
       cycle_traverser fuel (pv lift_file) 0 0 0 = None) /\
    (forall i, i ∈ [0; 1] -> flagged pv' 0 i) /\
    path_pi <$> pv' = path_pi <$> pv lift_file.
Proof.
  apply (cycle_traverser_covers (pv lift_file) 0 [0; 1] 0).
  - apply path_cycleb_spec. vm_compute. reflexivity.
  - reflexivity.
Defined.

(** ** C4, C9: a ball dropped on the floor *)

Lemma sol_step_returns_witness :
  exists fp1 m1 P1 V1 a n s fp',
    sol_step_friction 2 (vq 0 0 0) (vq 0 0 0) floor_file (vq 0 (-8) 0)
      (lit (1 # 2)) 0 (Some 0) = Some (fp1, m1, P1, V1, a) /\
    bounces 2 0 n
      {| ls_c := 16; ls_fp := fp1; ls_tt := lit (1 # 2); ls_b := lit 0 |}
      P1 V1 s /\
    (n <= 16)%nat /\
    sol_step_contacts 2 (vq 0 0 0) (vq 0 0 0) floor_file (vq 0 (-8) 0)
      (lit (1 # 2)) 0 (Some 0) = Some n /\
    sol_step_rest 2 (ls_fp s) (vq 0 (-8) 0) (lit (1 # 2)) (ls_tt s) 0 a
      = Some fp' /\
    sol_step 2 (vq 0 0 0) (vq 0 0 0) floor_file (vq 0 (-8) 0) (lit (1 # 2)) 0
      (Some 0) = Some (ls_b s, fp', m1) /\
    (ls_c s = 0%nat \/
     (ls_tt s >? lit 0)%fl = false \/
     exists up P' V' nt P2 V2,
       at_ (uv (ls_fp s)) 0 = Some up /\
       sol_test_file 2 (ls_tt s) P' V' up (ls_fp s) = Some (nt, P2, V2) /\
       (ls_tt s >? nt)%fl = false) /\
    exists fpa fpb up,
      sol_body_step (ls_fp s) (ls_tt s) = Some fpa /\
      sol_swch_step 2 fpa (ls_tt s) = Some fpb /\
      at_ (uv (sol_ball_step fpb (ls_tt s))) 0 = Some up /\
      uv_set (sol_ball_step fpb (ls_tt s)) 0
             (sol_pendulum up (v_sub (ball_v up) a) (vq 0 (-8) 0)
                           (lit (1 # 2))) = Some fp'.
Proof.
  apply sol_step_returns.
  - vm_compute. reflexivity.
  - simpl. lia.
Defined.

(* The run itself: one bounce, of energy 4. *)
Lemma floor_file_run :
  exists fp',
    sol_step 2 (vq 0 0 0) (vq 0 0 0) floor_file (vq 0 (-8) 0) (lit (1 # 2)) 0
      (Some 0) = Some (lit 4, fp', Some 0) /\
    sol_step_contacts 2 (vq 0 0 0) (vq 0 0 0) floor_file (vq 0 (-8) 0)
      (lit (1 # 2)) 0 (Some 0) = Some 1%nat.
Proof. eexists. split; vm_compute; reflexivity. Qed.

Lemma sol_step_energy_witness :
  (lit 0 <=? lit 4)%fl = true /\
  (sol_step_contacts 2 (vq 0 0 0) (vq 0 0 0) floor_file (vq 0 (-8) 0)
     (lit (1 # 2)) 0 (Some 0) = Some 0%nat -> lit 4 = lit 0).
Proof.
  destruct floor_file_run as (fp' & Hrun & _).
  exact (sol_step_energy 2 (vq 0 0 0) (vq 0 0 0) floor_file (vq 0 (-8) 0)
           (lit (1 # 2)) 0 (Some 0) (lit 4) fp' (Some 0) Hrun).
Defined.

(** ** C5: a contact beside the floor *)

Lemma sol_test_side_rejects_witness :
  sol_test_side (lit 1) (vq 0 0 0) stray_ball floor_file box_lump 3
    (vq 0 0 0) (vq 0 0 0) = Some (LARGE, vq 5 0 0).
Proof.
  apply (sol_test_side_rejects (lit 1) (vq 0 0 0) stray_ball floor_file
           box_lump 3 (vq 0 0 0) (vq 0 0 0) (mk_side (vq 0 1 0) 0) (lit (3 # 4))
           (vq 5 0 0) 1 1 (mk_side (vq 1 0 0) 4)).
  - apply wf_lump_sides_ok. vm_compute. reflexivity.
  - reflexivity.
  - reflexivity.
  - reflexivity.
  - simpl. lia.
  - reflexivity.
  - lia.
  - reflexivity.
  - reflexivity.
Defined.

(** ** C7: the lift reaches the end of its segment *)

(* A body on no path beside the lift, which reaches the end of its
   segment. *)
Lemma sol_body_step_in_segment_witness :
  exists fp', sol_body_step floor_lift_file (lit 1) = Some fp' /\
    pv fp' = pv floor_lift_file /\
    Forall2 (fun bp bp' =>
               (body_pi bp < 0 -> bp' = bp) /\
               (in_segment (pv floor_lift_file) bp ->
                (forall pp, at_ (pv floor_lift_file) (body_pi bp) = Some pp ->
                   exists pq, at_ (pv floor_lift_file) (path_pi pp) = Some pq /\
                              (lit 0 <? path_t pq)%fl = true) ->
                in_segment (pv fp') bp' /\
                exists pp, at_ (pv floor_lift_file) (body_pi bp) = Some pp /\
                           body_stepped (lit 1) pp bp bp'))
            (bv floor_lift_file) (bv fp').
Proof.
  apply sol_body_step_in_segment.
  - reflexivity.
  - intros bp Hin. simpl in Hin.
    apply elem_of_cons in Hin as [->|Hin]; [left; simpl; lia|].
    apply list_elem_of_singleton in Hin as ->. right. by eexists.
Defined.

(** ** C8: the first coin, not the nearest *)

(** C8 (counterexample): both coins are within ball radius + item radius
    = 5/4 of the ball; the coin at distance 1/2 is the nearer one, and
    [sol_item_test] returns the coin at distance 1, which is stored first.
    With the nearer coin stored first but spent (ITEM_NONE), it returns
    the other one. *)
Lemma sol_item_test_not_nearest :
  sol_item_test coin_file (vq 0 0 0) (lit (1 # 4))
    = Some (Some 0, vq 1 0 0) /\
  (v_len (v_sub (vq 0 0 0) (vq 1 0 0)) = lit 1 /\
   v_len (v_sub (vq 0 0 0) (vq (1 # 2) 0 0)) = lit (1 # 2)) /\
  (item_in_reach (vq 0 0 0) (lit 1) (lit (1 # 4))
     {| item_p := vq (1 # 2) 0 0; item_t := 1 |} = true) /\
  sol_item_test spent_coin_file (vq 0 0 0) (lit (1 # 4))
    = Some (Some 1, vq 1 0 0).
Proof. vm_compute. repeat split. Qed.

Lemma sol_item_test_first_witness :
  exists hp, at_ (hv coin_file) 0 = Some hp /\ vq 1 0 0 = item_p hp /\
    item_in_reach (vq 0 0 0) (lit 1) (lit (1 # 4)) hp = true /\
    forall j hq, 0 <= j < 0 -> at_ (hv coin_file) j = Some hq ->
      item_in_reach (vq 0 0 0) (lit 1) (lit (1 # 4)) hq = false.
Proof.
  exact (sol_item_test_first coin_file (vq 0 0 0) (lit (1 # 4))
           (mk_ball (vq 0 0 0) (vq 0 0 0) 1) eq_refl).
Defined.

(** ** Witnesses of the further properties *)

#[export] Instance Q_strict : ScalarStrict.
Proof.
  split; simpl.
  - intros a b c Hab Hbc. apply Qlt_bool_true.
    apply Qlt_bool_true in Hab, Hbc. eapply Qlt_trans; eauto.
  - intros a. apply negb_false_iff, Qle_bool_iff, Qle_refl.
Qed.

Lemma sol_goal_test_first_witness :
  exists zp, at_ floor_goals 1 = Some zp /\ vq 0 (1 # 2) 0 = goal_p zp /\
    goal_reached (vq 0 1 0) (lit (1 # 4)) zp = true /\
    forall j zq, 0 <= j < 1 -> at_ floor_goals j = Some zq ->
      goal_reached (vq 0 1 0) (lit (1 # 4)) zq = false.
Proof.
  exact (sol_goal_test_first floor_file floor_goals (vq 0 0 0) 0
           (mk_ball (vq 0 1 0) (vq 0 0 0) (1 # 4)) eq_refl).
Defined.

Lemma sol_jump_test_result_witness :
  exists res p',
    sol_jump_test floor_file floor_jumps (vq 0 0 0) 0 = Some (res, p') /\
    ((res = 1 /\
      exists (k : nat) jp, floor_jumps !! k = Some jp /\
        jump_inside (vq 0 1 0) (lit (1 # 4)) jp = true /\
        (forall (j : nat) jq, (j < k)%nat -> floor_jumps !! j = Some jq ->
           jump_inside (vq 0 1 0) (lit (1 # 4)) jq = false) /\
        p' = jump_target (vq 0 1 0) jp) \/
     (res = 2 /\ p' = vq 0 0 0 /\
      (forall jp, jp ∈ floor_jumps ->
         jump_inside (vq 0 1 0) (lit (1 # 4)) jp = false) /\
      exists jp, jp ∈ floor_jumps /\ jump_over (vq 0 1 0) jp = true) \/
     (res = 0 /\ p' = vq 0 0 0 /\
      forall jp, jp ∈ floor_jumps -> jump_over (vq 0 1 0) jp = false)).
Proof.
  exact (sol_jump_test_result floor_file floor_jumps (vq 0 0 0) 0
           (mk_ball (vq 0 1 0) (vq 0 0 0) (1 # 4)) eq_refl).
Defined.

(* The edge along (0,0,1) of C2, whose tangent root is -1. *)
Lemma v_edge_time_witness :
  (lit 0 <=? (v_edge (vq 0 0 0) (vq 0 0 0) (vq 0 0 0) (vq 0 0 1) (vq 0 0 0)
                     (vq 1 1 (1 # 2)) (vq 1 0 0) (lit 1)).1)%fl = true /\
  (v_edge (vq 0 0 0) (vq 0 0 0) (vq 0 0 0) (vq 0 0 1) (vq 0 0 0)
          (vq 1 1 (1 # 2)) (vq 1 0 0) (lit 1) = (LARGE, vq 0 0 0) \/
   ((v_edge (vq 0 0 0) (vq 0 0 0) (vq 0 0 0) (vq 0 0 1) (vq 0 0 0)
            (vq 1 1 (1 # 2)) (vq 1 0 0) (lit 1)).1 <? LARGE)%fl = true /\
   exists s, (lit 0 <? s)%fl = true /\ (s <? lit 1)%fl = true /\
     (v_edge (vq 0 0 0) (vq 0 0 0) (vq 0 0 0) (vq 0 0 1) (vq 0 0 0)
             (vq 1 1 (1 # 2)) (vq 1 0 0) (lit 1)).2 =
     v_add (v_mad (vq 0 0 0) (vq 0 0 1) s)
           (v_mad (vq 0 0 0) (vq 0 0 0)
              (v_edge (vq 0 0 0) (vq 0 0 0) (vq 0 0 0) (vq 0 0 1) (vq 0 0 0)
                      (vq 1 1 (1 # 2)) (vq 1 0 0) (lit 1)).1)) /\
  forall dt up fp ep t T,
    sol_test_edge dt (vq 0 0 0) up fp ep (vq 0 0 0) (vq 0 0 0) = Some (t, T) ->
    (lit 0 <=? t)%fl = true.
Proof.
  exact (v_edge_time (vq 0 0 0) (vq 0 0 0) (vq 0 0 0) (vq 0 0 1) (vq 0 0 0)
           (vq 1 1 (1 # 2)) (vq 1 0 0) (lit 1)).
Defined.

(* The falling ball and the top side of the floor. *)
Lemma v_side_time_witness :
  (lit 0 <=? (v_side (vq 0 0 0) (vq 0 0 0) (vq 0 0 0) (vq 0 1 0) (lit 0)
                     (vq 0 1 0) (vq 0 (-1) 0) (lit (1 # 4))).1)%fl = true /\
  (v_side (vq 0 0 0) (vq 0 0 0) (vq 0 0 0) (vq 0 1 0) (lit 0)
          (vq 0 1 0) (vq 0 (-1) 0) (lit (1 # 4)) = (LARGE, vq 0 0 0) \/
   (v_side (vq 0 0 0) (vq 0 0 0) (vq 0 0 0) (vq 0 1 0) (lit 0)
           (vq 0 1 0) (vq 0 (-1) 0) (lit (1 # 4))).2 =
   v_mad (v_mad (vq 0 1 0) (vq 0 (-1) 0)
            (v_side (vq 0 0 0) (vq 0 0 0) (vq 0 0 0) (vq 0 1 0) (lit 0)
                    (vq 0 1 0) (vq 0 (-1) 0) (lit (1 # 4))).1)
         (vq 0 1 0) (- lit (1 # 4))%fl) /\
  forall dt up fp lp si t T,
    sol_test_side dt (vq 0 0 0) up fp lp si (vq 0 0 0) (vq 0 0 0)
      = Some (t, T) ->
    (lit 0 <=? t)%fl = true.
Proof.
  exact (v_side_time (vq 0 0 0) (vq 0 0 0) (vq 0 0 0) (vq 0 1 0) (lit 0)
           (vq 0 1 0) (vq 0 (-1) 0) (lit (1 # 4))).
Defined.

Lemma sol_test_side_accepts_witness :
  sol_test_side (lit 1) (vq 0 0 0) falling_ball floor_file box_lump 3
    (vq 0 0 0) (vq 0 0 0) = Some (lit (3 # 4), vq 0 0 0).
Proof.
  apply (sol_test_side_accepts (lit 1) (vq 0 0 0) falling_ball floor_file
           box_lump 3 (vq 0 0 0) (vq 0 0 0) (mk_side (vq 0 1 0) 0)).
  - apply wf_lump_sides_ok. vm_compute. reflexivity.
  - reflexivity.
  - reflexivity.
  - intros i sj sq Hi.
    assert (Hc : i = 0 \/ i = 1 \/ i = 2 \/ i = 3 \/ i = 4 \/ i = 5)
      by (simpl in Hi; lia).
    destruct Hc as [-> | [-> | [-> | [-> | [-> | ->]]]]];
      intros [= <-] _ [= <-]; reflexivity.
Defined.

Lemma sol_test_node_budget_witness :
  budget_or_before (lit 1) (vq 0 0 0) (lit (3 # 4), vq 0 0 0) /\
  forall lp r',
    sol_test_lump (lit 1) (vq 0 0 0) falling_ball floor_file lp
      (vq 0 0 0) (vq 0 0 0) = Some r' ->
    budget_or_before (lit 1) (vq 0 0 0) r'.
Proof.
  apply (sol_test_node_budget 2 (lit 1) (vq 0 0 0) falling_ball floor_file
           (leaf 0 1) (vq 0 0 0) (vq 0 0 0)).
  vm_compute. reflexivity.
Defined.

Lemma sol_test_file_budget_witness :
  ((lit (3 # 4), vq 0 0 0, vq 0 0 0) = (lit 1, vq 0 0 0, vq 0 0 0) \/
   (lit (3 # 4) <? lit 1)%fl = true) /\
  forall bp t1 T1 V1,
    sol_test_body 2 (lit 1) (vq 0 0 0) (vq 0 0 0) falling_ball floor_file bp
      = Some (t1, T1, V1) ->
    (t1, T1, V1) = (lit 1, vq 0 0 0, vq 0 0 0) \/ (t1 <? lit 1)%fl = true.
Proof.
  apply (sol_test_file_budget 2 (lit 1) (vq 0 0 0) (vq 0 0 0) falling_ball
           floor_file).
  vm_compute. reflexivity.
Defined.

Lemma sol_step_static_witness :
  same_static floor_file (after_step floor_file).
Proof.
  apply (sol_step_static 2 (vq 0 0 0) (vq 0 0 0) floor_file (vq 0 (-8) 0)
           (lit (1 # 2)) 0 (Some 0) (lit 4) (after_step floor_file) (Some 0)).
  vm_compute. reflexivity.
Defined.

Lemma sol_step_others_witness :
  others_kept 0 two_ball_file (after_step two_ball_file) /\
  forall fp0 dt0 uj,
    ball_motion <$> at_ (uv (sol_ball_step fp0 dt0)) uj
    = ball_motion <$> at_ (uv fp0) uj.
Proof.
  apply (sol_step_others 2 (vq 0 0 0) (vq 0 0 0) two_ball_file
           (vq 0 (-8) 0) (lit (1 # 2)) 0 (Some 0) (lit 4)
           (after_step two_ball_file) (Some 0)).
  vm_compute. reflexivity.
Defined.

Lemma sol_step_detail_witness :
    lit 0 = lit 0 /\
    sol_step_contacts 2 (vq 0 0 0) (vq 0 0 0) detail_file (vq 0 (-8) 0)
      (lit (1 # 2)) 0 (Some 0) = Some 0%nat /\
    forall dt' T' V' up r,
      sol_test_file 2 dt' T' V' up detail_file = Some r -> r = (dt', T', V').
Proof.
  apply (sol_step_detail 2 (vq 0 0 0) (vq 0 0 0) detail_file (vq 0 (-8) 0)
           (lit (1 # 2)) 0 (Some 0) (lit 0) (after_step detail_file)
           (Some 0)).
  - intros lp Hin. apply list_elem_of_singleton in Hin as ->.
    vm_compute. discriminate.
  - vm_compute. reflexivity.
Defined.


Lemma sol_step_keeps_wf_witness :
  exists b fp' m',
    sol_step 2 (vq 0 0 0) (vq 0 0 0) floor_file (vq 0 (-8) 0) (lit (1 # 2)) 0
      (Some 0) = Some (b, fp', m') /\
    WF 2 fp' /\ length (uv fp') = length (uv floor_file).
Proof.
  apply sol_step_keeps_wf.
  - apply wf_file_WF. vm_compute. reflexivity.
  - lia.
Defined.

Lemma swch_step1_expiry_resets_witness :
  exists xp' pv',
    swch_step1 2 (lit (1 # 2)) floor_switch (pv floor_file)
      = Some (xp', pv') /\
    swch_static xp' = swch_static floor_switch /\
    swch_f xp' = 0 /\
    (forall i, i ∈ [0; 1] -> flagged pv' 0 i) /\
    (forall i, i ∉ [0; 1] -> at_ pv' i = at_ (pv floor_file) i) /\
    path_static <$> pv' = path_static <$> pv floor_file.
Proof.
  assert (Hc : path_cycle (pv floor_file) [0; 1]).
  { apply path_cycleb_spec. vm_compute. reflexivity. }
  exact (swch_step1_expiry_resets 2 (lit (1 # 2)) floor_switch
           (pv floor_file) [0; 1] Hc eq_refl (le_n 2)).
Defined.

Lemma swch_test1_enters_witness :
  exists xp' pv' res',
    swch_test1 2 (vq 3 (1 # 2) 3) (lit (1 # 4)) toggle_switch
      (pv floor_file) 0 = Some (xp', pv', res') /\
    swch_static xp' = swch_static toggle_switch /\
    swch_f xp' = 1 /\
    res' = 1 /\
    swch_t xp' = swch_t0 toggle_switch /\
    swch_e xp' = 1 /\
    (forall i, i ∈ [0; 1] -> flagged pv' 1 i) /\
    (forall i, i ∉ [0; 1] -> at_ pv' i = at_ (pv floor_file) i) /\
    path_static <$> pv' = path_static <$> pv floor_file.
Proof.
  assert (Hc : path_cycle (pv floor_file) [0; 1]).
  { apply path_cycleb_spec. vm_compute. reflexivity. }
  exact (swch_test1_enters 2 (vq 3 (1 # 2) 3) (lit (1 # 4)) toggle_switch
           (pv floor_file) 0 [0; 1] Hc eq_refl (le_n 2)).
Defined.

Lemma sol_swch_test_result_witness :
  (1 = 0 \/ 1 = 1) /\
  (1 = 1 <->
   exists (k : nat) xp xp',
     xv switch_file !! k = Some xp /\
     xv (after_swch_test switch_file) !! k = Some xp' /\
     swch_i xp = 0 /\ swch_f xp' <> swch_f xp).
Proof.
  apply (sol_swch_test_result 2 switch_file 0 1 (after_swch_test switch_file)).
  vm_compute. reflexivity.
Defined.

Lemma sol_swch_test_keeps_wf_witness :
  exists res fp',
    sol_swch_test 2 switch_file 0 = Some (res, fp') /\
    WF 2 fp' /\ same_static switch_file fp' /\
    uv fp' = uv switch_file /\ bv fp' = bv switch_file.
Proof.
  apply sol_swch_test_keeps_wf.
  - apply wf_file_WF. vm_compute. reflexivity.
  - by eexists.
Defined.

(* The timer of the floor switch runs, and is not over after 1/8. *)
Lemma sol_swch_step_idle_witness :
  exists xs',
    sol_swch_step 0 floor_file (lit (1 # 8))
      = Some (file_set_xv_pv floor_file xs' (pv floor_file)) /\
    Forall2 (fun xp xp' =>
               xp' = if (swch_t xp >? lit 0)%fl
                     then swch_set_t xp (swch_t xp - lit (1 # 8))%fl else xp)
            (xv floor_file) xs'.
Proof.
  apply sol_swch_step_idle.
  intros xp Hin. apply list_elem_of_singleton in Hin as ->. reflexivity.
Defined.

End QRuns.
